(** * MagneticHeroText: a shallow embedding of the hero-text effect

    The class [MagneticHeroText] splits the text of a container into one
    span per word, caches the rectangle of every word in document
    coordinates, and on pointer moves translates every word toward the
    pointer by a force that falls off linearly with the distance.

    JavaScript numbers are modelled as mathematical reals: [Math.sqrt],
    [Math.atan2], [Math.cos] and [Math.sin] are the real functions, with
    no rounding, no NaN and no signed zero.  Strings are sequences of
    characters, the DOM is an explicit store of span elements, and the
    host's frame and timer queues are explicit state. *)

From Stdlib Require Import Reals Lra List String Ascii ZArith PArith Bool Lia.
Import ListNotations.

Local Open Scope R_scope.

(** ** The numeric builtins *)

Module JSMath.

(** [Math.atan2(y, x)]: the angle of the point [(x, y)] in (-PI, PI];
    [Math.atan2(0, 0)] is [0]. *)
Definition atan2 (y x : R) : R :=
  match total_order_T x 0 with
  | inleft (left _) =>
      if Rle_dec 0 y then atan (y / x) + PI else atan (y / x) - PI
  | inleft (right _) =>
      match total_order_T y 0 with
      | inleft (left _) => - (PI / 2)
      | inleft (right _) => 0
      | inright _ => PI / 2
      end
  | inright _ => atan (y / x)
  end.

End JSMath.

(** ** The configuration *)

(** The argument [options] of the constructor: every property may be
    absent. *)
Record OptionsArg := {
  arg_maxDistance : option R;
  arg_maxDisplacement : option R;
  arg_springEasing : option string;
  arg_activeDuration : option R;
  arg_resetDuration : option R
}.

Record Options := {
  maxDistance : R;
  maxDisplacement : R;
  springEasing : string;
  activeDuration : R;
  resetDuration : R
}.

(** [v || d] on a numeric property: an absent property and [0] are falsy. *)
Definition orDefault (v : option R) (d : R) : R :=
  match v with
  | Some x => if Req_dec_T x 0 then d else x
  | None => d
  end.

(** [v || d] on a string property: an absent property and the empty
    string are falsy. *)
Definition orDefaultStr (v : option string) (d : string) : string :=
  match v with
  | Some EmptyString => d
  | Some s => s
  | None => d
  end.

(** The trailing [...options] of the object literal: a property that is
    present replaces the value computed before it. *)
Definition spread {A : Type} (v : option A) (computed : A) : A :=
  match v with
  | Some x => x
  | None => computed
  end.

Definition mkOptions (options : OptionsArg) : Options :=
  {| maxDistance :=
       spread (arg_maxDistance options) (orDefault (arg_maxDistance options) 200);
     maxDisplacement :=
       spread (arg_maxDisplacement options)
              (orDefault (arg_maxDisplacement options) 25);
     springEasing :=
       spread (arg_springEasing options)
              (orDefaultStr (arg_springEasing options)
                            "cubic-bezier(0.34, 1.56, 0.64, 1)");
     activeDuration :=
       spread (arg_activeDuration options)
              (orDefault (arg_activeDuration options) 150);
     resetDuration :=
       spread (arg_resetDuration options)
              (orDefault (arg_resetDuration options) 300) |}.

Definition noOptions : OptionsArg :=
  {| arg_maxDistance := None; arg_maxDisplacement := None;
     arg_springEasing := None; arg_activeDuration := None;
     arg_resetDuration := None |}.

(** ** Geometry and the force law *)

(** An entry of [wordRects], in document coordinates. *)
Record WordRect := {
  left : R;
  top : R;
  width : R;
  height : R;
  centerX : R;
  centerY : R
}.

(** The object [{ translateX, translateY }]. *)
Record Translate := {
  translateX : R;
  translateY : R
}.

Definition zeroTranslate : Translate := {| translateX := 0; translateY := 0 |}.

(** The local [distance] of [calculateMagneticForce]. *)
Definition pointerDistance (wordRect : WordRect) (mouseX mouseY : R) : R :=
  let deltaX := mouseX - centerX wordRect in
  let deltaY := mouseY - centerY wordRect in
  sqrt (deltaX * deltaX + deltaY * deltaY).

Definition calculateMagneticForce (o : Options) (wordRect : WordRect)
    (mouseX mouseY : R) : Translate :=
  let deltaX := mouseX - centerX wordRect in
  let deltaY := mouseY - centerY wordRect in
  let distance := sqrt (deltaX * deltaX + deltaY * deltaY) in
  if Rge_dec distance (maxDistance o) then
    {| translateX := 0; translateY := 0 |}
  else
    let force := 1 - distance / maxDistance o in
    let displacement := force * maxDisplacement o in
    let angle := JSMath.atan2 deltaY deltaX in
    {| translateX := cos angle * displacement;
       translateY := sin angle * displacement |}.

(** The Euclidean length of a displacement. *)
Definition magnitude (t : Translate) : R :=
  sqrt (translateX t * translateX t + translateY t * translateY t).


(** ** Strings *)

Local Open Scope string_scope.

(** [s.split(' ')]: the pieces of [s] between literal spaces; never empty. *)
Fixpoint split (s : string) : list string :=
  match s with
  | EmptyString => [EmptyString]
  | String c rest =>
      if Ascii.eqb c " " then EmptyString :: split rest
      else match split rest with
           | [] => [String c EmptyString]
           | w :: ws => String c w :: ws
           end
  end.

(** [ws.join(' ')]. *)
Fixpoint join (ws : list string) : string :=
  match ws with
  | [] => EmptyString
  | w :: rest =>
      match rest with
      | [] => w
      | _ :: _ => w ++ " " ++ join rest
      end
  end.

Local Close Scope string_scope.

(** ** The document *)

Inductive SpanClass := WordMagnetic | WordSpace.

(** A span element created by the segmenter.  [hasActive] is membership
    of ['active'] in its class list; [transform] is its inline
    [style.transform]: [None] while unset, [Some t] for
    [translate3d(t.x px, t.y px, 0)]. *)
Record Span := {
  className : SpanClass;
  textContent : string;
  hasActive : bool;
  transform : option Translate
}.

(** A child node of the container: a text node, or one of the spans,
    named by its index in the store of spans. *)
Inductive Node :=
| TextNode (s : string)
| SpanNode (id : nat).

(** The container element.  [inHeroSection] tells whether
    [closest('.hero-section')] finds an ancestor. *)
Record Container := {
  content : list Node;
  magneticEnabled : bool;
  inHeroSection : bool
}.

(** The result of [getBoundingClientRect()], in viewport coordinates. *)
Record DOMRect := {
  rect_left : R;
  rect_top : R;
  rect_width : R;
  rect_height : R
}.

(** ** The host environment *)

Record Env := {
  ontouchstart : bool;             (* 'ontouchstart' in window *)
  maxTouchPoints : option Z;       (* navigator.maxTouchPoints, when defined *)
  innerWidth : Z;                  (* window.innerWidth *)
  prefersReducedMotion : bool;     (* matchMedia('(prefers-reduced-motion: reduce)').matches *)
  scrollX : R;
  scrollY : R;
  layout : nat -> DOMRect          (* getBoundingClientRect of the span with that index *)
}.

(** A callback handed to [requestAnimationFrame]: the closure of
    [handleMouseMove], which captured the event [e]. *)
Inductive FrameCallback :=
| UpdateFrame (clientX clientY : R).

(** A callback handed to [setTimeout]: the closure of [handleResize] or
    the closure of [reset]. *)
Inductive TimerCallback :=
| ResizeSettled
| ClearActive.

Inductive ElementRef := ContainerRef.

(** The fields of a [MagneticHeroText] object.  Handles are positive:
    the host never hands out [0], so a stored handle is truthy. *)
Record Instance := {
  selector : string;
  options : Options;
  element : option ElementRef;
  words : list nat;
  wordRects : list WordRect;
  rafId : option positive;
  isActive : bool;
  resizeTimeout : option positive
}.

(** The page: the environment, the element the selector resolves to (if
    any), the store of spans, the console, the listeners the instance has
    registered, the pending frame callbacks and timers, and the instance. *)
Record World := {
  env : Env;
  container : option Container;
  spans : list Span;
  console : list string;
  onMouseMove : bool;
  onMouseLeave : bool;
  onResize : bool;
  onMotionChange : bool;
  frames : list (positive * FrameCallback);
  timers : list (positive * (R * TimerCallback));
  nextFrame : positive;
  nextTimer : positive;
  self : Instance
}.

Inductive Completion :=
| Normal
| Thrown (error : string).

(** *** Field updates *)

Definition setSelf (i : Instance) (w : World) : World :=
  {| env := env w; container := container w; spans := spans w;
     console := console w; onMouseMove := onMouseMove w;
     onMouseLeave := onMouseLeave w; onResize := onResize w;
     onMotionChange := onMotionChange w; frames := frames w;
     timers := timers w; nextFrame := nextFrame w; nextTimer := nextTimer w;
     self := i |}.

Definition setEnv (e : Env) (w : World) : World :=
  {| env := e; container := container w; spans := spans w;
     console := console w; onMouseMove := onMouseMove w;
     onMouseLeave := onMouseLeave w; onResize := onResize w;
     onMotionChange := onMotionChange w; frames := frames w;
     timers := timers w; nextFrame := nextFrame w; nextTimer := nextTimer w;
     self := self w |}.

Definition setContainer (c : option Container) (w : World) : World :=
  {| env := env w; container := c; spans := spans w;
     console := console w; onMouseMove := onMouseMove w;
     onMouseLeave := onMouseLeave w; onResize := onResize w;
     onMotionChange := onMotionChange w; frames := frames w;
     timers := timers w; nextFrame := nextFrame w; nextTimer := nextTimer w;
     self := self w |}.

Definition setSpans (s : list Span) (w : World) : World :=
  {| env := env w; container := container w; spans := s;
     console := console w; onMouseMove := onMouseMove w;
     onMouseLeave := onMouseLeave w; onResize := onResize w;
     onMotionChange := onMotionChange w; frames := frames w;
     timers := timers w; nextFrame := nextFrame w; nextTimer := nextTimer w;
     self := self w |}.

Definition setConsole (l : list string) (w : World) : World :=
  {| env := env w; container := container w; spans := spans w;
     console := l; onMouseMove := onMouseMove w;
     onMouseLeave := onMouseLeave w; onResize := onResize w;
     onMotionChange := onMotionChange w; frames := frames w;
     timers := timers w; nextFrame := nextFrame w; nextTimer := nextTimer w;
     self := self w |}.

Definition setListeners (move leave resize motion : bool) (w : World) : World :=
  {| env := env w; container := container w; spans := spans w;
     console := console w; onMouseMove := move;
     onMouseLeave := leave; onResize := resize;
     onMotionChange := motion; frames := frames w;
     timers := timers w; nextFrame := nextFrame w; nextTimer := nextTimer w;
     self := self w |}.

Definition setFrames (f : list (positive * FrameCallback)) (n : positive)
    (w : World) : World :=
  {| env := env w; container := container w; spans := spans w;
     console := console w; onMouseMove := onMouseMove w;
     onMouseLeave := onMouseLeave w; onResize := onResize w;
     onMotionChange := onMotionChange w; frames := f;
     timers := timers w; nextFrame := n; nextTimer := nextTimer w;
     self := self w |}.

Definition setTimers (t : list (positive * (R * TimerCallback))) (n : positive)
    (w : World) : World :=
  {| env := env w; container := container w; spans := spans w;
     console := console w; onMouseMove := onMouseMove w;
     onMouseLeave := onMouseLeave w; onResize := onResize w;
     onMotionChange := onMotionChange w; frames := frames w;
     timers := t; nextFrame := nextFrame w; nextTimer := n;
     self := self w |}.

Definition setElement (e : option ElementRef) (i : Instance) : Instance :=
  {| selector := selector i; options := options i; element := e;
     words := words i; wordRects := wordRects i; rafId := rafId i;
     isActive := isActive i; resizeTimeout := resizeTimeout i |}.

Definition setWords (ws : list nat) (i : Instance) : Instance :=
  {| selector := selector i; options := options i; element := element i;
     words := ws; wordRects := wordRects i; rafId := rafId i;
     isActive := isActive i; resizeTimeout := resizeTimeout i |}.

Definition setWordRects (rs : list WordRect) (i : Instance) : Instance :=
  {| selector := selector i; options := options i; element := element i;
     words := words i; wordRects := rs; rafId := rafId i;
     isActive := isActive i; resizeTimeout := resizeTimeout i |}.

Definition setRafId (h : option positive) (i : Instance) : Instance :=
  {| selector := selector i; options := options i; element := element i;
     words := words i; wordRects := wordRects i; rafId := h;
     isActive := isActive i; resizeTimeout := resizeTimeout i |}.

Definition setIsActive (b : bool) (i : Instance) : Instance :=
  {| selector := selector i; options := options i; element := element i;
     words := words i; wordRects := wordRects i; rafId := rafId i;
     isActive := b; resizeTimeout := resizeTimeout i |}.

Definition setResizeTimeout (h : option positive) (i : Instance) : Instance :=
  {| selector := selector i; options := options i; element := element i;
     words := words i; wordRects := wordRects i; rafId := rafId i;
     isActive := isActive i; resizeTimeout := h |}.

Definition onSelf (f : Instance -> Instance) (w : World) : World :=
  setSelf (f (self w)) w.

(** ** Host primitives *)

Fixpoint updateAt {A : Type} (n : nat) (f : A -> A) (l : list A) : list A :=
  match l with
  | [] => []
  | x :: rest =>
      match n with
      | O => f x :: rest
      | S m => x :: updateAt m f rest
      end
  end.

Definition removeHandle {A : Type} (h : positive) (l : list (positive * A))
    : list (positive * A) :=
  filter (fun e => negb (Pos.eqb (fst e) h)) l.

Definition requestAnimationFrame (cb : FrameCallback) (w : World)
    : positive * World :=
  let h := nextFrame w in
  (h, setFrames (frames w ++ [(h, cb)]) (Pos.succ h) w).

Definition cancelAnimationFrame (h : positive) (w : World) : World :=
  setFrames (removeHandle h (frames w)) (nextFrame w) w.

Definition setTimeout (cb : TimerCallback) (delay : R) (w : World)
    : positive * World :=
  let h := nextTimer w in
  (h, setTimers (timers w ++ [(h, (delay, cb))]) (Pos.succ h) w).

(** [clearTimeout(null)] does nothing. *)
Definition clearTimeout (h : option positive) (w : World) : World :=
  match h with
  | Some h' => setTimers (removeHandle h' (timers w)) (nextTimer w) w
  | None => w
  end.

(** [document.createElement('span')] followed by the assignments of its
    class name and text. *)
Definition createSpan (c : SpanClass) (text : string) (w : World)
    : nat * World :=
  (List.length (spans w),
   setSpans (spans w ++ [{| className := c; textContent := text;
                            hasActive := false; transform := None |}]) w).

Definition onContainer (f : Container -> Container) (w : World) : World :=
  setContainer (option_map f (container w)) w.

Definition appendChild (id : nat) (w : World) : World :=
  onContainer (fun c => {| content := content c ++ [SpanNode id];
                           magneticEnabled := magneticEnabled c;
                           inHeroSection := inHeroSection c |}) w.

Definition spanText (w : World) (id : nat) : string :=
  match nth_error (spans w) id with
  | Some s => textContent s
  | None => EmptyString
  end.

Definition nodeText (w : World) (n : Node) : string :=
  match n with
  | TextNode s => s
  | SpanNode id => spanText w id
  end.

(** The getter [element.textContent]: the texts of the children, in order. *)
Definition getTextContent (w : World) : string :=
  match container w with
  | Some c => String.concat EmptyString (map (nodeText w) (content c))
  | None => EmptyString
  end.

(** The setter [element.textContent = s]: every child is removed, and a
    text node is added unless [s] is empty. *)
Definition setTextContent (s : string) (w : World) : World :=
  onContainer (fun c => {| content := match s with
                                      | EmptyString => []
                                      | _ => [TextNode s]
                                      end;
                           magneticEnabled := magneticEnabled c;
                           inHeroSection := inHeroSection c |}) w.

Definition setMagneticEnabled (b : bool) (w : World) : World :=
  onContainer (fun c => {| content := content c;
                           magneticEnabled := b;
                           inHeroSection := inHeroSection c |}) w.

Definition onSpan (id : nat) (f : Span -> Span) (w : World) : World :=
  setSpans (updateAt id f (spans w)) w.

Definition setActiveClass (b : bool) (s : Span) : Span :=
  {| className := className s; textContent := textContent s;
     hasActive := b; transform := transform s |}.

Definition setTransform (t : Translate) (s : Span) : Span :=
  {| className := className s; textContent := textContent s;
     hasActive := hasActive s; transform := Some t |}.

(** ** The methods of [MagneticHeroText] *)

Definition touchCapable (e : Env) : bool :=
  ontouchstart e ||
  match maxTouchPoints e with
  | Some n => (0 <? n)%Z
  | None => false
  end.

Definition shouldInitialize (e : Env) : bool :=
  if touchCapable e then false
  else if (innerWidth e <=? 1024)%Z then false
  else if prefersReducedMotion e then false
  else true.

(** The body of [words.forEach((word, index) => ...)] in
    [splitTextIntoWords]; [len] is [words.length]. *)
Fixpoint forEachWord (ws : list string) (index len : nat) (w : World) : World :=
  match ws with
  | [] => w
  | word :: rest =>
      let (wordSpan, w1) := createSpan WordMagnetic word w in
      let w2 := appendChild wordSpan w1 in
      let w3 := onSelf (fun i => setWords (words i ++ [wordSpan]) i) w2 in
      let w4 :=
        if (index <? len - 1)%nat then
          let (spaceSpan, w') := createSpan WordSpace " "%string w3 in
          appendChild spaceSpan w'
        else w3 in
      forEachWord rest (S index) len w4
  end.

Definition splitTextIntoWords (w : World) : World :=
  let originalText := getTextContent w in
  let ws := split originalText in
  let w1 := setTextContent EmptyString w in
  let w2 := setMagneticEnabled true w1 in
  forEachWord ws 0 (List.length ws) w2.

Definition cacheBoundingRects (w : World) : World :=
  onSelf (setWordRects
    (map (fun word =>
            let rect := layout (env w) word in
            {| left := rect_left rect + scrollX (env w);
               top := rect_top rect + scrollY (env w);
               width := rect_width rect;
               height := rect_height rect;
               centerX := rect_left rect + scrollX (env w) + rect_width rect / 2;
               centerY := rect_top rect + scrollY (env w) + rect_height rect / 2 |})
         (words (self w)))) w.

Definition heroSection (w : World) : bool :=
  match element (self w), container w with
  | Some _, Some c => inHeroSection c
  | _, _ => false
  end.

Definition setupEventListeners (w : World) : World :=
  let w1 :=
    if heroSection w
    then setListeners true true (onResize w) (onMotionChange w) w
    else w in
  setListeners (onMouseMove w1) (onMouseLeave w1) true (onMotionChange w1) w1.

Definition setupReducedMotionListener (w : World) : World :=
  setListeners (onMouseMove w) (onMouseLeave w) (onResize w) true w.

Definition animateWord (word : nat) (x y : R) (w : World) : World :=
  onSpan word (setTransform {| translateX := x; translateY := y |}) w.

(** The [forEach] of [updateWordPositions].  Destructuring
    [wordRects[index]] when that is [undefined] throws, which ends the
    iteration with the words before it already moved. *)
Fixpoint forEachPosition (ws : list nat) (index : nat) (mouseX mouseY : R)
    (w : World) : World * Completion :=
  match ws with
  | [] => (w, Normal)
  | word :: rest =>
      match nth_error (wordRects (self w)) index with
      | None => (w, Thrown "TypeError")
      | Some rect =>
          let t := calculateMagneticForce (options (self w)) rect mouseX mouseY in
          forEachPosition rest (S index) mouseX mouseY
            (animateWord word (translateX t) (translateY t) w)
      end
  end.

Definition updateWordPositions (mouseX mouseY : R) (w : World)
    : World * Completion :=
  forEachPosition (words (self w)) 0 mouseX mouseY w.

Definition forEachSpan (f : Span -> Span) (ws : list nat) (w : World) : World :=
  fold_left (fun acc word => onSpan word f acc) ws w.

Definition handleMouseMove (clientX clientY : R) (w : World) : World :=
  match rafId (self w) with
  | Some _ => w
  | None =>
      let (h, w1) := requestAnimationFrame (UpdateFrame clientX clientY) w in
      let w2 := onSelf (setRafId (Some h)) w1 in
      if isActive (self w2) then w2
      else
        let w3 := onSelf (setIsActive true) w2 in
        forEachSpan (setActiveClass true) (words (self w3)) w3
  end.

(** The arrow function that [handleMouseMove] hands to
    [requestAnimationFrame]; the scroll offsets are read when it runs. *)
Definition runFrameCallback (cb : FrameCallback) (w : World)
    : World * Completion :=
  match cb with
  | UpdateFrame clientX clientY =>
      match updateWordPositions (clientX + scrollX (env w))
                                (clientY + scrollY (env w)) w with
      | (w1, Normal) => (onSelf (setRafId None) w1, Normal)
      | (w1, Thrown e) => (w1, Thrown e)
      end
  end.

Definition reset (w : World) : World :=
  let w1 := forEachSpan (setTransform {| translateX := 0; translateY := 0 |})
                        (words (self w)) w in
  if isActive (self w1)
  then snd (setTimeout ClearActive (resetDuration (options (self w1))) w1)
  else w1.

Definition handleMouseLeave (w : World) : World :=
  let w1 :=
    match rafId (self w) with
    | Some h => onSelf (setRafId None) (cancelAnimationFrame h w)
    | None => w
    end in
  reset w1.

Definition destroy (w : World) : World :=
  let w1 :=
    match rafId (self w) with
    | Some h => onSelf (setRafId None) (cancelAnimationFrame h w)
    | None => w
    end in
  let w2 :=
    if heroSection w1
    then setListeners false false (onResize w1) (onMotionChange w1) w1
    else w1 in
  let w3 := setListeners (onMouseMove w2) (onMouseLeave w2) false
                         (onMotionChange w2) w2 in
  let w4 :=
    match element (self w3) with
    | Some _ =>
        let originalText := join (map (spanText w3) (words (self w3))) in
        setMagneticEnabled false (setTextContent originalText w3)
    | None => w3
    end in
  onSelf (fun i => setIsActive false (setWordRects [] (setWords [] i))) w4.

Definition handleResize (w : World) : World :=
  let w1 := clearTimeout (resizeTimeout (self w)) w in
  let (h, w2) := setTimeout ResizeSettled 150 w1 in
  onSelf (setResizeTimeout (Some h)) w2.

(** The arrow functions handed to [setTimeout]. *)
Definition runTimerCallback (cb : TimerCallback) (w : World) : World :=
  match cb with
  | ResizeSettled =>
      if negb (shouldInitialize (env w)) then destroy w
      else cacheBoundingRects w
  | ClearActive =>
      let w1 := forEachSpan (setActiveClass false) (words (self w)) w in
      onSelf (setIsActive false) w1
  end.

Definition quote : string := String (Ascii.ascii_of_nat 34) EmptyString.

Definition warning (sel : string) : string :=
  ("MagneticHeroText: Element not found for selector " ++ quote ++ sel
   ++ quote)%string.

Definition init (w : World) : World * Completion :=
  if negb (shouldInitialize (env w)) then (w, Normal)
  else
    match container w with
    | None =>
        (setConsole (console w ++ [warning (selector (self w))]) w, Normal)
    | Some _ =>
        let w1 := onSelf (setElement (Some ContainerRef)) w in
        let w2 := splitTextIntoWords w1 in
        let w3 := cacheBoundingRects w2 in
        let w4 := setupEventListeners w3 in
        let w5 := setupReducedMotionListener w4 in
        (w5, Normal)
    end.

(** The state the constructor sets up before it calls [init]. *)
Definition newInstance (sel : string) (opts : OptionsArg) : Instance :=
  {| selector := sel; options := mkOptions opts; element := None;
     words := []; wordRects := []; rafId := None; isActive := false;
     resizeTimeout := None |}.

(** A page on which nothing is registered or pending yet. *)
Definition page (e : Env) (c : option Container) (i : Instance) : World :=
  {| env := e; container := c; spans := []; console := [];
     onMouseMove := false; onMouseLeave := false; onResize := false;
     onMotionChange := false; frames := []; timers := [];
     nextFrame := 1%positive; nextTimer := 1%positive; self := i |}.

(** [new MagneticHeroText(selector, options)] on the page where
    [selector] resolves to [c]. *)
Definition construct (sel : string) (opts : OptionsArg) (e : Env)
    (c : option Container) : World * Completion :=
  init (page e c (newInstance sel opts)).

(** ** The event loop *)

(** What the host can do to the page.  An event reaches the instance only
    through a listener it registered; a frame boundary runs the pending
    frame callbacks; a timer that elapses runs its callback. *)
Inductive Event :=
| MouseMove (clientX clientY : R)
| MouseLeave
| Resize (newWidth : Z) (newLayout : nat -> DOMRect)
| Scroll (x y : R)
| MotionChange (matches : bool)
| Frame
| TimerFire (h : positive).

Definition resizeEnv (newWidth : Z) (newLayout : nat -> DOMRect) (e : Env) : Env :=
  {| ontouchstart := ontouchstart e; maxTouchPoints := maxTouchPoints e;
     innerWidth := newWidth; prefersReducedMotion := prefersReducedMotion e;
     scrollX := scrollX e; scrollY := scrollY e; layout := newLayout |}.

Definition scrollEnv (x y : R) (e : Env) : Env :=
  {| ontouchstart := ontouchstart e; maxTouchPoints := maxTouchPoints e;
     innerWidth := innerWidth e; prefersReducedMotion := prefersReducedMotion e;
     scrollX := x; scrollY := y; layout := layout e |}.

Definition motionEnv (matches : bool) (e : Env) : Env :=
  {| ontouchstart := ontouchstart e; maxTouchPoints := maxTouchPoints e;
     innerWidth := innerWidth e; prefersReducedMotion := matches;
     scrollX := scrollX e; scrollY := scrollY e; layout := layout e |}.

(** A callback that throws is reported by the host; the callbacks after
    it still run. *)
Definition runFrames (cbs : list (positive * FrameCallback)) (w : World) : World :=
  fold_left (fun acc cb => fst (runFrameCallback (snd cb) acc)) cbs w.

Definition findHandle {A : Type} (h : positive) (l : list (positive * A))
    : option A :=
  option_map snd (find (fun e => Pos.eqb (fst e) h) l).

Definition step (ev : Event) (w : World) : World :=
  match ev with
  | MouseMove clientX clientY =>
      if onMouseMove w then handleMouseMove clientX clientY w else w
  | MouseLeave =>
      if onMouseLeave w then handleMouseLeave w else w
  | Resize newWidth newLayout =>
      let w1 := setEnv (resizeEnv newWidth newLayout (env w)) w in
      if onResize w1 then handleResize w1 else w1
  | Scroll x y => setEnv (scrollEnv x y (env w)) w
  | MotionChange matches =>
      let w1 := setEnv (motionEnv matches (env w)) w in
      if onMotionChange w1 then (if matches then destroy w1 else w1) else w1
  | Frame =>
      runFrames (frames w) (setFrames [] (nextFrame w) w)
  | TimerFire h =>
      match findHandle h (timers w) with
      | Some (_, cb) =>
          runTimerCallback cb
            (setTimers (removeHandle h (timers w)) (nextTimer w) w)
      | None => w
      end
  end.

Definition run (evs : list Event) (w : World) : World :=
  fold_left (fun acc ev => step ev acc) evs w.

(** ** Observations *)

(** The inline transforms of the words, in word order. *)
Definition wordTransforms (w : World) : list (option Translate) :=
  map (fun word => match nth_error (spans w) word with
                   | Some s => transform s
                   | None => None
                   end) (words (self w)).

(** What the user can see of the document: the container and its spans. *)
Definition dom (w : World) : option Container * list Span :=
  (container w, spans w).

(** The instance before [init] has done anything: no element, no words,
    no geometry, nothing registered and nothing pending. *)
Definition Uninitialized (w : World) : Prop :=
  element (self w) = None /\ words (self w) = [] /\
  wordRects (self w) = [] /\ rafId (self w) = None /\
  isActive (self w) = false /\ resizeTimeout (self w) = None /\
  onMouseMove w = false /\ onMouseLeave w = false /\
  onResize w = false /\ onMotionChange w = false /\
  frames w = [] /\ timers w = [].

(** ** Sample pages *)

Definition desktop : Env :=
  {| ontouchstart := false; maxTouchPoints := Some 0%Z; innerWidth := 1440%Z;
     prefersReducedMotion := false; scrollX := 0; scrollY := 0;
     layout := fun _ => {| rect_left := -10; rect_top := -10;
                           rect_width := 20; rect_height := 20 |} |}.

Definition tablet : Env :=
  {| ontouchstart := true; maxTouchPoints := Some 5%Z; innerWidth := 1440%Z;
     prefersReducedMotion := false; scrollX := 0; scrollY := 0;
     layout := layout desktop |}.

Definition heroTitle (text : string) : Container :=
  {| content := [TextNode text]; magneticEnabled := false;
     inHeroSection := true |}.

Definition helloPage : World :=
  fst (construct ".hero-title" noOptions desktop
                 (Some (heroTitle "Hello World Foo"))).

Definition oneWordPage : World :=
  fst (construct ".hero-title" noOptions desktop (Some (heroTitle "Hello"))).

Definition originRect : WordRect :=
  {| left := -10; top := -10; width := 20; height := 20;
     centerX := 0; centerY := 0 |}.

Definition defaults : Options := mkOptions noOptions.

Definition repelling : OptionsArg :=
  {| arg_maxDistance := None; arg_maxDisplacement := Some (-25);
     arg_springEasing := None; arg_activeDuration := None;
     arg_resetDuration := None |}.

Definition emptyField : OptionsArg :=
  {| arg_maxDistance := Some 0; arg_maxDisplacement := None;
     arg_springEasing := None; arg_activeDuration := None;
     arg_resetDuration := None |}.

(** ** Invariants of the lifecycle *)

(** A batch of span updates, applied in order. *)
Definition updateMany (ups : list (nat * (Span -> Span))) (sp : list Span)
    : list Span :=
  fold_left (fun acc p => updateAt (fst p) (snd p) acc) ups sp.

Definition keepsText (f : Span -> Span) : Prop :=
  forall s, textContent (f s) = textContent s.

(** [pendingFrame]: at most one frame callback is outstanding, and it is
    the one whose handle [rafId] holds. *)
Definition pendingFrame (w : World) : Prop :=
  match rafId (self w) with
  | Some h => exists cb, frames w = [(h, cb)]
  | None => frames w = []
  end.

(** What every state reached from the constructor satisfies: the words
    are distinct spans of the store, [wordRects] runs parallel to [words],
    at most one frame is pending, and as long as the words are held their
    texts are the pieces of the original text [t]. *)
Definition Inv (t : string) (w : World) : Prop :=
  NoDup (words (self w)) /\
  Forall (fun word => (word < List.length (spans w))%nat) (words (self w)) /\
  List.length (wordRects (self w)) = List.length (words (self w)) /\
  pendingFrame w /\
  (words (self w) <> [] ->
   element (self w) = Some ContainerRef /\
   container w <> None /\
   map (spanText w) (words (self w)) = split t).

(** Two worlds that hold the same words with the same texts in the same
    container. *)
Definition sameText (w w' : World) : Prop :=
  words (self w') = words (self w) /\
  element (self w') = element (self w) /\
  container w' = container w /\
  List.length (spans w') = List.length (spans w) /\
  (forall id, spanText w' id = spanText w id).

(** The transforms that one run of [updateWordPositions] assigns. *)
Definition forcesAt (o : Options) (mouseX mouseY : R) (rs : list WordRect)
    : list Translate :=
  map (fun rect => calculateMagneticForce o rect mouseX mouseY) rs.

(** A burst of pointer moves, one event per position. *)
Definition moves (ps : list (R * R)) : list Event :=
  map (fun p => MouseMove (fst p) (snd p)) ps.

(** ** Further invariants of the lifecycle *)

(** A step that keeps the words, their texts, the container and the
    registered listeners. *)
Definition Quiet (w w' : World) : Prop :=
  sameText w w' /\
  onMouseMove w' = onMouseMove w /\
  onMouseLeave w' = onMouseLeave w /\
  onResize w' = onResize w /\
  onMotionChange w' = onMotionChange w.

(** The pointer listeners are only ever registered on a hero section,
    and an instance that holds its element listens for motion changes. *)
Definition ListenerInv (w : World) : Prop :=
  (onMouseMove w = true -> heroSection w = true) /\
  (onMouseLeave w = true -> heroSection w = true) /\
  (element (self w) <> None -> onMotionChange w = true).

Definition isResizeSettled (e : positive * (R * TimerCallback)) : bool :=
  match snd (snd e) with
  | ResizeSettled => true
  | ClearActive => false
  end.

(** The timer queue: handles are below [nextTimer] and pairwise distinct,
    and a pending resize timer is the one [resizeTimeout] names. *)
Definition TimerInv (w : World) : Prop :=
  Forall (fun e => (fst e < nextTimer w)%positive) (timers w) /\
  NoDup (map fst (timers w)) /\
  (forall e, In e (timers w) -> isResizeSettled e = true ->
             resizeTimeout (self w) = Some (fst e)).

(** The entry of [wordRects] that [cacheBoundingRects] computes for a
    span, from the layout and the scroll offsets of the environment. *)
Definition documentRect (e : Env) (word : nat) : WordRect :=
  let rect := layout e word in
  {| left := rect_left rect + scrollX e;
     top := rect_top rect + scrollY e;
     width := rect_width rect;
     height := rect_height rect;
     centerX := rect_left rect + scrollX e + rect_width rect / 2;
     centerY := rect_top rect + scrollY e + rect_height rect / 2 |}.

(** The child nodes of the container, none when there is no container. *)
Definition contentOf (w : World) : list Node :=
  match container w with
  | Some c => content c
  | None => []
  end.

Fixpoint countSpaces (s : string) : nat :=
  match s with
  | EmptyString => 0
  | String c rest =>
      if Ascii.eqb c " " then S (countSpaces rest) else countSpaces rest
  end.

Fixpoint hasSpace (s : string) : bool :=
  match s with
  | EmptyString => false
  | String c rest => Ascii.eqb c " " || hasSpace rest
  end.

Definition keepsActive (f : Span -> Span) : Prop :=
  forall s, hasActive (f s) = hasActive s.

(** The class ['active'] is on every word exactly while [isActive] is
    set. *)
Definition ActiveInv (w : World) : Prop :=
  Forall (fun word => option_map hasActive (nth_error (spans w) word)
                      = Some (isActive (self w)))
         (words (self w)).

(** * The widgets of main.js *)

(** ** Strings of UTF-16 code units *)

(** The values that the form and the cycling label work on are kept as
    sequences of code units, so that the whitespace class of [trim] and
    of [\s] can be written out in full. *)
Definition JSString := list N.

Definition ofString (s : string) : JSString :=
  map N_of_ascii (list_ascii_of_string s).

(** The code units that [trim] strips and [\s] matches: the white space
    and line terminator code points of the language. *)
Definition isSpace (c : N) : bool :=
  existsb (N.eqb c)
    [9; 10; 11; 12; 13; 32; 160; 5760; 8232; 8233; 8239; 8287; 12288; 65279]%N
  || ((8192 <=? c)%N && (c <=? 8202)%N).

Fixpoint trimStart (s : JSString) : JSString :=
  match s with
  | [] => []
  | c :: rest => if isSpace c then trimStart rest else s
  end.

Definition trimEnd (s : JSString) : JSString := rev (trimStart (rev s)).

(** [s.trim()]. *)
Definition trim (s : JSString) : JSString := trimEnd (trimStart s).

(** [s.split(sep)] for a separator of one code unit; never empty. *)
Fixpoint splitOn (sep : N) (s : JSString) : list JSString :=
  match s with
  | [] => [[]]
  | c :: rest =>
      if (c =? sep)%N then [] :: splitOn sep rest
      else match splitOn sep rest with
           | [] => [[c]]
           | w :: ws => (c :: w) :: ws
           end
  end.

(** ** Regular expressions *)

(** The fragment of the pattern language that [isValidEmail] uses:
    character classes, sequence, alternation and repetition.  A pattern
    anchored by [^] and [$] is tested against the whole input, here by
    derivatives. *)
Module Regex.

Inductive t :=
| Never
| Empty
| Class (p : N -> bool)
| Seq (r1 r2 : t)
| Alt (r1 r2 : t)
| Star (r : t).

(** [r+]. *)
Definition Plus (r : t) : t := Seq r (Star r).

Fixpoint nullable (r : t) : bool :=
  match r with
  | Never => false
  | Empty => true
  | Class _ => false
  | Seq r1 r2 => nullable r1 && nullable r2
  | Alt r1 r2 => nullable r1 || nullable r2
  | Star _ => true
  end.

Fixpoint deriv (c : N) (r : t) : t :=
  match r with
  | Never => Never
  | Empty => Never
  | Class p => if p c then Empty else Never
  | Seq r1 r2 =>
      if nullable r1 then Alt (Seq (deriv c r1) r2) (deriv c r2)
      else Seq (deriv c r1) r2
  | Alt r1 r2 => Alt (deriv c r1) (deriv c r2)
  | Star r1 => Seq (deriv c r1) (Star r1)
  end.

(** [/^r$/.test(s)]. *)
Definition test (r : t) (s : JSString) : bool :=
  nullable (fold_left (fun acc c => deriv c acc) s r).

(** The inputs that a pattern matches as a whole. *)
Inductive Matches : t -> JSString -> Prop :=
| MEmpty : Matches Empty []
| MClass (p : N -> bool) (c : N) : p c = true -> Matches (Class p) [c]
| MSeq (r1 r2 : t) (s1 s2 : JSString) :
    Matches r1 s1 -> Matches r2 s2 -> Matches (Seq r1 r2) (s1 ++ s2)
| MAltL (r1 r2 : t) (s : JSString) : Matches r1 s -> Matches (Alt r1 r2) s
| MAltR (r1 r2 : t) (s : JSString) : Matches r2 s -> Matches (Alt r1 r2) s
| MStarNil (r : t) : Matches (Star r) []
| MStarCons (r : t) (s1 s2 : JSString) :
    Matches r s1 -> Matches (Star r) s2 -> Matches (Star r) (s1 ++ s2).

End Regex.

(** ** ContactForm *)

Module ContactForm.

Inductive FieldType := Email | Other.

(** A control of the form.  [hasError] is membership of ['error'] in its
    class list. *)
Record Field := {
  fieldId : string;
  fieldType : FieldType;
  required : bool;
  value : JSString;
  defaultValue : JSString;
  hasError : bool
}.

Record Button := {
  disabled : bool;
  label : string
}.

Record Status := {
  statusText : string;
  statusClass : string;
  display : string
}.

(** The part of the document that the form touches: its controls in
    document order, the elements that [getElementById] can find with
    their text, the submit button and the status element when they
    exist, and the bodies of the requests issued so far. *)
Record Page := {
  fields : list Field;
  elements : list (string * string);
  submitBtn : option Button;
  formStatus : option Status;
  requests : list (list JSString)
}.

Definition setFields (fs : list Field) (p : Page) : Page :=
  {| fields := fs; elements := elements p; submitBtn := submitBtn p;
     formStatus := formStatus p; requests := requests p |}.

Definition setElements (es : list (string * string)) (p : Page) : Page :=
  {| fields := fields p; elements := es; submitBtn := submitBtn p;
     formStatus := formStatus p; requests := requests p |}.

Definition setSubmitBtn (b : option Button) (p : Page) : Page :=
  {| fields := fields p; elements := elements p; submitBtn := b;
     formStatus := formStatus p; requests := requests p |}.

Definition setFormStatus (s : option Status) (p : Page) : Page :=
  {| fields := fields p; elements := elements p; submitBtn := submitBtn p;
     formStatus := s; requests := requests p |}.

Definition setRequests (r : list (list JSString)) (p : Page) : Page :=
  {| fields := fields p; elements := elements p; submitBtn := submitBtn p;
     formStatus := formStatus p; requests := r |}.

Definition setHasError (b : bool) (f : Field) : Field :=
  {| fieldId := fieldId f; fieldType := fieldType f; required := required f;
     value := value f; defaultValue := defaultValue f; hasError := b |}.

Definition resetField (f : Field) : Field :=
  {| fieldId := fieldId f; fieldType := fieldType f; required := required f;
     value := defaultValue f; defaultValue := defaultValue f;
     hasError := hasError f |}.

(** [document.getElementById(id)]: the first element with that id. *)
Fixpoint getElementById (id : string) (es : list (string * string))
    : option string :=
  match es with
  | [] => None
  | (i, text) :: rest =>
      if String.eqb i id then Some text else getElementById id rest
  end.

(** Assigning the text content of the element that [getElementById]
    finds. *)
Fixpoint setElementText (id text : string) (es : list (string * string))
    : list (string * string) :=
  match es with
  | [] => []
  | (i, old) :: rest =>
      if String.eqb i id then (i, text) :: rest
      else (i, old) :: setElementText id text rest
  end.

Definition errorId (f : Field) : string := (fieldId f ++ "-error")%string.

(** The pattern [/^[^\s@]+@[^\s@]+\.[^\s@]+$/]. *)
Definition notSpaceAt (c : N) : bool := negb (isSpace c || (c =? 64)%N).

Definition emailPattern : Regex.t :=
  Regex.Seq (Regex.Plus (Regex.Class notSpaceAt))
    (Regex.Seq (Regex.Class (N.eqb 64))
       (Regex.Seq (Regex.Plus (Regex.Class notSpaceAt))
          (Regex.Seq (Regex.Class (N.eqb 46))
             (Regex.Plus (Regex.Class notSpaceAt))))).

Definition isValidEmail (email : JSString) : bool :=
  Regex.test emailPattern email.

Definition showError (i : nat) (f : Field) (message : string) (p : Page)
    : Page :=
  let p1 := setFields (updateAt i (setHasError true) (fields p)) p in
  match getElementById (errorId f) (elements p1) with
  | Some _ => setElements (setElementText (errorId f) message (elements p1)) p1
  | None => p1
  end.

Definition clearError (i : nat) (f : Field) (p : Page) : Page :=
  let p1 := setFields (updateAt i (setHasError false) (fields p)) p in
  match getElementById (errorId f) (elements p1) with
  | Some _ =>
      setElements (setElementText (errorId f) EmptyString (elements p1)) p1
  | None => p1
  end.

(** [validateField(field)] for the control with index [i]. *)
Definition validateField (i : nat) (f : Field) (p : Page) : bool * Page :=
  let v := trim (value f) in
  match v with
  | [] => (false, showError i f "This field is required" p)
  | _ :: _ =>
      match fieldType f with
      | Email =>
          if negb (isValidEmail v)
          then (false, showError i f "Please enter a valid email address" p)
          else (true, clearError i f p)
      | Other => (true, clearError i f p)
      end
  end.

(** [showStatus(message, type)]; assigning to a property of a missing
    status element throws. *)
Definition showStatus (message type : string) (p : Page) : Page * Completion :=
  match formStatus p with
  | None => (p, Thrown "TypeError")
  | Some _ =>
      (setFormStatus
         (Some {| statusText := message;
                  statusClass := ("form-status " ++ type)%string;
                  display := "block" |}) p,
       Normal)
  end.

(** The [forEach] of [handleSubmit] over the required controls, from
    index [i] on. *)
Fixpoint validateFrom (i : nat) (fs : list Field) (isValid : bool) (p : Page)
    : bool * Page :=
  match fs with
  | [] => (isValid, p)
  | f :: rest =>
      if required f then
        match nth_error (fields p) i with
        | Some current =>
            let (ok, p1) := validateField i current p in
            validateFrom (S i) rest (if ok then isValid else false) p1
        | None => validateFrom (S i) rest isValid p
        end
      else validateFrom (S i) rest isValid p
  end.

Definition validateAll (p : Page) : bool * Page :=
  validateFrom 0 (fields p) true p.

(** How the part of [handleSubmit] before the [await] ends: validation
    failed and the handler returned, the request is in flight, or an
    exception left the handler. *)
Inductive Submission := Invalid | InFlight | Threw.

Definition invalidMessage : string :=
  "Please fill in all required fields correctly.".

Definition successMessage : string :=
  "Thank you! Your message has been sent. I'll get back to you within 24 hours.".

Definition failureMessage : string :=
  "Oops! There was a problem sending your message. Please try emailing me directly at jtkfrancisco@gmail.com".

Definition handleSubmit (p : Page) : Page * Submission :=
  let (isValid, p1) := validateAll p in
  if negb isValid then
    match showStatus invalidMessage "error" p1 with
    | (p2, Normal) => (p2, Invalid)
    | (p2, Thrown _) => (p2, Threw)
    end
  else
    match submitBtn p1 with
    | None => (p1, Threw)
    | Some _ =>
        let p2 := setSubmitBtn
                    (Some {| disabled := true; label := "Sending..." |}) p1 in
        (setRequests (requests p2 ++ [map value (fields p2)]) p2, InFlight)
    end.

(** How the [fetch] ends: a response with [ok], a response without, or a
    rejection. *)
Inductive Response := Ok | NotOk | Rejected.

(** The rest of [handleSubmit], after the [await]: the [try] block, the
    [catch] block when the [try] block threw, and the [finally] block. *)
Definition settle (r : Response) (p : Page) : Page * Completion :=
  let tried :=
    match r with
    | Ok =>
        match showStatus successMessage "success" p with
        | (p1, Normal) => (setFields (map resetField (fields p1)) p1, Normal)
        | (p1, Thrown e) => (p1, Thrown e)
        end
    | NotOk => (p, Thrown "Form submission failed")
    | Rejected => (p, Thrown "TypeError")
    end in
  let caught :=
    match tried with
    | (p1, Normal) => (p1, Normal)
    | (p1, Thrown _) => showStatus failureMessage "error" p1
    end in
  match submitBtn (fst caught) with
  | Some _ =>
      (setSubmitBtn (Some {| disabled := false; label := "Send Message" |})
                    (fst caught),
       snd caught)
  | None => (fst caught, Thrown "TypeError")
  end.

End ContactForm.

(** ** DisciplineCycle *)

Module DisciplineCycle.

(** One [.discipline-cycle] element after [init]: the list parsed from
    its [data-disciplines] attribute, the [currentIndex] of its closure
    ([None] stands for [NaN]), the text it shows ([None] once
    [undefined] was assigned), whether it is faded out, whether the
    one-second timeout has started the interval, and the number of text
    swaps scheduled and not yet run. *)
Record Cycler := {
  disciplines : list JSString;
  currentIndex : option nat;
  shown : option JSString;
  faded : bool;
  started : bool;
  pendingSwaps : nat
}.

(** [disciplinesAttr.split(',').map(d => d.trim())]. *)
Definition parse (disciplinesAttr : JSString) : list JSString :=
  map trim (splitOn 44 disciplinesAttr).

(** The body of the [forEach] of [init] for one element: a missing or
    empty attribute leaves the element alone. *)
Definition init (disciplinesAttr : option JSString) (text : JSString)
    : option Cycler :=
  match disciplinesAttr with
  | None => None
  | Some [] => None
  | Some (c :: rest) =>
      Some {| disciplines := parse (c :: rest); currentIndex := Some 0%nat;
              shown := Some text; faded := false; started := false;
              pendingSwaps := 0 |}
  end.

(** The timers of one element: the one-second timeout that starts the
    interval, a tick of the interval, and the 250 ms timeout that a tick
    scheduled. *)
Inductive Event := Start | Tick | Swap.

(** [(currentIndex + 1) % disciplines.length]; a zero length gives
    [NaN]. *)
Definition advance (index : option nat) (len : nat) : option nat :=
  match index with
  | Some i => if (len =? 0)%nat then None else Some ((i + 1) mod len)%nat
  | None => None
  end.

(** [disciplines[currentIndex]]; [undefined] outside the list. *)
Definition at_index (ds : list JSString) (index : option nat)
    : option JSString :=
  match index with
  | Some i => nth_error ds i
  | None => None
  end.

Definition step (ev : Event) (c : Cycler) : Cycler :=
  match ev with
  | Start =>
      {| disciplines := disciplines c; currentIndex := currentIndex c;
         shown := shown c; faded := faded c; started := true;
         pendingSwaps := pendingSwaps c |}
  | Tick =>
      if started c then
        {| disciplines := disciplines c;
           currentIndex := advance (currentIndex c)
                                   (List.length (disciplines c));
           shown := shown c; faded := true; started := true;
           pendingSwaps := S (pendingSwaps c) |}
      else c
  | Swap =>
      match pendingSwaps c with
      | O => c
      | S n =>
          {| disciplines := disciplines c; currentIndex := currentIndex c;
             shown := at_index (disciplines c) (currentIndex c);
             faded := false; started := started c; pendingSwaps := n |}
      end
  end.

Definition run (evs : list Event) (c : Cycler) : Cycler :=
  fold_left (fun acc ev => step ev acc) evs c.

End DisciplineCycle.

(** ** AnimateOnScroll *)

Module AnimateOnScroll.

(** An entry handed to the observer callback: the index of its target
    among the [data-aos] elements, and whether it intersects. *)
Record Entry := {
  target : nat;
  isIntersecting : bool
}.

(** [init]: the elements are given by their having the class
    [aos-animate]; without [IntersectionObserver] every element gets it
    at once. *)
Definition init (hasObserver : bool) (elements : list bool) : list bool :=
  if hasObserver then elements else map (fun _ => true) elements.

Definition handleIntersection (entries : list Entry) (elements : list bool)
    : list bool :=
  fold_left (fun acc entry =>
               if isIntersecting entry
               then updateAt (target entry) (fun _ => true) acc
               else acc)
            entries elements.

End AnimateOnScroll.

(** ** PageTransition *)

Module PageTransition.

Definition contains (sub s : string) : bool :=
  match String.index 0 sub s with
  | Some _ => true
  | None => false
  end.

(** The selector
    [a[href^="/"]:not([href*="."]), a[href^="."]:not([href="#"])],
    as a test on the [href] attribute of a link. *)
Definition isInternalLink (href : string) : bool :=
  (String.prefix "/" href && negb (contains "." href))
  || (String.prefix "." href && negb (String.eqb href "#")).

Record Body := {
  opacity : string;
  transition : string
}.

(** What a click on a link leaves: whether the default action was
    prevented, the style of the body, and the navigations scheduled with
    their delays. *)
Record Click := {
  defaultPrevented : bool;
  body : Body;
  navigations : list (nat * string)
}.

(** The click listener of a link whose [href] attribute is [href]. *)
Definition onClick (href : string) (b : Body) : Click :=
  if String.prefix "#" href then
    {| defaultPrevented := false; body := b; navigations := [] |}
  else
    {| defaultPrevented := true;
       body := {| opacity := "0"; transition := "opacity 0.3s ease" |};
       navigations := [(300%nat, href)] |}.

End PageTransition.

(** ** Vocabulary for the properties of the widgets *)

(** A part of an address that the email pattern accepts: not empty, with
    no white space and no [@] in it. *)
Definition emailPart (s : JSString) : Prop :=
  s <> [] /\ Forall (fun c => isSpace c = false /\ c <> 64%N) s.

(** Whether a control passes validation: its value has a code unit that
    is not white space and, for an email control, the trimmed value is
    accepted by [isValidEmail]. *)
Definition fieldValid (f : ContactForm.Field) : bool :=
  negb (forallb isSpace (ContactForm.value f))
  && match ContactForm.fieldType f with
     | ContactForm.Email =>
         ContactForm.isValidEmail (trim (ContactForm.value f))
     | ContactForm.Other => true
     end.

(** What validating the whole form does to the error mark of a
    control. *)
Definition marked (f : ContactForm.Field) : ContactForm.Field :=
  if ContactForm.required f
  then ContactForm.setHasError (negb (fieldValid f)) f
  else f.

Definition allRequiredValid (fs : list ContactForm.Field) : bool :=
  forallb (fun f => implb (ContactForm.required f) (fieldValid f)) fs.

(** The control [f] holding the value [v]. *)
Definition withValue (v : JSString) (f : ContactForm.Field)
    : ContactForm.Field :=
  {| ContactForm.fieldId := ContactForm.fieldId f;
     ContactForm.fieldType := ContactForm.fieldType f;
     ContactForm.required := ContactForm.required f;
     ContactForm.value := v;
     ContactForm.defaultValue := ContactForm.defaultValue f;
     ContactForm.hasError := ContactForm.hasError f |}.

(** A sample form: a name and an email control, both required, with
    their error elements, the submit button and the status element. *)
Definition sampleField (id : string) (t : ContactForm.FieldType) (v : string)
    : ContactForm.Field :=
  {| ContactForm.fieldId := id; ContactForm.fieldType := t;
     ContactForm.required := true; ContactForm.value := ofString v;
     ContactForm.defaultValue := []; ContactForm.hasError := false |}.

Definition samplePage (name email : string) : ContactForm.Page :=
  {| ContactForm.fields :=
       [sampleField "name" ContactForm.Other name;
        sampleField "email" ContactForm.Email email];
     ContactForm.elements :=
       [("name-error", EmptyString); ("email-error", EmptyString)]%string;
     ContactForm.submitBtn :=
       Some {| ContactForm.disabled := false;
               ContactForm.label := "Send Message" |};
     ContactForm.formStatus :=
       Some {| ContactForm.statusText := EmptyString;
               ContactForm.statusClass := "form-status";
               ContactForm.display := "none" |};
     ContactForm.requests := [] |}.

(** The ticks of the interval that take effect in a sequence of timer
    events: those after the timeout that starts the interval. *)
Fixpoint ticksFrom (started : bool) (evs : list DisciplineCycle.Event) : nat :=
  match evs with
  | [] => 0
  | DisciplineCycle.Start :: rest => ticksFrom true rest
  | DisciplineCycle.Tick :: rest =>
      ((if started then 1 else 0) + ticksFrom started rest)%nat
  | DisciplineCycle.Swap :: rest => ticksFrom started rest
  end.

(** The state of a label that [init] set up: a list that is not empty,
    an index inside it, and a text that is the original one or an entry
    of the list. *)
Definition cycling (text : JSString) (c : DisciplineCycle.Cycler) : Prop :=
  DisciplineCycle.disciplines c <> [] /\
  (exists i, DisciplineCycle.currentIndex c = Some i /\
             (i < List.length (DisciplineCycle.disciplines c))%nat) /\
  (exists t, DisciplineCycle.shown c = Some t /\
             (t = text \/ In t (DisciplineCycle.disciplines c))).


(** ** HeaderScroll *)

Module HeaderScroll.

(** The header, given by its inline box shadow when the selector finds
    it, the field [lastScroll], and whether [init] registered the scroll
    listener. *)
Record State := {
  header : option string;
  lastScroll : R;
  listening : bool
}.

Definition init (s : State) : State :=
  match header s with
  | None => s
  | Some _ =>
      {| header := header s; lastScroll := lastScroll s; listening := true |}
  end.

Definition construct (header : option string) : State :=
  init {| header := header; lastScroll := 0; listening := false |}.

(** [handleScroll] with [window.pageYOffset] equal to [currentScroll];
    assigning to the style of a missing header throws. *)
Definition handleScroll (currentScroll : R) (s : State) : State * Completion :=
  match header s with
  | None => (s, Thrown "TypeError")
  | Some _ =>
      ({| header := Some (if Rgt_dec currentScroll 10
                          then "0 2px 10px rgba(0, 0, 0, 0.05)"%string
                          else "none"%string);
          lastScroll := currentScroll;
          listening := listening s |},
       Normal)
  end.

(** A scroll event reaches [handleScroll] through the listener only. *)
Definition scroll (s : State * Completion) (pageYOffset : R)
    : State * Completion :=
  if listening (fst s) then handleScroll pageYOffset (fst s) else s.

Definition run (offsets : list R) (s : State) : State * Completion :=
  fold_left scroll offsets (s, Normal).

End HeaderScroll.

(** ** LazyImageLoad *)

Module LazyImageLoad.

(** An image: whether it is complete, its inline opacity and transition,
    and the number of load listeners that [init] put on it. *)
Record Image := {
  complete : bool;
  opacity : string;
  transition : string;
  loadListeners : nat
}.

Definition initImage (img : Image) : Image :=
  if complete img then
    {| complete := true; opacity := "1"; transition := "opacity 0.4s ease";
       loadListeners := loadListeners img |}
  else
    {| complete := false; opacity := "0"; transition := "opacity 0.4s ease";
       loadListeners := S (loadListeners img) |}.

Definition init (images : list Image) : list Image := map initImage images.

(** The load event of the image with index [i]: it is complete from now
    on, and every listener that [init] added makes it opaque. *)
Definition onLoad (img : Image) : Image :=
  {| complete := true;
     opacity := match loadListeners img with
                | O => opacity img
                | S _ => "1"
                end;
     transition := transition img;
     loadListeners := loadListeners img |}.

Definition load (images : list Image) (i : nat) : list Image :=
  updateAt i onLoad images.

Definition run (loads : list nat) (images : list Image) : list Image :=
  fold_left load loads images.

End LazyImageLoad.

(** * Properties *)

(** ** Strings: splitting and joining *)

Lemma split_nonempty (s : string) : split s <> [].
Proof.
  induction s as [| c rest IH]; simpl; [discriminate |].
  destruct (Ascii.eqb c " "); [discriminate |].
  destruct (split rest); discriminate.
Qed.

Lemma join_cons (w : string) (ws : list string) :
  ws <> [] -> join (w :: ws) = (w ++ " " ++ join ws)%string.
Proof. destruct ws; [contradiction | reflexivity]. Qed.

(** Splitting on spaces and joining with spaces gives the text back. *)
Lemma join_split (s : string) : join (split s) = s.
Proof.
  induction s as [| c rest IH]; [reflexivity |].
  simpl split. destruct (Ascii.eqb_spec c " ") as [Hc | Hc].
  - rewrite join_cons by apply split_nonempty.
    rewrite IH. subst c. reflexivity.
  - pose proof (split_nonempty rest) as Hne.
    destruct (split rest) as [| w ws] eqn:E; [contradiction |].
    destruct ws as [| w' ws'].
    + simpl in *. now rewrite IH.
    + rewrite join_cons by discriminate.
      rewrite join_cons in IH by discriminate.
      rewrite <- IH. reflexivity.
Qed.

(** ** Updating spans by index *)

Section SpanStore.

Lemma updateAt_length {A : Type} (n : nat) (f : A -> A) (l : list A) :
  List.length (updateAt n f l) = List.length l.
Proof.
  revert n; induction l as [| x rest IH]; intros [| m]; simpl; auto.
Qed.

Lemma updateAt_same {A : Type} (n : nat) (f : A -> A) (l : list A) :
  nth_error (updateAt n f l) n = option_map f (nth_error l n).
Proof.
  revert n; induction l as [| x rest IH]; intros [| m]; simpl; auto.
Qed.

Lemma updateAt_other {A : Type} (n m : nat) (f : A -> A) (l : list A) :
  n <> m -> nth_error (updateAt n f l) m = nth_error l m.
Proof.
  revert n m; induction l as [| x rest IH]; intros [| n] [| m] H;
    simpl; auto; try contradiction.
Qed.

Lemma updateAt_text (n id : nat) (f : Span -> Span) (l : list Span) :
  keepsText f ->
  option_map textContent (nth_error (updateAt n f l) id) =
  option_map textContent (nth_error l id).
Proof.
  intros Hf. destruct (Nat.eq_dec n id) as [-> | Hne].
  - rewrite updateAt_same. destruct (nth_error l id); simpl; [| reflexivity].
    now rewrite Hf.
  - now rewrite updateAt_other.
Qed.

Lemma updateMany_length (ups : list (nat * (Span -> Span))) (sp : list Span) :
  List.length (updateMany ups sp) = List.length sp.
Proof.
  revert sp; induction ups as [| p rest IH]; intros sp; simpl; [reflexivity |].
  unfold updateMany in *; simpl. rewrite IH. apply updateAt_length.
Qed.

Lemma updateMany_other (ups : list (nat * (Span -> Span))) (sp : list Span)
    (id : nat) :
  ~ In id (map fst ups) ->
  nth_error (updateMany ups sp) id = nth_error sp id.
Proof.
  revert sp; induction ups as [| p rest IH]; intros sp Hin; [reflexivity |].
  unfold updateMany in *; simpl in *. rewrite IH by tauto.
  apply updateAt_other. tauto.
Qed.

Lemma updateMany_text (ups : list (nat * (Span -> Span))) (sp : list Span)
    (id : nat) :
  Forall (fun p => keepsText (snd p)) ups ->
  option_map textContent (nth_error (updateMany ups sp) id) =
  option_map textContent (nth_error sp id).
Proof.
  revert sp; induction ups as [| p rest IH]; intros sp Hall; [reflexivity |].
  inversion Hall; subst.
  unfold updateMany in *; simpl. rewrite IH by assumption.
  now apply updateAt_text.
Qed.

(** After the transforms [ts] were assigned to the distinct spans [ws],
    each of them carries its own. *)
Lemma updateMany_transforms (ws : list nat) (ts : list Translate) :
  forall sp : list Span,
  NoDup ws -> List.length ts = List.length ws ->
  Forall (fun word => (word < List.length sp)%nat) ws ->
  map (fun word => match nth_error
                           (updateMany (combine ws (map setTransform ts)) sp)
                           word with
                   | Some s => transform s
                   | None => None
                   end) ws
  = map Some ts.
Proof.
  revert ts; induction ws as [| word rest IH]; intros ts sp Hnd Hlen Hrange.
  - destruct ts; [reflexivity | discriminate].
  - destruct ts as [| t ts']; [discriminate |].
    inversion Hnd as [| ? ? Hnotin Hnd']; subst.
    inversion Hrange as [| ? ? Hword Hrange']; subst.
    simpl in Hlen. injection Hlen as Hlen.
    simpl map. f_equal.
    + change (updateMany (combine (word :: rest) (setTransform t :: map setTransform ts')) sp)
        with (updateMany (combine rest (map setTransform ts'))
                         (updateAt word (setTransform t) sp)).
      rewrite updateMany_other.
      * rewrite updateAt_same.
        destruct (nth_error sp word) eqn:E; [reflexivity |].
        apply nth_error_None in E. lia.
      * intros Hin. apply Hnotin.
        apply in_map_iff in Hin. destruct Hin as [[a b] [Ha Hb]].
        simpl in Ha. subst a. now apply in_combine_l in Hb.
    + change (updateMany (combine (word :: rest) (setTransform t :: map setTransform ts')) sp)
        with (updateMany (combine rest (map setTransform ts'))
                         (updateAt word (setTransform t) sp)).
      apply IH; try assumption.
      rewrite updateAt_length. assumption.
Qed.

End SpanStore.

(** ** The arctangent of two arguments *)

Section Atan2.

Import JSMath.




Lemma atan2_origin : atan2 0 0 = 0.
Proof.
  unfold atan2.
  destruct (total_order_T 0 0) as [[H | H] | H];
    [exfalso; lra | reflexivity | exfalso; lra].
Qed.









End Atan2.

(** ** The force law *)

Section ForceLaw.

Variable o : Options.
Variable wordRect : WordRect.

Lemma pointerDistance_nonneg (mouseX mouseY : R) :
  0 <= pointerDistance wordRect mouseX mouseY.
Proof. apply sqrt_pos. Qed.

Lemma pointerDistance_center :
  pointerDistance wordRect (centerX wordRect) (centerY wordRect) = 0.
Proof.
  unfold pointerDistance.
  replace (centerX wordRect - centerX wordRect) with 0 by ring.
  replace (centerY wordRect - centerY wordRect) with 0 by ring.
  replace (0 * 0 + 0 * 0) with 0 by ring.
  apply sqrt_0.
Qed.

(** Outside the field the early return is taken. *)
Lemma calculateMagneticForce_outside (mouseX mouseY : R) :
  pointerDistance wordRect mouseX mouseY >= maxDistance o ->
  calculateMagneticForce o wordRect mouseX mouseY = zeroTranslate.
Proof.
  intros Hd. unfold calculateMagneticForce.
  fold (pointerDistance wordRect mouseX mouseY).
  destruct (Rge_dec _ _); [reflexivity | contradiction].
Qed.

(** Inside the field the result is the unit vector of the angle scaled
    by the displacement. *)
Lemma calculateMagneticForce_inside (mouseX mouseY : R) :
  pointerDistance wordRect mouseX mouseY < maxDistance o ->
  calculateMagneticForce o wordRect mouseX mouseY =
  let angle := JSMath.atan2 (mouseY - centerY wordRect)
                            (mouseX - centerX wordRect) in
  let displacement :=
    (1 - pointerDistance wordRect mouseX mouseY / maxDistance o)
    * maxDisplacement o in
  {| translateX := cos angle * displacement;
     translateY := sin angle * displacement |}.
Proof.
  intros Hd. unfold calculateMagneticForce.
  fold (pointerDistance wordRect mouseX mouseY).
  destruct (Rge_dec _ _); [lra | reflexivity].
Qed.

Lemma magnitude_zero : magnitude zeroTranslate = 0.
Proof.
  unfold magnitude, zeroTranslate; simpl.
  replace (0 * 0 + 0 * 0) with 0 by ring. apply sqrt_0.
Qed.

Lemma magnitude_polar (a k : R) :
  magnitude {| translateX := cos a * k; translateY := sin a * k |} = Rabs k.
Proof.
  unfold magnitude; simpl.
  replace (cos a * k * (cos a * k) + sin a * k * (sin a * k))
    with (Rsqr k * (Rsqr (sin a) + Rsqr (cos a))) by (unfold Rsqr; ring).
  rewrite sin2_cos2, Rmult_1_r. apply sqrt_Rsqr_abs.
Qed.

(** The length of the displacement depends on the distance only. *)
Lemma magnitude_calculateMagneticForce (mouseX mouseY : R) :
  0 <= maxDisplacement o ->
  magnitude (calculateMagneticForce o wordRect mouseX mouseY) =
  if Rge_dec (pointerDistance wordRect mouseX mouseY) (maxDistance o)
  then 0
  else (1 - pointerDistance wordRect mouseX mouseY / maxDistance o)
       * maxDisplacement o.
Proof.
  intros Hm.
  destruct (Rge_dec _ _) as [Hd | Hd].
  - rewrite calculateMagneticForce_outside by assumption.
    apply magnitude_zero.
  - assert (Hlt : pointerDistance wordRect mouseX mouseY < maxDistance o)
      by lra.
    rewrite calculateMagneticForce_inside by assumption. cbv zeta.
    rewrite magnitude_polar. apply Rabs_pos_eq.
    pose proof (pointerDistance_nonneg mouseX mouseY) as Hp.
    assert (Hpos : 0 < maxDistance o) by lra.
    apply Rmult_le_pos; [| assumption].
    assert (pointerDistance wordRect mouseX mouseY / maxDistance o < 1).
    { apply Rmult_lt_reg_r with (maxDistance o); [assumption |].
      unfold Rdiv. rewrite Rmult_assoc, Rinv_l by lra. lra. }
    lra.
Qed.

(** With the pointer on the centre the word is pushed along the
    positive x axis by the whole [maxDisplacement]. *)
Lemma calculateMagneticForce_center :
  0 < maxDistance o ->
  calculateMagneticForce o wordRect (centerX wordRect) (centerY wordRect) =
  {| translateX := maxDisplacement o; translateY := 0 |}.
Proof.
  intros Hpos.
  rewrite calculateMagneticForce_inside
    by (rewrite pointerDistance_center; assumption).
  cbv zeta. rewrite pointerDistance_center.
  replace (centerX wordRect - centerX wordRect) with 0 by ring.
  replace (centerY wordRect - centerY wordRect) with 0 by ring.
  rewrite atan2_origin, cos_0, sin_0.
  f_equal; field; lra.
Qed.

End ForceLaw.

(** ** The sample rectangle centred on the origin *)


Lemma maxDistance_defaults : maxDistance defaults = 200.
Proof. reflexivity. Qed.

Lemma maxDisplacement_defaults : maxDisplacement defaults = 25.
Proof. reflexivity. Qed.


(** ** Claims about the force law *)



(** C6, as the code has it: when [maxDistance] is positive and
    [maxDisplacement] is not negative, a pointer exactly on the centre of
    a word is at distance [0], the force factor is [1], and the
    displacement is [(maxDisplacement, 0)], of magnitude exactly
    [maxDisplacement]. *)
Theorem force_at_center (o : Options) (wordRect : WordRect) :
  0 < maxDistance o -> 0 <= maxDisplacement o ->
  pointerDistance wordRect (centerX wordRect) (centerY wordRect) = 0 /\
  1 - pointerDistance wordRect (centerX wordRect) (centerY wordRect)
      / maxDistance o = 1 /\
  calculateMagneticForce o wordRect (centerX wordRect) (centerY wordRect) =
    {| translateX := maxDisplacement o; translateY := 0 |} /\
  magnitude
    (calculateMagneticForce o wordRect (centerX wordRect) (centerY wordRect))
  = maxDisplacement o.
Proof.
  intros Hdist Hdisp.
  split; [apply pointerDistance_center |].
  split; [rewrite pointerDistance_center; field; lra |].
  split; [now apply calculateMagneticForce_center |].
  rewrite magnitude_calculateMagneticForce by assumption.
  rewrite pointerDistance_center.
  destruct (Rge_dec 0 (maxDistance o)); [lra | field; lra].
Qed.

Lemma force_at_center_witness :
  0 < maxDistance defaults /\ 0 <= maxDisplacement defaults /\
  magnitude (calculateMagneticForce defaults originRect 0 0) = 25.
Proof.
  assert (H1 : 0 < maxDistance defaults)
    by (rewrite maxDistance_defaults; lra).
  assert (H2 : 0 <= maxDisplacement defaults)
    by (rewrite maxDisplacement_defaults; lra).
  split; [exact H1 |]. split; [exact H2 |].
  exact (proj2 (proj2 (proj2 (force_at_center defaults originRect H1 H2)))).
Defined.

(** C6, as stated, fails: with [maxDistance: 0] the centre is not inside
    the field and the magnitude is [0], not the [maxDisplacement] of 25;
    with [maxDisplacement: -25] the magnitude is 25, not [-25]. *)
Lemma center_force_needs_valid_options :
  magnitude (calculateMagneticForce (mkOptions emptyField) originRect
               (centerX originRect) (centerY originRect))
    <> maxDisplacement (mkOptions emptyField) /\
  magnitude (calculateMagneticForce (mkOptions repelling) originRect
               (centerX originRect) (centerY originRect))
    <> maxDisplacement (mkOptions repelling).
Proof.
  split.
  - rewrite calculateMagneticForce_outside.
    + rewrite magnitude_zero. simpl. lra.
    + rewrite pointerDistance_center. simpl. lra.
  - rewrite calculateMagneticForce_center by (simpl; lra).
    intros H.
    assert (Hpos : 0 <= magnitude
              {| translateX := maxDisplacement (mkOptions repelling);
                 translateY := 0 |}) by apply sqrt_pos.
    rewrite H in Hpos. simpl in Hpos. lra.
Qed.








(** ** The loops over the words, as batches of span updates *)

Lemma setSpans_same (w : World) : setSpans (spans w) w = w.
Proof. destruct w; reflexivity. Qed.

Lemma Translate_eta (t : Translate) :
  {| translateX := translateX t; translateY := translateY t |} = t.
Proof. destruct t; reflexivity. Qed.

Lemma forEachSpan_eq (f : Span -> Span) (ws : list nat) :
  forall w : World,
  forEachSpan f ws w =
  setSpans (updateMany (map (fun id => (id, f)) ws) (spans w)) w.
Proof.
  unfold forEachSpan.
  induction ws as [| word rest IH]; intros w; simpl.
  - symmetry. apply setSpans_same.
  - rewrite IH. reflexivity.
Qed.

Lemma forEachPosition_eq (ws : list nat) :
  forall (index : nat) (mouseX mouseY : R) (w : World) (rs : list WordRect),
  List.length rs = List.length ws ->
  (forall j, nth_error rs j <> None ->
             nth_error (wordRects (self w)) (index + j) = nth_error rs j) ->
  forEachPosition ws index mouseX mouseY w =
  (setSpans (updateMany
               (combine ws (map setTransform
                                (forcesAt (options (self w)) mouseX mouseY rs)))
               (spans w)) w,
   Normal).
Proof.
  induction ws as [| word rest IH]; intros index mouseX mouseY w rs Hlen Hnth.
  - simpl. now rewrite setSpans_same.
  - destruct rs as [| r rs']; [discriminate |].
    simpl in Hlen. injection Hlen as Hlen.
    simpl forEachPosition.
    rewrite <- (Nat.add_0_r index) at 1.
    rewrite (Hnth 0%nat) by (simpl; discriminate). simpl nth_error.
    unfold animateWord. rewrite Translate_eta.
    rewrite (IH (S index) mouseX mouseY _ rs' Hlen).
    + reflexivity.
    + intros j Hj. simpl self.
      replace (S index + j)%nat with (index + S j)%nat by lia.
      now rewrite (Hnth (S j)).
Qed.

Lemma updateWordPositions_eq (mouseX mouseY : R) (w : World) :
  List.length (wordRects (self w)) = List.length (words (self w)) ->
  updateWordPositions mouseX mouseY w =
  (setSpans (updateMany
               (combine (words (self w))
                        (map setTransform
                             (forcesAt (options (self w)) mouseX mouseY
                                       (wordRects (self w)))))
               (spans w)) w,
   Normal).
Proof.
  intros Hlen. unfold updateWordPositions.
  now apply forEachPosition_eq.
Qed.

(** ** Keeping the words and their texts *)

Lemma sameText_refl (w : World) : sameText w w.
Proof. repeat split. Qed.

Lemma sameText_trans (w1 w2 w3 : World) :
  sameText w1 w2 -> sameText w2 w3 -> sameText w1 w3.
Proof.
  intros (A1 & A2 & A3 & A4 & A5) (B1 & B2 & B3 & B4 & B5).
  repeat split; try congruence; intros id; now rewrite B5.
Qed.

Lemma setSpans_sameText (sp : list Span) (w : World) :
  List.length sp = List.length (spans w) ->
  (forall id, option_map textContent (nth_error sp id) =
              option_map textContent (nth_error (spans w) id)) ->
  sameText w (setSpans sp w).
Proof.
  intros Hlen Htext. repeat split; try assumption.
  intros id. unfold spanText; simpl. specialize (Htext id).
  destruct (nth_error sp id), (nth_error (spans w) id);
    simpl in Htext; congruence.
Qed.

Lemma keepsText_setTransform (t : Translate) : keepsText (setTransform t).
Proof. intros s; reflexivity. Qed.

Lemma keepsText_setActiveClass (b : bool) : keepsText (setActiveClass b).
Proof. intros s; reflexivity. Qed.

Lemma forEachSpan_sameText (f : Span -> Span) (ws : list nat) (w : World) :
  keepsText f -> sameText w (forEachSpan f ws w).
Proof.
  intros Hf. rewrite forEachSpan_eq. apply setSpans_sameText.
  - apply updateMany_length.
  - intros id. apply updateMany_text.
    apply Forall_forall. intros p Hp.
    apply in_map_iff in Hp. destruct Hp as [x [<- _]]. exact Hf.
Qed.

Lemma forces_sameText (ws : list nat) (ts : list Translate) (w : World) :
  sameText w (setSpans (updateMany (combine ws (map setTransform ts))
                                   (spans w)) w).
Proof.
  apply setSpans_sameText.
  - apply updateMany_length.
  - intros id. apply updateMany_text.
    apply Forall_forall. intros [a f] Hp.
    apply in_combine_r in Hp. apply in_map_iff in Hp.
    destruct Hp as [t [<- _]]. apply keepsText_setTransform.
Qed.

(** An invariant moves along [sameText] once the geometry and the frame
    bookkeeping are checked. *)
Lemma Inv_transfer (t : string) (w w' : World) :
  Inv t w -> sameText w w' ->
  List.length (wordRects (self w')) = List.length (words (self w')) ->
  pendingFrame w' ->
  Inv t w'.
Proof.
  intros (Hnd & Hrange & Hlen & Hpf & Htext) (S1 & S2 & S3 & S4 & S5)
         Hlen' Hpf'.
  unfold Inv. rewrite S1, S2, S3, S4.
  split; [assumption |]. split; [assumption |].
  split; [now rewrite <- S1 |]. split; [assumption |].
  intros Hne. destruct (Htext Hne) as (He & Hc & Hsplit).
  split; [assumption |]. split; [assumption |].
  rewrite <- Hsplit. apply map_ext. exact S5.
Qed.

(** ** The handlers, case by case *)

Ltac break_match :=
  match goal with
  | |- context [match ?c with _ => _ end] =>
      lazymatch c with
      | context [match _ with _ => _ end] => fail
      | _ => destruct c eqn:?
      end
  end.

Lemma handleMouseMove_pending (x y : R) (w : World) (h : positive) :
  rafId (self w) = Some h -> handleMouseMove x y w = w.
Proof. intros H. unfold handleMouseMove. now rewrite H. Qed.

Lemma handleMouseMove_idle (x y : R) (w : World) :
  rafId (self w) = None ->
  handleMouseMove x y w =
  let w2 := onSelf (setRafId (Some (nextFrame w)))
              (setFrames (frames w ++ [(nextFrame w, UpdateFrame x y)])
                         (Pos.succ (nextFrame w)) w) in
  if isActive (self w) then w2
  else forEachSpan (setActiveClass true) (words (self w))
                   (onSelf (setIsActive true) w2).
Proof. intros H. unfold handleMouseMove. rewrite H. reflexivity. Qed.

Lemma removeHandle_single {A : Type} (h : positive) (cb : A) :
  removeHandle h [(h, cb)] = [].
Proof. unfold removeHandle; simpl. now rewrite Pos.eqb_refl. Qed.

Lemma destroy_words (w : World) : words (self (destroy w)) = [].
Proof. reflexivity. Qed.

Lemma destroy_wordRects (w : World) : wordRects (self (destroy w)) = [].
Proof. reflexivity. Qed.

Lemma destroy_rafId (w : World) : rafId (self (destroy w)) = None.
Proof. unfold destroy. repeat break_match; simpl; congruence. Qed.

Lemma destroy_frames (w : World) :
  pendingFrame w -> frames (destroy w) = [].
Proof.
  unfold pendingFrame, destroy. intros H.
  destruct (rafId (self w)) as [h |].
  - destruct H as [cb H].
    repeat break_match; simpl; rewrite H; apply removeHandle_single.
  - repeat break_match; simpl; exact H.
Qed.

Lemma destroy_Inv (t : string) (w : World) :
  pendingFrame w -> Inv t (destroy w).
Proof.
  intros Hpf. unfold Inv, pendingFrame.
  rewrite destroy_words, destroy_wordRects, destroy_rafId.
  rewrite destroy_frames by assumption.
  repeat split; try constructor. all: contradiction.
Qed.

(** ** Every step keeps the invariant *)

Section Preservation.

Variable t : string.

Ltac simple_update H :=
  apply (Inv_transfer t _ _ H);
  [ repeat split
  | simpl; apply H
  | unfold pendingFrame; simpl; apply H ].

Lemma Inv_pendingFrame (w : World) : Inv t w -> pendingFrame w.
Proof. intros H. apply H. Qed.

Lemma Inv_parallel (w : World) :
  Inv t w ->
  List.length (wordRects (self w)) = List.length (words (self w)).
Proof. intros H. apply H. Qed.

Lemma setEnv_Inv (e : Env) (w : World) : Inv t w -> Inv t (setEnv e w).
Proof. intros H. simple_update H. Qed.

Lemma setTimers_Inv (ts : list (positive * (R * TimerCallback)))
    (n : positive) (w : World) :
  Inv t w -> Inv t (setTimers ts n w).
Proof. intros H. simple_update H. Qed.

Lemma setResizeTimeout_Inv (h : option positive) (w : World) :
  Inv t w -> Inv t (onSelf (setResizeTimeout h) w).
Proof. intros H. simple_update H. Qed.

Lemma setListeners_Inv (a b c d : bool) (w : World) :
  Inv t w -> Inv t (setListeners a b c d w).
Proof. intros H. simple_update H. Qed.

Lemma setupEventListeners_Inv (w : World) :
  Inv t w -> Inv t (setupEventListeners w).
Proof.
  intros H. unfold setupEventListeners.
  destruct (heroSection w); repeat apply setListeners_Inv; assumption.
Qed.

Lemma setIsActive_Inv (b : bool) (w : World) :
  Inv t w -> Inv t (onSelf (setIsActive b) w).
Proof. intros H. simple_update H. Qed.

Lemma cacheBoundingRects_Inv (w : World) :
  Inv t w -> Inv t (cacheBoundingRects w).
Proof.
  intros H. apply (Inv_transfer t _ _ H).
  - repeat split.
  - simpl. apply length_map.
  - unfold pendingFrame; simpl; apply H.
Qed.

Lemma forEachSpan_Inv (f : Span -> Span) (ws : list nat) (w : World) :
  keepsText f -> Inv t w -> Inv t (forEachSpan f ws w).
Proof.
  intros Hf H. apply (Inv_transfer t _ _ H).
  - now apply forEachSpan_sameText.
  - rewrite forEachSpan_eq. simpl. apply H.
  - rewrite forEachSpan_eq. unfold pendingFrame; simpl. apply H.
Qed.

Lemma cancel_Inv (w : World) :
  Inv t w ->
  Inv t match rafId (self w) with
        | Some h => onSelf (setRafId None) (cancelAnimationFrame h w)
        | None => w
        end.
Proof.
  intros H. destruct (rafId (self w)) as [h |] eqn:E; [| assumption].
  apply (Inv_transfer t _ _ H).
  - repeat split.
  - simpl. apply H.
  - pose proof (Inv_pendingFrame w H) as Hpf.
    unfold pendingFrame in *. rewrite E in Hpf. destruct Hpf as [cb Hcb].
    simpl. rewrite Hcb. apply removeHandle_single.
Qed.

Lemma reset_Inv (w : World) : Inv t w -> Inv t (reset w).
Proof.
  intros H. unfold reset.
  assert (H1 : Inv t (forEachSpan
                        (setTransform {| translateX := 0; translateY := 0 |})
                        (words (self w)) w))
    by (apply forEachSpan_Inv; [apply keepsText_setTransform | assumption]).
  destruct (isActive _); [| assumption].
  unfold setTimeout; simpl. now apply setTimers_Inv.
Qed.

Lemma handleMouseLeave_Inv (w : World) :
  Inv t w -> Inv t (handleMouseLeave w).
Proof.
  intros H. unfold handleMouseLeave. apply reset_Inv. now apply cancel_Inv.
Qed.

Lemma handleMouseMove_Inv (x y : R) (w : World) :
  Inv t w -> Inv t (handleMouseMove x y w).
Proof.
  intros H. destruct (rafId (self w)) as [h |] eqn:E.
  - now rewrite (handleMouseMove_pending x y w h).
  - rewrite handleMouseMove_idle by assumption. cbv zeta.
    pose proof (Inv_pendingFrame w H) as Hpf.
    unfold pendingFrame in Hpf. rewrite E in Hpf.
    assert (H2 : Inv t (onSelf (setRafId (Some (nextFrame w)))
              (setFrames (frames w ++ [(nextFrame w, UpdateFrame x y)])
                         (Pos.succ (nextFrame w)) w))).
    { apply (Inv_transfer t _ _ H).
      - repeat split.
      - simpl. apply H.
      - unfold pendingFrame; simpl. rewrite Hpf. now eexists. }
    destruct (isActive (self w)); [assumption |].
    apply forEachSpan_Inv; [apply keepsText_setActiveClass |].
    now apply setIsActive_Inv.
Qed.

Lemma handleResize_Inv (w : World) : Inv t w -> Inv t (handleResize w).
Proof.
  intros H. unfold handleResize, setTimeout. simpl.
  apply setResizeTimeout_Inv, setTimers_Inv.
  unfold clearTimeout. destruct (resizeTimeout (self w)); [| assumption].
  now apply setTimers_Inv.
Qed.

Lemma runTimerCallback_Inv (cb : TimerCallback) (w : World) :
  Inv t w -> Inv t (runTimerCallback cb w).
Proof.
  intros H. destruct cb; simpl.
  - destruct (shouldInitialize (env w)); simpl.
    + now apply cacheBoundingRects_Inv.
    + apply destroy_Inv. apply H.
  - apply setIsActive_Inv.
    apply forEachSpan_Inv; [apply keepsText_setActiveClass | assumption].
Qed.

(** What a frame boundary does when a callback is pending. *)
Lemma frame_pending (x y : R) (h : positive) (w : World) :
  List.length (wordRects (self w)) = List.length (words (self w)) ->
  frames w = [(h, UpdateFrame x y)] ->
  step Frame w =
  onSelf (setRafId None)
    (setSpans
       (updateMany
          (combine (words (self w))
             (map setTransform
                (forcesAt (options (self w))
                          (x + scrollX (env w)) (y + scrollY (env w))
                          (wordRects (self w)))))
          (spans w))
       (setFrames [] (nextFrame w) w)).
Proof.
  intros Hlen Hfr. unfold step, runFrames. rewrite Hfr. simpl.
  rewrite updateWordPositions_eq by exact Hlen. reflexivity.
Qed.

Lemma frame_Inv (w : World) : Inv t w -> Inv t (step Frame w).
Proof.
  intros H. pose proof (Inv_pendingFrame w H) as Hpf.
  unfold pendingFrame in Hpf.
  destruct (rafId (self w)) as [h |] eqn:E.
  - destruct Hpf as [[x y] Hfr].
    rewrite (frame_pending x y h) by (try apply H; assumption).
    apply (Inv_transfer t _ _ H).
    + match goal with
      | |- sameText _ (onSelf _ (setSpans ?sp ?W)) =>
          apply sameText_trans with W; [repeat split |];
          apply sameText_trans with (setSpans sp W); [| repeat split]
      end.
      apply (forces_sameText _ _ (setFrames [] (nextFrame w) w)).
    + simpl. apply H.
    + reflexivity.
  - unfold step, runFrames. rewrite Hpf. simpl.
    apply (Inv_transfer t _ _ H).
    + repeat split.
    + simpl. apply H.
    + unfold pendingFrame; simpl. now rewrite E.
Qed.

Theorem step_Inv (ev : Event) (w : World) : Inv t w -> Inv t (step ev w).
Proof.
  intros H. destruct ev as [x y | | nw nl | x y | m | | h].
  - simpl. destruct (onMouseMove w); [| assumption].
    now apply handleMouseMove_Inv.
  - simpl. destruct (onMouseLeave w); [| assumption].
    now apply handleMouseLeave_Inv.
  - simpl. destruct (onResize w).
    + now apply handleResize_Inv, setEnv_Inv.
    + now apply setEnv_Inv.
  - simpl. now apply setEnv_Inv.
  - simpl. destruct (onMotionChange w); [| now apply setEnv_Inv].
    destruct m; [| now apply setEnv_Inv].
    apply destroy_Inv. apply (Inv_pendingFrame _ (setEnv_Inv _ w H)).
  - now apply frame_Inv.
  - simpl. destruct (findHandle h (timers w)) as [[delay cb] |];
      [| assumption].
    now apply runTimerCallback_Inv, setTimers_Inv.
Qed.

Lemma run_Inv (evs : list Event) :
  forall w : World, Inv t w -> Inv t (run evs w).
Proof.
  unfold run. induction evs as [| ev rest IH]; intros w H; simpl.
  - assumption.
  - apply IH. now apply step_Inv.
Qed.

End Preservation.

(** ** The constructor establishes the invariant *)

Lemma spanText_stored (w w' : World) (extra : list Span) (id : nat) :
  spans w' = spans w ++ extra -> (id < List.length (spans w))%nat ->
  spanText w' id = spanText w id.
Proof.
  intros Hsp Hid. unfold spanText. rewrite Hsp.
  now rewrite nth_error_app1.
Qed.

Lemma spanText_created (w w' : World) (s : Span) (extra : list Span) :
  spans w' = spans w ++ s :: extra ->
  spanText w' (List.length (spans w)) = textContent s.
Proof.
  intros Hsp. unfold spanText. rewrite Hsp.
  rewrite nth_error_app2 by lia. now rewrite Nat.sub_diag.
Qed.

(** The segmenter's loop appends one word span per piece, each a new
    span of the store, and leaves the frame bookkeeping alone. *)
Lemma forEachWord_spec (ws : list string) :
  forall (index len : nat) (w : World),
  NoDup (words (self w)) ->
  Forall (fun word => (word < List.length (spans w))%nat) (words (self w)) ->
  container w <> None ->
  let w' := forEachWord ws index len w in
  NoDup (words (self w')) /\
  Forall (fun word => (word < List.length (spans w'))%nat) (words (self w')) /\
  map (spanText w') (words (self w')) =
    map (spanText w) (words (self w)) ++ ws /\
  element (self w') = element (self w) /\
  container w' <> None /\
  wordRects (self w') = wordRects (self w) /\
  rafId (self w') = rafId (self w) /\
  frames w' = frames w.
Proof.
  induction ws as [| word rest IH]; intros index len w Hnd Hrange Hc; simpl.
  - rewrite app_nil_r. repeat split; assumption.
  - set (wordSpan := {| className := WordMagnetic; textContent := word;
                        hasActive := false; transform := None |}).
    match goal with
    | |- context [forEachWord rest (S index) len ?w4] => set (W := w4)
    end.
    assert (Hfacts :
      exists extra,
        spans W = spans w ++ wordSpan :: extra /\
        words (self W) = words (self w) ++ [List.length (spans w)] /\
        element (self W) = element (self w) /\
        container W <> None /\
        wordRects (self W) = wordRects (self w) /\
        rafId (self W) = rafId (self w) /\
        frames W = frames w).
    { subst W. destruct (container w) as [c |] eqn:Ec; [| contradiction].
      destruct (index <? len - 1)%nat.
      - eexists. simpl. rewrite Ec. simpl. rewrite <- app_assoc. simpl.
        repeat split. discriminate.
      - exists []. simpl. rewrite Ec. simpl.
        repeat split. discriminate. }
    destruct Hfacts as (extra & Hsp & Hw & He & Hc' & Hr & Hraf & Hfr).
    assert (Hlen : List.length (spans W)
                   = S (List.length (spans w) + List.length extra)).
    { rewrite Hsp, length_app. simpl. lia. }
    assert (Hnd' : NoDup (words (self W))).
    { rewrite Hw. apply NoDup_app; [assumption | repeat constructor; intros [] |].
      intros a Ha [Hb | []]. subst a.
      rewrite Forall_forall in Hrange. specialize (Hrange _ Ha). lia. }
    assert (Hrange' : Forall (fun a => (a < List.length (spans W))%nat)
                             (words (self W))).
    { rewrite Hw. apply Forall_app. split.
      - eapply Forall_impl; [| exact Hrange]. simpl. intros a Ha. lia.
      - repeat constructor. lia. }
    destruct (IH (S index) len W Hnd' Hrange' Hc')
      as (I1 & I2 & I3 & I4 & I5 & I6 & I7 & I8).
    repeat split; try assumption; try congruence.
    rewrite I3, Hw, map_app. simpl.
    rewrite (spanText_created w W wordSpan extra Hsp). simpl.
    rewrite <- app_assoc. simpl. f_equal.
    apply map_ext_in. intros a Ha.
    rewrite Forall_forall in Hrange.
    apply (spanText_stored w W (wordSpan :: extra)); auto.
Qed.

Lemma construct_Inv (sel : string) (opts : OptionsArg) (e : Env)
    (c : Container) :
  Inv (getTextContent (page e (Some c) (newInstance sel opts)))
      (fst (construct sel opts e (Some c))).
Proof.
  unfold construct, init.
  destruct (shouldInitialize _) eqn:Egate; simpl negb; cbv iota.
  - cbn [container page fst].
    set (w1 := onSelf (setElement (Some ContainerRef))
                      (page e (Some c) (newInstance sel opts))).
    set (t := getTextContent (page e (Some c) (newInstance sel opts))).
    unfold splitTextIntoWords.
    change (getTextContent w1) with t.
    match goal with
    | |- context [forEachWord (split t) 0 ?len ?w] =>
        pose proof (forEachWord_spec (split t) 0 len w) as Hspec
    end.
    simpl in Hspec.
    destruct Hspec as (I1 & I2 & I3 & I4 & I5 & I6 & I7 & I8);
      [constructor | constructor | discriminate |].
    apply setListeners_Inv, setupEventListeners_Inv.
    unfold Inv, pendingFrame. simpl.
    repeat split; try assumption.
    + apply length_map.
    + now rewrite I7, I8.
  - simpl. unfold Inv, pendingFrame; simpl.
    repeat split; try constructor. all: contradiction.
Qed.

(** Every state reached from the constructor satisfies the invariant. *)
Lemma reachable_Inv (sel : string) (opts : OptionsArg) (e : Env)
    (c : Container) (evs : list Event) :
  Inv (getTextContent (page e (Some c) (newInstance sel opts)))
      (run evs (fst (construct sel opts e (Some c)))).
Proof. apply run_Inv, construct_Inv. Qed.

(** ** Teardown *)

Lemma concat_single (s : string) :
  String.concat EmptyString match s with
                            | EmptyString => []
                            | _ => [s]
                            end = s.
Proof. destruct s; reflexivity. Qed.

(** [destroy] on an instance that holds its element leaves the joined
    word texts as the text of the container. *)
Lemma destroy_text (w : World) (r : ElementRef) (c : Container) :
  element (self w) = Some r -> container w = Some c ->
  getTextContent (destroy w) = join (map (spanText w) (words (self w))).
Proof.
  intros He Hc. unfold destroy.
  set (w1 := match rafId (self w) with
             | Some h => onSelf (setRafId None) (cancelAnimationFrame h w)
             | None => w
             end).
  assert (H1 : element (self w1) = Some r /\ container w1 = Some c /\
               spans w1 = spans w /\ words (self w1) = words (self w))
    by (subst w1; destruct (rafId (self w)); simpl; auto).
  clearbody w1. destruct H1 as (He1 & Hc1 & Hs1 & Hw1).
  set (w2 := if heroSection w1
             then setListeners false false (onResize w1) (onMotionChange w1) w1
             else w1).
  assert (H2 : element (self w2) = Some r /\ container w2 = Some c /\
               spans w2 = spans w /\ words (self w2) = words (self w))
    by (subst w2; destruct (heroSection w1); simpl; auto).
  clearbody w2. destruct H2 as (He2 & Hc2 & Hs2 & Hw2).
  cbv zeta. simpl element. rewrite He2.
  unfold getTextContent. simpl. rewrite Hc2. simpl.
  set (s := join _).
  replace (join (map (spanText w) (words (self w)))) with s.
  - destruct s; reflexivity.
  - subst s. rewrite Hw2. apply f_equal, map_ext.
    intros id. unfold spanText. simpl. now rewrite Hs2.
Qed.



(** ** Bursts of pointer moves *)

Lemma handleMouseMove_fields (x y : R) (w : World) :
  let w' := handleMouseMove x y w in
  options (self w') = options (self w) /\
  env w' = env w /\
  wordRects (self w') = wordRects (self w) /\
  words (self w') = words (self w) /\
  onMouseMove w' = onMouseMove w.
Proof.
  destruct (rafId (self w)) as [h |] eqn:E; cbv zeta.
  - rewrite (handleMouseMove_pending x y w h E). repeat split.
  - rewrite handleMouseMove_idle by assumption. cbv zeta.
    destruct (isActive (self w)); [repeat split |].
    rewrite forEachSpan_eq. repeat split.
Qed.

Lemma handleMouseMove_schedules (x y : R) (w : World) :
  rafId (self w) = None ->
  rafId (self (handleMouseMove x y w)) = Some (nextFrame w) /\
  frames (handleMouseMove x y w) = frames w ++ [(nextFrame w, UpdateFrame x y)].
Proof.
  intros E. rewrite handleMouseMove_idle by assumption. cbv zeta.
  destruct (isActive (self w)); [repeat split |].
  rewrite forEachSpan_eq. repeat split.
Qed.

(** While a frame is pending, further pointer moves change nothing. *)
Lemma moves_dropped (ps : list (R * R)) (w : World) (h : positive) :
  rafId (self w) = Some h -> run (moves ps) w = w.
Proof.
  intros E. unfold run, moves.
  induction ps as [| p rest IH]; simpl; [reflexivity |].
  destruct (onMouseMove w); [| exact IH].
  rewrite (handleMouseMove_pending _ _ w h E). exact IH.
Qed.

Lemma frame_idle (t : string) (w : World) :
  Inv t w -> rafId (self (step Frame w)) = None.
Proof.
  intros H. apply frame_Inv in H as H'.
  pose proof (Inv_pendingFrame t w H) as Hpf. unfold pendingFrame in Hpf.
  destruct (rafId (self w)) as [h |] eqn:E.
  - destruct Hpf as [[x y] Hfr].
    rewrite (frame_pending x y h) by (try apply H; assumption).
    reflexivity.
  - unfold step, runFrames. rewrite Hpf. simpl. exact E.
Qed.

(** What the frame boundary leaves on the words when one callback is
    pending: the forces computed from the position that the callback
    captured, with the scroll offsets of the moment it runs. *)
Lemma frame_transforms (t : string) (w : World) (h : positive) (x y : R) :
  Inv t w -> frames w = [(h, UpdateFrame x y)] ->
  wordTransforms (step Frame w) =
    map Some (forcesAt (options (self w))
                       (x + scrollX (env w)) (y + scrollY (env w))
                       (wordRects (self w))) /\
  frames (step Frame w) = [].
Proof.
  intros H Hfr.
  rewrite (frame_pending x y h) by (try apply H; assumption).
  split; [| reflexivity].
  unfold wordTransforms. simpl.
  destruct H as (Hnd & Hrange & Hlen & _).
  apply updateMany_transforms; try assumption.
  unfold forcesAt. now rewrite length_map.
Qed.

(** A burst of pointer moves that starts with no frame pending schedules
    one callback, for the first position of the burst; the next frame
    boundary runs it once. *)
Lemma burst_frame (t : string) (w : World) (x1 y1 : R) (rest : list (R * R)) :
  Inv t w -> onMouseMove w = true -> rafId (self w) = None ->
  let w1 := run (moves ((x1, y1) :: rest)) w in
  w1 = handleMouseMove x1 y1 w /\
  frames w1 = [(nextFrame w, UpdateFrame x1 y1)] /\
  wordTransforms (step Frame w1) =
    map Some (forcesAt (options (self w))
                       (x1 + scrollX (env w)) (y1 + scrollY (env w))
                       (wordRects (self w))) /\
  rafId (self (step Frame w1)) = None /\
  frames (step Frame w1) = [].
Proof.
  intros H Hon Hidle w1.
  destruct (handleMouseMove_schedules x1 y1 w Hidle) as (Hraf & Hfr).
  assert (Hpf : frames w = []).
  { pose proof (Inv_pendingFrame t w H) as Hpf.
    unfold pendingFrame in Hpf. now rewrite Hidle in Hpf. }
  rewrite Hpf in Hfr. simpl in Hfr.
  assert (Hw1 : w1 = handleMouseMove x1 y1 w).
  { subst w1. unfold moves. simpl map.
    change (run (MouseMove x1 y1 :: ?l) w)
      with (run l (step (MouseMove x1 y1) w)).
    simpl step. rewrite Hon.
    apply (moves_dropped rest _ _ Hraf). }
  assert (H1 : Inv t w1) by (rewrite Hw1; now apply handleMouseMove_Inv).
  split; [exact Hw1 |]. split; [now rewrite Hw1 |].
  destruct (handleMouseMove_fields x1 y1 w) as (Ho & He & Hr & _ & _).
  rewrite <- Hw1 in Ho, He, Hr, Hfr.
  destruct (frame_transforms t w1 _ x1 y1 H1 Hfr) as (Htr & Hfr').
  rewrite Ho, He, Hr in Htr.
  split; [exact Htr |]. split; [now apply (frame_idle t) | exact Hfr'].
Qed.

(** C1, as the code has it: for every burst of N >= 1 pointer moves
    between two consecutive frame boundaries, exactly one frame callback
    is scheduled and one style update is made; the moves after the first
    are dropped, and the update is computed from the first position of
    the burst. *)
Theorem burst_coalesced (sel : string) (opts : OptionsArg) (e : Env)
    (c : Container) (evs : list Event) (x1 y1 : R) (rest : list (R * R)) :
  let w := step Frame (run evs (fst (construct sel opts e (Some c)))) in
  let w1 := run (moves ((x1, y1) :: rest)) w in
  onMouseMove w = true ->
  w1 = step (MouseMove x1 y1) w /\
  frames w1 = [(nextFrame w, UpdateFrame x1 y1)] /\
  wordTransforms (step Frame w1) =
    map Some (forcesAt (options (self w))
                       (x1 + scrollX (env w)) (y1 + scrollY (env w))
                       (wordRects (self w))) /\
  rafId (self (step Frame w1)) = None /\
  frames (step Frame w1) = [].
Proof.
  intros w w1 Hon.
  set (t := getTextContent (page e (Some c) (newInstance sel opts))).
  assert (H0 : Inv t (run evs (fst (construct sel opts e (Some c)))))
    by apply reachable_Inv.
  assert (H : Inv t w) by now apply frame_Inv.
  assert (Hidle : rafId (self w) = None) by now apply (frame_idle t).
  destruct (burst_frame t w x1 y1 rest H Hon Hidle) as (B1 & B2 & B3 & B4 & B5).
  fold w1 in B1, B2, B3, B4, B5.
  repeat split; try assumption.
  rewrite B1. simpl. now rewrite Hon.
Qed.

Lemma burst_coalesced_witness :
  let w := step Frame oneWordPage in
  onMouseMove w = true /\
  frames (run (moves [(0, 0); (300, 0)]) w) = [(1%positive, UpdateFrame 0 0)].
Proof.
  assert (H : onMouseMove (step Frame oneWordPage) = true) by reflexivity.
  split; [exact H |].
  exact (proj1 (proj2 (burst_coalesced ".hero-title" noOptions desktop
                         (heroTitle "Hello") [] 0 0 [(300, 0)] H))).
Defined.

(** C1, as stated, fails: of the two moves [(0, 0)] and [(300, 0)] before
    a frame boundary the update uses the first.  The word centred on the
    origin is displaced by [(25, 0)], while the latest position, which is
    outside the field, would leave it at the zero vector. *)
Lemma burst_uses_first_position :
  let w := step Frame oneWordPage in
  let w2 := step Frame (run (moves [(0, 0); (300, 0)]) w) in
  wordTransforms w2 = [Some {| translateX := 25; translateY := 0 |}] /\
  map Some (forcesAt (options (self w))
                     (300 + scrollX (env w)) (0 + scrollY (env w))
                     (wordRects (self w)))
    = [Some zeroTranslate] /\
  wordTransforms w2 <>
  map Some (forcesAt (options (self w))
                     (300 + scrollX (env w)) (0 + scrollY (env w))
                     (wordRects (self w))).
Proof.
  intros w w2.
  set (t := getTextContent (page desktop (Some (heroTitle "Hello"))
                                 (newInstance ".hero-title" noOptions))).
  assert (H : Inv t w).
  { apply frame_Inv. apply (reachable_Inv _ _ _ _ []). }
  destruct (burst_frame t w 0 0 [(300, 0)] H eq_refl eq_refl)
    as (_ & _ & Htr & _).
  fold w2 in Htr.
  set (rect := {| left := -10 + 0; top := -10 + 0; width := 20; height := 20;
                  centerX := -10 + 0 + 20 / 2; centerY := -10 + 0 + 20 / 2 |}).
  assert (Hrects : wordRects (self w) = [rect]) by reflexivity.
  assert (Hopts : options (self w) = defaults) by reflexivity.
  assert (Hsx : scrollX (env w) = 0) by reflexivity.
  assert (Hsy : scrollY (env w) = 0) by reflexivity.
  rewrite Hrects, Hopts, Hsx, Hsy in *.
  assert (Hfirst : calculateMagneticForce defaults rect (0 + 0) (0 + 0)
                   = {| translateX := 25; translateY := 0 |}).
  { replace (0 + 0) with (centerX rect) at 1 by (simpl; lra).
    replace (0 + 0) with (centerY rect) by (simpl; lra).
    rewrite calculateMagneticForce_center
      by (rewrite maxDistance_defaults; lra).
    reflexivity. }
  assert (Hlast : calculateMagneticForce defaults rect (300 + 0) (0 + 0)
                  = zeroTranslate).
  { apply calculateMagneticForce_outside.
    unfold pointerDistance. simpl centerX. simpl centerY.
    replace ((300 + 0 - (-10 + 0 + 20 / 2)) * (300 + 0 - (-10 + 0 + 20 / 2))
             + (0 + 0 - (-10 + 0 + 20 / 2)) * (0 + 0 - (-10 + 0 + 20 / 2)))
      with (300 * 300) by field.
    rewrite sqrt_square by lra. rewrite maxDistance_defaults. lra. }
  simpl forcesAt in *. rewrite Hfirst in Htr. rewrite Hlast.
  split; [exact Htr |]. split; [reflexivity |].
  rewrite Htr. unfold zeroTranslate. intros Heq. inversion Heq. lra.
Qed.

(** ** Stale timers *)

(** C2: after [destroy] returns, the frame callback is cancelled but the
    resize timer is still pending.  On the page "Hello World Foo", a
    resize followed by [destroy] leaves timer 1 in the queue; when the
    window has meanwhile become narrow and the timer elapses, its callback
    calls [destroy] again on the emptied [words] and replaces the restored
    text by the empty string. *)
Theorem destroy_leaves_resize_timer :
  let w1 := step (Resize 1440 (layout desktop)) helloPage in
  let w2 := destroy w1 in
  let w3 := step (Resize 800 (layout desktop)) w2 in
  let w4 := step (TimerFire 1) w3 in
  frames w2 = [] /\
  timers w2 = [(1%positive, (150, ResizeSettled))] /\
  getTextContent w2 = "Hello World Foo"%string /\
  timers w3 = timers w2 /\
  getTextContent w4 = EmptyString /\
  dom w4 <> dom w2.
Proof.
  intros w1 w2 w3 w4.
  split; [lazy; reflexivity |]. split; [lazy; reflexivity |].
  split; [lazy; reflexivity |]. split; [lazy; reflexivity |].
  split; [lazy; reflexivity |].
  intros H. apply (f_equal fst) in H. lazy in H. discriminate.
Qed.

(** ** An instance that never starts *)

Lemma uninitialized_step (ev : Event) (w : World) :
  Uninitialized w ->
  Uninitialized (step ev w) /\ dom (step ev w) = dom w /\
  console (step ev w) = console w.
Proof.
  intros U.
  destruct U as (U1 & U2 & U3 & U4 & U5 & U6 & U7 & U8 & U9 & U10 & U11 & U12).
  destruct ev as [x y | | nw nl | x y | m | | h]; simpl.
  - rewrite U7. repeat split; assumption.
  - rewrite U8. repeat split; assumption.
  - rewrite U9. repeat split; assumption.
  - repeat split; assumption.
  - rewrite U10. repeat split; assumption.
  - unfold runFrames. rewrite U11. simpl. repeat split; assumption.
  - rewrite U12. simpl. repeat split; assumption.
Qed.

Lemma uninitialized_run (evs : list Event) :
  forall w : World,
  Uninitialized w ->
  Uninitialized (run evs w) /\ dom (run evs w) = dom w /\
  console (run evs w) = console w.
Proof.
  unfold run. induction evs as [| ev rest IH]; intros w U; simpl.
  - repeat split; apply U.
  - destruct (uninitialized_step ev w U) as (U' & Hd & Hc).
    destruct (IH _ U') as (U'' & Hd' & Hc').
    split; [assumption |]. split; congruence.
Qed.

Lemma page_Uninitialized (sel : string) (opts : OptionsArg) (e : Env)
    (c : option Container) :
  Uninitialized (page e c (newInstance sel opts)).
Proof. repeat split. Qed.

Lemma shouldInitialize_true (e : Env) :
  shouldInitialize e = true <->
  touchCapable e = false /\ (1024 < innerWidth e)%Z /\
  prefersReducedMotion e = false.
Proof.
  unfold shouldInitialize.
  destruct (touchCapable e);
    [split; [discriminate | intros (Hx & _); discriminate] |].
  destruct (Z.leb_spec (innerWidth e) 1024) as [Hw | Hw];
    [split; [discriminate | intros (_ & Hx & _); lia] |].
  destruct (prefersReducedMotion e);
    [split; [discriminate | intros (_ & _ & Hx); discriminate] |].
  split; auto.
Qed.

(** C8: the eligibility gate is a function of the environment alone; it
    returns [false] exactly when the device reports touch capability, or
    the viewport is at most 1024 pixels wide, or reduced motion is
    preferred, and [true] otherwise.  On a touch-capable device the
    constructor leaves the instance uninitialized and the document
    untouched, whatever the width and the motion preference, and no later
    event changes that. *)
Theorem eligibility_gate (e : Env) :
  (shouldInitialize e = false <->
   touchCapable e = true \/ (innerWidth e <= 1024)%Z \/
   prefersReducedMotion e = true) /\
  (shouldInitialize e = true <->
   ~ (touchCapable e = true \/ (innerWidth e <= 1024)%Z \/
      prefersReducedMotion e = true)) /\
  (touchCapable e = true <->
   ontouchstart e = true \/
   exists n, maxTouchPoints e = Some n /\ (0 < n)%Z) /\
  (touchCapable e = true ->
   forall (sel : string) (opts : OptionsArg) (c : option Container)
          (evs : list Event),
     let w := fst (construct sel opts e c) in
     Uninitialized w /\ dom w = (c, []) /\
     Uninitialized (run evs w) /\ dom (run evs w) = (c, [])).
Proof.
  split; [| split; [| split]].
  - unfold shouldInitialize.
    destruct (touchCapable e); [split; auto |].
    destruct (Z.leb_spec (innerWidth e) 1024) as [Hw | Hw]; [split; auto |].
    destruct (prefersReducedMotion e); [split; auto |].
    split; [discriminate |].
    intros [Hx | [Hx | Hx]]; [discriminate | lia | discriminate].
  - rewrite shouldInitialize_true. split.
    + intros (H1 & H2 & H3) [Hx | [Hx | Hx]]; [congruence | lia | congruence].
    + intros Hn. repeat split.
      * destruct (touchCapable e); [exfalso; apply Hn; auto | reflexivity].
      * destruct (Z_le_gt_dec (innerWidth e) 1024) as [Hw | Hw];
          [exfalso; apply Hn; auto | lia].
      * destruct (prefersReducedMotion e);
          [exfalso; apply Hn; auto | reflexivity].
  - unfold touchCapable. destruct (ontouchstart e); simpl.
    + split; auto.
    + destruct (maxTouchPoints e) as [n |].
      * rewrite Z.ltb_lt. split.
        -- intros H. right. now exists n.
        -- intros [H | [n' [Hn Hpos]]]; [discriminate |].
           now injection Hn as ->.
      * split; [discriminate |].
        intros [H | [n' [Hn _]]]; discriminate.
  - intros Htouch sel opts c evs w.
    assert (Hw : w = page e c (newInstance sel opts)).
    { subst w. unfold construct, init, shouldInitialize. simpl env.
      now rewrite Htouch. }
    pose proof (page_Uninitialized sel opts e c) as U.
    rewrite <- Hw in U.
    destruct (uninitialized_run evs w U) as (U' & Hd & _).
    assert (Hdom : dom w = (c, [])) by now rewrite Hw.
    repeat split; try apply U; try apply U'; congruence.
Qed.

Lemma eligibility_gate_witness :
  touchCapable tablet = true /\
  Uninitialized (run [Resize 1920 (layout desktop); MotionChange false; Frame]
                     (fst (construct ".hero-title" noOptions tablet
                                     (Some (heroTitle "Hello World Foo"))))).
Proof.
  split; [lazy; reflexivity |].
  exact (proj1 (proj2 (proj2
    (proj2 (proj2 (proj2 (eligibility_gate tablet))) eq_refl
       ".hero-title"%string noOptions (Some (heroTitle "Hello World Foo"))
       [Resize 1920 (layout desktop); MotionChange false; Frame])))).
Defined.

(** C9: when the gate passes but the selector resolves to no element,
    [init] returns normally after logging one warning; no element is
    held, no span is created, no words or geometry exist, nothing is
    registered or scheduled, and no later event changes that. *)
Theorem target_not_found (sel : string) (opts : OptionsArg) (e : Env)
    (evs : list Event) :
  shouldInitialize e = true ->
  let r := construct sel opts e None in
  snd r = Normal /\
  console (fst r) = [warning sel] /\
  Uninitialized (fst r) /\ dom (fst r) = (None, []) /\
  Uninitialized (run evs (fst r)) /\ dom (run evs (fst r)) = (None, []) /\
  console (run evs (fst r)) = [warning sel].
Proof.
  intros Hgate r.
  assert (Hr : r = (setConsole [warning sel]
                      (page e None (newInstance sel opts)), Normal)).
  { subst r. unfold construct, init. simpl env. rewrite Hgate. reflexivity. }
  rewrite Hr. simpl fst. simpl snd.
  assert (U : Uninitialized (setConsole [warning sel]
                               (page e None (newInstance sel opts))))
    by (repeat split).
  destruct (uninitialized_run evs _ U) as (U' & Hd & Hc).
  repeat split; try apply U; try apply U'; assumption.
Qed.

Lemma target_not_found_witness :
  shouldInitialize desktop = true /\
  console (fst (construct ".missing" noOptions desktop None))
    = [warning ".missing"].
Proof.
  split; [lazy; reflexivity |].
  exact (proj1 (proj2 (target_not_found ".missing" noOptions desktop []
                         eq_refl))).
Defined.

(** * Further properties of the lifecycle *)

(** ** Steps either keep the words or tear the instance down *)

Lemma Quiet_refl (w : World) : Quiet w w.
Proof. repeat split. Qed.

Lemma Quiet_trans (w1 w2 w3 : World) :
  Quiet w1 w2 -> Quiet w2 w3 -> Quiet w1 w3.
Proof.
  intros (S & A1 & A2 & A3 & A4) (S' & B1 & B2 & B3 & B4).
  split; [now apply sameText_trans with w2 |].
  repeat split; congruence.
Qed.

Lemma forEachSpan_Quiet (f : Span -> Span) (ws : list nat) (w : World) :
  keepsText f -> Quiet w (forEachSpan f ws w).
Proof.
  intros Hf. split; [now apply forEachSpan_sameText |].
  rewrite forEachSpan_eq. repeat split.
Qed.

Lemma cancel_Quiet (w : World) :
  Quiet w match rafId (self w) with
          | Some h => onSelf (setRafId None) (cancelAnimationFrame h w)
          | None => w
          end.
Proof. destruct (rafId (self w)); repeat split. Qed.

Lemma reset_Quiet (w : World) : Quiet w (reset w).
Proof.
  unfold reset.
  set (w1 := forEachSpan _ _ w).
  assert (H1 : Quiet w w1)
    by (apply forEachSpan_Quiet, keepsText_setTransform).
  destruct (isActive (self w1)); [| assumption].
  apply Quiet_trans with w1; [assumption | repeat split].
Qed.

Lemma handleMouseLeave_Quiet (w : World) : Quiet w (handleMouseLeave w).
Proof.
  unfold handleMouseLeave.
  eapply Quiet_trans; [apply cancel_Quiet | apply reset_Quiet].
Qed.

Lemma handleMouseMove_Quiet (x y : R) (w : World) :
  Quiet w (handleMouseMove x y w).
Proof.
  destruct (rafId (self w)) as [h |] eqn:E.
  - rewrite (handleMouseMove_pending x y w h E). apply Quiet_refl.
  - rewrite handleMouseMove_idle by assumption. cbv zeta.
    destruct (isActive (self w)); [repeat split |].
    eapply Quiet_trans;
      [| apply forEachSpan_Quiet, keepsText_setActiveClass].
    repeat split.
Qed.

Lemma handleResize_Quiet (w : World) : Quiet w (handleResize w).
Proof.
  unfold handleResize, setTimeout, clearTimeout.
  destruct (resizeTimeout (self w)); repeat split.
Qed.

Lemma frame_Quiet (t : string) (w : World) :
  Inv t w -> Quiet w (step Frame w).
Proof.
  intros H. pose proof (Inv_pendingFrame t w H) as Hpf.
  unfold pendingFrame in Hpf.
  destruct (rafId (self w)) as [h |] eqn:E.
  - destruct Hpf as [[x y] Hfr].
    rewrite (frame_pending x y h) by (try apply H; assumption).
    match goal with
    | |- Quiet _ (onSelf _ (setSpans ?sp ?W)) =>
        apply Quiet_trans with W; [repeat split |];
        apply Quiet_trans with (setSpans sp W); [| repeat split]
    end.
    split; [| repeat split].
    apply (forces_sameText _ _ (setFrames [] (nextFrame w) w)).
  - unfold step, runFrames. rewrite Hpf. repeat split.
Qed.

(** Every step either keeps the words, their texts and the listeners, or
    is a call of [destroy] on a state that kept them. *)
Lemma step_cases (t : string) (ev : Event) (w : World) :
  Inv t w ->
  Quiet w (step ev w) \/
  exists w0, Quiet w w0 /\ Inv t w0 /\ step ev w = destroy w0.
Proof.
  intros H. destruct ev as [x y | | nw nl | x y | m | | h].
  - left. simpl. destruct (onMouseMove w); [| apply Quiet_refl].
    apply handleMouseMove_Quiet.
  - left. simpl. destruct (onMouseLeave w); [| apply Quiet_refl].
    apply handleMouseLeave_Quiet.
  - left. simpl. destruct (onResize w); [| repeat split].
    eapply Quiet_trans; [| apply handleResize_Quiet]. repeat split.
  - left. repeat split.
  - simpl. destruct (onMotionChange w); [| left; repeat split].
    destruct m; [| left; repeat split].
    right. eexists. split; [| split; [| reflexivity]].
    + repeat split.
    + now apply setEnv_Inv.
  - left. now apply (frame_Quiet t).
  - simpl. destruct (findHandle h (timers w)) as [[delay cb] |];
      [| left; apply Quiet_refl].
    destruct cb; simpl.
    + destruct (shouldInitialize (env w)); simpl.
      * left. repeat split.
      * right. eexists. split; [| split; [| reflexivity]].
        -- repeat split.
        -- now apply setTimers_Inv.
    + left. rewrite forEachSpan_eq. split; [| repeat split].
      eapply sameText_trans;
        [| apply (setSpans_sameText _ (onSelf (setIsActive false)
                     (setTimers (removeHandle h (timers w)) (nextTimer w) w)))].
      * repeat split.
      * simpl. apply updateMany_length.
      * intros id. simpl. apply updateMany_text.
        apply Forall_forall. intros p Hp.
        apply in_map_iff in Hp. destruct Hp as [a [<- _]].
        apply keepsText_setActiveClass.
Qed.

(** ** What [destroy] leaves behind *)

Lemma destroy_facts (w : World) :
  onResize (destroy w) = false /\
  onMotionChange (destroy w) = onMotionChange w /\
  onMouseMove (destroy w) = (if heroSection w then false else onMouseMove w) /\
  onMouseLeave (destroy w) = (if heroSection w then false else onMouseLeave w) /\
  element (self (destroy w)) = element (self w) /\
  heroSection (destroy w) = heroSection w /\
  timers (destroy w) = timers w /\
  nextTimer (destroy w) = nextTimer w /\
  resizeTimeout (self (destroy w)) = resizeTimeout (self w) /\
  env (destroy w) = env w /\
  console (destroy w) = console w /\
  spans (destroy w) = spans w /\
  (container w = None -> container (destroy w) = None) /\
  (element (self w) = None -> container (destroy w) = container w) /\
  (container w <> None -> container (destroy w) <> None) /\
  isActive (self (destroy w)) = false.
Proof.
  unfold destroy, heroSection.
  destruct (rafId (self w));
    destruct (element (self w)) eqn:Ee;
    destruct (container w) as [c |] eqn:Ec;
    try destruct (inHeroSection c) eqn:Eh;
    repeat (progress (simpl; rewrite ?Ee, ?Ec, ?Eh));
    repeat split; try reflexivity; try discriminate; try contradiction.
Qed.

Lemma heroSection_sameText (w w' : World) :
  sameText w w' -> heroSection w' = heroSection w.
Proof.
  intros (_ & He & Hc & _). unfold heroSection. now rewrite He, Hc.
Qed.

Lemma ListenerInv_Quiet (w w' : World) :
  ListenerInv w -> Quiet w w' -> ListenerInv w'.
Proof.
  intros (L1 & L2 & L3) (S & Q1 & Q2 & Q3 & Q4).
  pose proof (heroSection_sameText w w' S) as Hh.
  destruct S as (_ & He & _).
  unfold ListenerInv. rewrite Q1, Q2, Q4, Hh, He. auto.
Qed.

Lemma ListenerInv_destroy (w : World) :
  ListenerInv w -> ListenerInv (destroy w).
Proof.
  intros (L1 & L2 & L3).
  destruct (destroy_facts w)
    as (_ & D2 & D3 & D4 & D5 & D6 & _).
  unfold ListenerInv. rewrite D2, D3, D4, D5, D6.
  destruct (heroSection w); repeat split; auto; discriminate.
Qed.

(** A property that quiet steps and [destroy] keep holds in every state
    reached from one where it holds. *)
Lemma quiet_invariant (t : string) (P : World -> Prop) :
  (forall w w', Inv t w -> P w -> Quiet w w' -> P w') ->
  (forall w, Inv t w -> P w -> P (destroy w)) ->
  forall (evs : list Event) (w : World), Inv t w -> P w -> P (run evs w).
Proof.
  intros HQ HD. unfold run.
  induction evs as [| ev rest IH]; intros w H HP; simpl; [assumption |].
  apply IH; [now apply step_Inv |].
  destruct (step_cases t ev w H) as [Hq | (w0 & Hq & H0 & Heq)].
  - now apply (HQ w).
  - rewrite Heq. apply HD; [assumption |]. now apply (HQ w).
Qed.

(** ** The constructor, on any page *)

Lemma forEachWord_other (ws : list string) :
  forall (index len : nat) (w : World),
  let w' := forEachWord ws index len w in
  onMouseMove w' = onMouseMove w /\ onMouseLeave w' = onMouseLeave w /\
  onResize w' = onResize w /\ onMotionChange w' = onMotionChange w /\
  timers w' = timers w /\ nextTimer w' = nextTimer w /\
  env w' = env w /\ console w' = console w /\
  isActive (self w') = isActive (self w) /\
  resizeTimeout (self w') = resizeTimeout (self w) /\
  options (self w') = options (self w) /\
  option_map inHeroSection (container w')
    = option_map inHeroSection (container w) /\
  option_map magneticEnabled (container w')
    = option_map magneticEnabled (container w).
Proof.
  induction ws as [| word rest IH]; intros index len w; simpl.
  - repeat split.
  - match goal with
    | |- context [forEachWord rest (S index) len ?w4] =>
        specialize (IH (S index) len w4); set (W := w4) in *
    end.
    cbv zeta in IH.
    destruct IH as (I1 & I2 & I3 & I4 & I5 & I6 & I7 & I8 & I9 & I10 & I11
                    & I12 & I13).
    rewrite I1, I2, I3, I4, I5, I6, I7, I8, I9, I10, I11, I12, I13.
    subst W. destruct (index <? len - 1)%nat; simpl;
      destruct (container w); repeat split.
Qed.

Lemma construct_aborted (sel : string) (opts : OptionsArg) (e : Env)
    (c : option Container) :
  shouldInitialize e = false \/ c = None ->
  Uninitialized (fst (construct sel opts e c)) /\
  dom (fst (construct sel opts e c)) = (c, []).
Proof.
  intros Hab. unfold construct, init. simpl env.
  destruct (shouldInitialize e); simpl.
  - destruct Hab as [Hab | ->]; [discriminate |]. simpl. repeat split.
  - repeat split.
Qed.

Lemma Uninitialized_Inv (t : string) (w : World) :
  Uninitialized w -> Inv t w.
Proof.
  intros (U1 & U2 & U3 & U4 & _ & _ & _ & _ & _ & _ & U11 & _).
  unfold Inv, pendingFrame. rewrite U2, U3, U4, U11.
  repeat split; try constructor. all: contradiction.
Qed.

Lemma construct_Inv_any (sel : string) (opts : OptionsArg) (e : Env)
    (c : option Container) :
  Inv (getTextContent (page e c (newInstance sel opts)))
      (fst (construct sel opts e c)).
Proof.
  destruct c as [c |]; [apply construct_Inv |].
  apply Uninitialized_Inv, construct_aborted. now right.
Qed.

Lemma reachable_Inv_any (sel : string) (opts : OptionsArg) (e : Env)
    (c : option Container) (evs : list Event) :
  Inv (getTextContent (page e c (newInstance sel opts)))
      (run evs (fst (construct sel opts e c))).
Proof. apply run_Inv, construct_Inv_any. Qed.

Lemma construct_ListenerInv (sel : string) (opts : OptionsArg) (e : Env)
    (c : option Container) :
  ListenerInv (fst (construct sel opts e c)).
Proof.
  destruct (shouldInitialize e) eqn:Eg.
  - destruct c as [c |].
    + unfold construct, init. simpl env. rewrite Eg. simpl negb. cbv iota.
      cbn [container page fst].
      unfold setupReducedMotionListener, setupEventListeners.
      set (w3 := cacheBoundingRects _).
      assert (Hm : onMouseMove w3 = false /\ onMouseLeave w3 = false).
      { subst w3. unfold splitTextIntoWords. simpl.
        match goal with
        | |- context [forEachWord ?ws 0 ?len ?w] =>
            destruct (forEachWord_other ws 0 len w) as (I1 & I2 & _)
        end.
        now rewrite I1, I2. }
      destruct Hm as (Hm1 & Hm2). clearbody w3.
      unfold ListenerInv.
      destruct (heroSection w3) eqn:Eh; simpl; rewrite ?Hm1, ?Hm2;
        repeat split; try discriminate; intros _; exact Eh.
    + destruct (construct_aborted sel opts e None (or_intror eq_refl))
        as ((U1 & _ & _ & _ & _ & _ & U7 & U8 & _) & _).
      unfold ListenerInv. rewrite U1, U7, U8.
      repeat split; try discriminate. contradiction.
  - destruct (construct_aborted sel opts e c (or_introl Eg))
      as ((U1 & _ & _ & _ & _ & _ & U7 & U8 & _) & _).
    unfold ListenerInv. rewrite U1, U7, U8.
    repeat split; try discriminate. contradiction.
Qed.

Lemma reachable_ListenerInv (sel : string) (opts : OptionsArg) (e : Env)
    (c : option Container) (evs : list Event) :
  ListenerInv (run evs (fst (construct sel opts e c))).
Proof.
  apply (quiet_invariant (getTextContent (page e c (newInstance sel opts)))).
  - intros w w' _ HP Hq. now apply (ListenerInv_Quiet w).
  - intros w _ HP. now apply ListenerInv_destroy.
  - apply construct_Inv_any.
  - apply construct_ListenerInv.
Qed.

(** ** Reachable states *)

(** X1: in every state reached from the constructor, [wordRects] has as
    many entries as [words], so the frame callback never destructures an
    undefined rectangle: it always completes without throwing. *)
Theorem frame_callback_completes (sel : string) (opts : OptionsArg) (e : Env)
    (c : option Container) (evs : list Event) (cb : FrameCallback)
    (mouseX mouseY : R) :
  let w := run evs (fst (construct sel opts e c)) in
  List.length (wordRects (self w)) = List.length (words (self w)) /\
  snd (updateWordPositions mouseX mouseY w) = Normal /\
  snd (runFrameCallback cb w) = Normal.
Proof.
  intros w.
  pose proof (reachable_Inv_any sel opts e c evs) as H. fold w in H.
  pose proof (Inv_parallel _ w H) as Hlen.
  split; [assumption |]. split.
  - now rewrite updateWordPositions_eq.
  - destruct cb as [x y]. unfold runFrameCallback.
    now rewrite updateWordPositions_eq.
Qed.

(** X2: in every state reached from the constructor at most one frame
    callback is pending, it is the one whose handle [rafId] holds, and
    [rafId] is null exactly when none is pending. *)
Theorem at_most_one_pending_frame (sel : string) (opts : OptionsArg) (e : Env)
    (c : option Container) (evs : list Event) :
  let w := run evs (fst (construct sel opts e c)) in
  (List.length (frames w) <= 1)%nat /\
  (rafId (self w) = None <-> frames w = []) /\
  (forall h cb, In (h, cb) (frames w) -> rafId (self w) = Some h).
Proof.
  intros w.
  pose proof (Inv_pendingFrame _ w (reachable_Inv_any sel opts e c evs)) as H.
  unfold pendingFrame in H.
  destruct (rafId (self w)) as [h |].
  - destruct H as [cb H]. rewrite H. simpl. split; [lia |]. split.
    + split; discriminate.
    + intros h' cb' [Heq | []]. now injection Heq as -> _.
  - rewrite H. simpl. split; [lia |]. split; [tauto |]. intros h cb [].
Qed.

(** ** After [destroy] *)

Lemma destroy_text_empty (w : World) (r : ElementRef) :
  element (self w) = Some r -> container w <> None -> words (self w) = [] ->
  getTextContent (destroy w) = EmptyString.
Proof.
  intros He Hc Hw. destruct (container w) as [c |] eqn:Ec; [| contradiction].
  rewrite (destroy_text w r c He Ec). now rewrite Hw.
Qed.

Lemma step_MotionChange_true (w : World) :
  onMotionChange w = true ->
  step (MotionChange true) w = destroy (setEnv (motionEnv true (env w)) w).
Proof. intros H. simpl. now rewrite H. Qed.

(** X3: the reduced-motion listener is never removed.  After [destroy]
    on an instance that held its words, the listener is still registered;
    a second [destroy], or a later change to reduced motion, runs the
    teardown on the emptied [words] and leaves the container with the
    empty text. *)
Theorem motion_listener_survives_destroy (sel : string) (opts : OptionsArg)
    (e : Env) (c : Container) (evs : list Event) :
  let w := run evs (fst (construct sel opts e (Some c))) in
  words (self w) <> [] ->
  onMotionChange (destroy w) = true /\
  getTextContent (destroy (destroy w)) = EmptyString /\
  getTextContent (step (MotionChange true) (destroy w)) = EmptyString.
Proof.
  intros w Hheld.
  destruct (reachable_Inv sel opts e c evs) as (_ & _ & _ & _ & Htext).
  fold w in Htext. destruct (Htext Hheld) as (He & Hc & _).
  destruct (reachable_ListenerInv sel opts e (Some c) evs) as (_ & _ & L3).
  fold w in L3.
  assert (Hm : onMotionChange w = true) by (apply L3; congruence).
  destruct (destroy_facts w)
    as (_ & D2 & _ & _ & D5 & _ & _ & _ & _ & _ & _ & _ & _ & _ & D15 & _).
  assert (Hm' : onMotionChange (destroy w) = true) by congruence.
  split; [assumption |]. split.
  - apply (destroy_text_empty _ ContainerRef); [congruence | auto |].
    apply destroy_words.
  - rewrite (step_MotionChange_true _ Hm').
    apply (destroy_text_empty _ ContainerRef);
      [ change (element (self (destroy w)) = Some ContainerRef); congruence
      | change (container (destroy w) <> None); auto
      | apply destroy_words ].
Qed.

Lemma motion_listener_survives_destroy_witness :
  let w := run [MouseMove 5 5; Frame]
               (fst (construct ".hero-title" noOptions desktop
                               (Some (heroTitle "Hello World Foo")))) in
  words (self w) <> [] /\
  getTextContent (step (MotionChange true) (destroy w)) = EmptyString.
Proof.
  intros w.
  assert (H : words (self w) <> []) by (subst w; lazy; discriminate).
  split; [exact H |].
  exact (proj2 (proj2 (motion_listener_survives_destroy ".hero-title"
                         noOptions desktop (heroTitle "Hello World Foo")
                         _ H))).
Defined.

(** X4: [destroy] on any state reached from the constructor removes the
    pointer and resize listeners: afterwards pointer moves and leaves
    change nothing, and a window resize schedules no timer and leaves the
    instance as it is. *)
Theorem destroy_detaches_listeners (sel : string) (opts : OptionsArg)
    (e : Env) (c : option Container) (evs : list Event) (x y : R) (nw : Z)
    (nl : nat -> DOMRect) :
  let w := destroy (run evs (fst (construct sel opts e c))) in
  onMouseMove w = false /\ onMouseLeave w = false /\ onResize w = false /\
  step (MouseMove x y) w = w /\ step MouseLeave w = w /\
  self (step (Resize nw nl) w) = self w /\
  timers (step (Resize nw nl) w) = timers w.
Proof.
  intros w.
  destruct (reachable_ListenerInv sel opts e c evs) as (L1 & L2 & _).
  destruct (destroy_facts (run evs (fst (construct sel opts e c))))
    as (D1 & _ & D3 & D4 & _).
  fold w in D1, D3, D4.
  assert (Hm : onMouseMove w = false).
  { rewrite D3. destruct (heroSection _); [reflexivity |].
    destruct (onMouseMove _); [symmetry; now apply L1 | reflexivity]. }
  assert (Hl : onMouseLeave w = false).
  { rewrite D4. destruct (heroSection _); [reflexivity |].
    destruct (onMouseLeave _); [symmetry; now apply L2 | reflexivity]. }
  clearbody w.
  repeat split; try assumption; simpl; rewrite ?Hm, ?Hl, ?D1; reflexivity.
Qed.

(** X5: when [init] gave up, because the gate failed or the selector
    found nothing, [destroy] never touches the document: the container
    is exactly as the page had it, no span exists, and the instance is
    still uninitialized. *)
Theorem destroy_without_element (sel : string) (opts : OptionsArg) (e : Env)
    (c : option Container) (evs : list Event) :
  shouldInitialize e = false \/ c = None ->
  let w := run evs (fst (construct sel opts e c)) in
  dom (destroy w) = (c, []) /\ Uninitialized (destroy w).
Proof.
  intros Hab w.
  destruct (construct_aborted sel opts e c Hab) as (U0 & Hd0).
  destruct (uninitialized_run evs _ U0) as (U & Hd & _). fold w in U, Hd.
  rewrite Hd0 in Hd.
  destruct U as (U1 & U2 & U3 & U4 & U5 & U6 & U7 & U8 & U9 & U10 & U11 & U12).
  destruct (destroy_facts w)
    as (D1 & D2 & D3 & D4 & D5 & D6 & D7 & D8 & D9 & D10 & D11 & D12 & D13
        & D14 & D15 & D16).
  assert (Hh : heroSection w = false) by (unfold heroSection; now rewrite U1).
  rewrite Hh in D3, D4.
  split.
  - unfold dom in *. rewrite D12, (D14 U1). exact Hd.
  - unfold Uninitialized.
    rewrite destroy_words, destroy_wordRects, destroy_rafId.
    rewrite destroy_frames by (unfold pendingFrame; now rewrite U4).
    repeat split; congruence.
Qed.

Lemma destroy_without_element_witness :
  (shouldInitialize tablet = false \/
   Some (heroTitle "Hello World Foo") = None) /\
  dom (destroy (run [Resize 800 (layout desktop)]
                    (fst (construct ".hero-title" noOptions tablet
                                    (Some (heroTitle "Hello World Foo"))))))
  = (Some (heroTitle "Hello World Foo"), []).
Proof.
  assert (H : shouldInitialize tablet = false \/
              Some (heroTitle "Hello World Foo") = None)
    by (left; lazy; reflexivity).
  split; [exact H |].
  exact (proj1 (destroy_without_element ".hero-title" noOptions tablet
                  (Some (heroTitle "Hello World Foo"))
                  [Resize 800 (layout desktop)] H)).
Defined.

(** ** The timer queue *)

Lemma removeHandle_In {A : Type} (h : positive) (l : list (positive * A))
    (e : positive * A) :
  In e (removeHandle h l) -> In e l /\ fst e <> h.
Proof.
  unfold removeHandle. rewrite filter_In. intros [Hin Hne].
  split; [assumption |]. intros Heq.
  rewrite Heq, Pos.eqb_refl in Hne. discriminate.
Qed.

Lemma removeHandle_NoDup {A : Type} (h : positive) (l : list (positive * A)) :
  NoDup (map fst l) -> NoDup (map fst (removeHandle h l)).
Proof.
  unfold removeHandle. induction l as [| e rest IH]; simpl; intros Hnd.
  - constructor.
  - inversion Hnd as [| ? ? Hnotin Hnd']; subst.
    destruct (negb (fst e =? h)%positive); simpl; [| now apply IH].
    constructor; [| now apply IH].
    intros Hin. apply Hnotin.
    apply in_map_iff in Hin. destruct Hin as [e' [He' Hin]].
    apply filter_In in Hin. apply in_map_iff. exists e'. tauto.
Qed.

Lemma filter_none {A : Type} (f : A -> bool) (l : list A) :
  (forall e, In e l -> f e = false) -> filter f l = [].
Proof.
  induction l as [| x rest IH]; intros H; simpl; [reflexivity |].
  rewrite (H x (or_introl eq_refl)). apply IH.
  intros e He. apply H. now right.
Qed.

Lemma TimerInv_same (w w' : World) :
  timers w' = timers w -> nextTimer w' = nextTimer w ->
  resizeTimeout (self w') = resizeTimeout (self w) ->
  TimerInv w -> TimerInv w'.
Proof. unfold TimerInv. intros -> -> ->. auto. Qed.

Lemma TimerInv_remove (h : positive) (w : World) :
  TimerInv w ->
  TimerInv (setTimers (removeHandle h (timers w)) (nextTimer w) w).
Proof.
  intros (T1 & T2 & T3). unfold TimerInv; simpl. repeat split.
  - rewrite Forall_forall in *. intros e He.
    apply removeHandle_In in He. now apply T1.
  - now apply removeHandle_NoDup.
  - intros e He. apply removeHandle_In in He. now apply T3.
Qed.

Lemma fresh_handle (w : World) :
  Forall (fun e => (fst e < nextTimer w)%positive) (timers w) ->
  ~ In (nextTimer w) (map fst (timers w)).
Proof.
  intros T1 Hin. apply in_map_iff in Hin. destruct Hin as [e [He Hin]].
  rewrite Forall_forall in T1. specialize (T1 e Hin). lia.
Qed.

Lemma NoDup_snoc {A : Type} (l : list A) (x : A) :
  NoDup l -> ~ In x l -> NoDup (l ++ [x]).
Proof.
  intros Hnd Hx. apply NoDup_app; [assumption | repeat constructor; intros [] |].
  intros a Ha [Hb | []]. now subst.
Qed.

Lemma TimerInv_clearActive (delay : R) (w : World) :
  TimerInv w -> TimerInv (snd (setTimeout ClearActive delay w)).
Proof.
  intros (T1 & T2 & T3). unfold TimerInv, setTimeout; simpl. repeat split.
  - apply Forall_app. split.
    + eapply Forall_impl; [| exact T1]. simpl. intros e He. lia.
    + repeat constructor. simpl. lia.
  - rewrite map_app. simpl. apply NoDup_snoc; [assumption |].
    now apply fresh_handle.
  - intros e He Hr. apply in_app_or in He. destruct He as [He | [<- | []]].
    + now apply T3.
    + discriminate.
Qed.

(** After [handleResize] exactly one resize timer is pending: the new
    one. *)
Lemma handleResize_timers (w : World) :
  TimerInv w ->
  TimerInv (handleResize w) /\
  filter isResizeSettled (timers (handleResize w))
    = [(nextTimer w, (150, ResizeSettled))] /\
  resizeTimeout (self (handleResize w)) = Some (nextTimer w).
Proof.
  intros (T1 & T2 & T3).
  set (old := match resizeTimeout (self w) with
              | Some h => removeHandle h (timers w)
              | None => timers w
              end).
  assert (Hw : timers (handleResize w)
               = old ++ [(nextTimer w, (150, ResizeSettled))] /\
               nextTimer (handleResize w) = Pos.succ (nextTimer w) /\
               resizeTimeout (self (handleResize w)) = Some (nextTimer w)).
  { unfold handleResize, clearTimeout, setTimeout. subst old.
    destruct (resizeTimeout (self w)); repeat split. }
  destruct Hw as (Ht & Hn & Hr).
  assert (Hsub : forall e, In e old -> In e (timers w) /\
                           Some (fst e) <> resizeTimeout (self w)).
  { subst old. intros e He. destruct (resizeTimeout (self w)) as [h |].
    - apply removeHandle_In in He. split; [tauto |]. intros [=]. tauto.
    - split; [assumption | discriminate]. }
  assert (Hnone : filter isResizeSettled old = []).
  { apply filter_none.
    intros e He. destruct (Hsub e He) as (Hin & Hne).
    destruct (isResizeSettled e) eqn:Er; [| reflexivity].
    exfalso. apply Hne. symmetry. now apply T3. }
  assert (Hnd : NoDup (map fst old)).
  { subst old. destruct (resizeTimeout (self w));
      [now apply removeHandle_NoDup | assumption]. }
  split; [| split; [| assumption]].
  - unfold TimerInv. rewrite Ht, Hn, Hr. repeat split.
    + apply Forall_app. split.
      * rewrite Forall_forall in *. intros e He.
        destruct (Hsub e He) as (Hin & _). specialize (T1 e Hin). lia.
      * repeat constructor. simpl. lia.
    + rewrite map_app. simpl. apply NoDup_snoc; [assumption |].
      intros Hin. apply in_map_iff in Hin. destruct Hin as [e [He Hin]].
      destruct (Hsub e Hin) as (Hin' & _).
      rewrite Forall_forall in T1. specialize (T1 e Hin'). lia.
    + intros e He Her. apply in_app_or in He.
      destruct He as [He | [<- | []]]; [| reflexivity].
      assert (In e (filter isResizeSettled old)) by (apply filter_In; tauto).
      rewrite Hnone in H. contradiction.
  - rewrite Ht, filter_app, Hnone. reflexivity.
Qed.

Lemma handleMouseMove_timers (x y : R) (w : World) :
  timers (handleMouseMove x y w) = timers w /\
  nextTimer (handleMouseMove x y w) = nextTimer w /\
  resizeTimeout (self (handleMouseMove x y w)) = resizeTimeout (self w).
Proof.
  destruct (rafId (self w)) as [h |] eqn:E.
  - rewrite (handleMouseMove_pending x y w h E). repeat split.
  - rewrite handleMouseMove_idle by assumption. cbv zeta.
    destruct (isActive (self w)); [repeat split |].
    rewrite forEachSpan_eq. repeat split.
Qed.

Lemma handleMouseLeave_TimerInv (w : World) :
  TimerInv w -> TimerInv (handleMouseLeave w).
Proof.
  intros T. unfold handleMouseLeave, reset.
  set (w1 := match rafId (self w) with
             | Some h => onSelf (setRafId None) (cancelAnimationFrame h w)
             | None => w
             end).
  assert (T1 : TimerInv w1).
  { subst w1. destruct (rafId (self w)); [| assumption].
    now apply (TimerInv_same w). }
  clearbody w1.
  set (w2 := forEachSpan _ _ w1).
  assert (T2 : TimerInv w2).
  { subst w2. rewrite forEachSpan_eq. now apply (TimerInv_same w1). }
  clearbody w2.
  destruct (isActive (self w2)); [| assumption].
  now apply TimerInv_clearActive.
Qed.

Lemma runTimerCallback_timers (cb : TimerCallback) (w : World) :
  timers (runTimerCallback cb w) = timers w /\
  nextTimer (runTimerCallback cb w) = nextTimer w /\
  resizeTimeout (self (runTimerCallback cb w)) = resizeTimeout (self w).
Proof.
  destruct cb; simpl.
  - destruct (shouldInitialize (env w)); simpl; [repeat split |].
    destruct (destroy_facts w)
      as (_ & _ & _ & _ & _ & _ & D7 & D8 & D9 & _).
    auto.
  - rewrite forEachSpan_eq. repeat split.
Qed.

Lemma step_TimerInv (t : string) (ev : Event) (w : World) :
  Inv t w -> TimerInv w -> TimerInv (step ev w).
Proof.
  intros H T. destruct ev as [x y | | nw nl | x y | m | | h].
  - simpl. destruct (onMouseMove w); [| assumption].
    destruct (handleMouseMove_timers x y w) as (A & B & C).
    now apply (TimerInv_same w).
  - simpl. destruct (onMouseLeave w); [| assumption].
    now apply handleMouseLeave_TimerInv.
  - simpl. destruct (onResize w).
    + apply handleResize_timers. now apply (TimerInv_same w).
    + now apply (TimerInv_same w).
  - now apply (TimerInv_same w).
  - simpl. destruct (onMotionChange w); [| now apply (TimerInv_same w)].
    destruct m; [| now apply (TimerInv_same w)].
    destruct (destroy_facts (setEnv (motionEnv true (env w)) w))
      as (_ & _ & _ & _ & _ & _ & D7 & D8 & D9 & _).
    now apply (TimerInv_same w).
  - pose proof (Inv_pendingFrame t w H) as Hpf. unfold pendingFrame in Hpf.
    destruct (rafId (self w)) as [h |] eqn:E.
    + destruct Hpf as [[x y] Hfr].
      rewrite (frame_pending x y h) by (try apply H; assumption).
      now apply (TimerInv_same w).
    + unfold step, runFrames. rewrite Hpf. now apply (TimerInv_same w).
  - simpl. destruct (findHandle h (timers w)) as [[delay cb] |];
      [| assumption].
    destruct (runTimerCallback_timers cb
                (setTimers (removeHandle h (timers w)) (nextTimer w) w))
      as (A & B & C).
    eapply TimerInv_same; [exact A | exact B | exact C |].
    now apply TimerInv_remove.
Qed.

Lemma construct_TimerInv (sel : string) (opts : OptionsArg) (e : Env)
    (c : option Container) :
  TimerInv (fst (construct sel opts e c)).
Proof.
  assert (Hempty : forall w, timers w = [] -> TimerInv w).
  { intros w Hw. unfold TimerInv. rewrite Hw. repeat split;
      try constructor. intros e' []. }
  apply Hempty.
  destruct (shouldInitialize e) eqn:Eg.
  - destruct c as [c |].
    + unfold construct, init. simpl env. rewrite Eg. simpl negb. cbv iota.
      cbn [container page fst].
      unfold setupReducedMotionListener, setupEventListeners.
      set (w3 := cacheBoundingRects _).
      assert (Ht : timers w3 = []).
      { subst w3. unfold splitTextIntoWords. simpl.
        match goal with
        | |- context [forEachWord ?ws 0 ?len ?w] =>
            destruct (forEachWord_other ws 0 len w)
              as (_ & _ & _ & _ & I5 & _)
        end.
        now rewrite I5. }
      clearbody w3. destruct (heroSection w3); exact Ht.
    + apply (construct_aborted sel opts e None (or_intror eq_refl)).
  - apply (construct_aborted sel opts e c (or_introl Eg)).
Qed.

Lemma reachable_TimerInv (sel : string) (opts : OptionsArg) (e : Env)
    (c : option Container) (evs : list Event) :
  TimerInv (run evs (fst (construct sel opts e c))).
Proof.
  set (t := getTextContent (page e c (newInstance sel opts))).
  assert (H : forall evs w, Inv t w -> TimerInv w -> TimerInv (run evs w)).
  { unfold run. clear evs. intros evs.
    induction evs as [| ev rest IH]; intros w Hi Ht; simpl; [assumption |].
    apply IH; [now apply step_Inv | now apply (step_TimerInv t)]. }
  apply H; [apply construct_Inv_any | apply construct_TimerInv].
Qed.

Lemma single_resize_timer (l : list (positive * (R * TimerCallback)))
    (h : option positive) :
  NoDup (map fst l) ->
  (forall e, In e l -> isResizeSettled e = true -> h = Some (fst e)) ->
  (List.length (filter isResizeSettled l) <= 1)%nat.
Proof.
  intros Hnd Hh.
  induction l as [| e rest IH]; simpl; [lia |].
  inversion Hnd as [| ? ? Hnotin Hnd']; subst.
  assert (IH' := IH Hnd' (fun e' He' => Hh e' (or_intror He'))).
  destruct (isResizeSettled e) eqn:Er; [| assumption].
  simpl. assert (Hnone : filter isResizeSettled rest = []).
  { apply filter_none.
    intros e' He'. destruct (isResizeSettled e') eqn:Er'; [| reflexivity].
    exfalso. apply Hnotin.
    assert (Some (fst e) = Some (fst e')).
    { rewrite <- (Hh e (or_introl eq_refl) Er).
      now apply Hh; [right |]. }
    injection H as ->. now apply in_map. }
  rewrite Hnone. simpl. lia.
Qed.

(** X6: in every state reached from the constructor the timer handles are
    pairwise distinct and at most one resize timer is pending; when one
    is, [resizeTimeout] holds its handle. *)
Theorem at_most_one_resize_timer (sel : string) (opts : OptionsArg) (e : Env)
    (c : option Container) (evs : list Event) :
  let w := run evs (fst (construct sel opts e c)) in
  NoDup (map fst (timers w)) /\
  (List.length (filter isResizeSettled (timers w)) <= 1)%nat /\
  (forall h delay, In (h, (delay, ResizeSettled)) (timers w) ->
                   resizeTimeout (self w) = Some h).
Proof.
  intros w.
  destruct (reachable_TimerInv sel opts e c evs) as (T1 & T2 & T3).
  fold w in T1, T2, T3.
  split; [assumption |]. split.
  - now apply (single_resize_timer _ (resizeTimeout (self w))).
  - intros h delay Hin. now apply (T3 _ Hin).
Qed.

(** X7: every window resize that reaches the instance restarts the settle
    timer: whatever was pending before, afterwards exactly one resize
    timer is pending, a new one with a delay of 150, and [resizeTimeout]
    holds its handle. *)
Theorem resize_restarts_timer (sel : string) (opts : OptionsArg) (e : Env)
    (c : option Container) (evs : list Event) (nw : Z)
    (nl : nat -> DOMRect) :
  let w := run evs (fst (construct sel opts e c)) in
  let w' := step (Resize nw nl) w in
  onResize w = true ->
  filter isResizeSettled (timers w') = [(nextTimer w, (150, ResizeSettled))] /\
  resizeTimeout (self w') = Some (nextTimer w) /\
  ~ In (nextTimer w) (map fst (timers w)).
Proof.
  intros w w' Hon.
  pose proof (reachable_TimerInv sel opts e c evs) as T. fold w in T.
  assert (Hw' : w' = handleResize (setEnv (resizeEnv nw nl (env w)) w)).
  { subst w'. simpl. now rewrite Hon. }
  assert (T' : TimerInv (setEnv (resizeEnv nw nl (env w)) w))
    by now apply (TimerInv_same w).
  destruct (handleResize_timers _ T') as (_ & Hf & Hr).
  rewrite Hw'. split; [exact Hf |]. split; [exact Hr |].
  apply fresh_handle, T.
Qed.

Lemma resize_restarts_timer_witness :
  let w := run [Resize 1300 (layout desktop); Resize 1200 (layout desktop)]
               helloPage in
  onResize w = true /\
  filter isResizeSettled (timers (step (Resize 1100 (layout desktop)) w))
    = [(3%positive, (150, ResizeSettled))].
Proof.
  intros w.
  assert (H : onResize w = true) by (subst w; lazy; reflexivity).
  split; [exact H |].
  exact (proj1 (resize_restarts_timer ".hero-title" noOptions desktop
                  (Some (heroTitle "Hello World Foo"))
                  [Resize 1300 (layout desktop); Resize 1200 (layout desktop)]
                  1100 (layout desktop) H)).
Defined.

(** ** Pointer leave *)

Lemma combine_constant (f : Span -> Span) (ws : list nat) :
  map (fun id => (id, f)) ws = combine ws (map (fun _ => f) ws).
Proof. induction ws as [| a rest IH]; simpl; [reflexivity | now rewrite IH]. Qed.

Lemma reset_transforms (t : string) (w : World) :
  Inv t w ->
  wordTransforms (reset w)
    = map (fun _ => Some zeroTranslate) (words (self w)) /\
  self (reset w) = self w /\ frames (reset w) = frames w.
Proof.
  intros (Hnd & Hrange & _). unfold reset.
  rewrite forEachSpan_eq.
  set (sp := updateMany _ (spans w)).
  assert (Htr : map (fun word => match nth_error sp word with
                                 | Some s => transform s
                                 | None => None
                                 end) (words (self w))
                = map (fun _ => Some zeroTranslate) (words (self w))).
  { subst sp. rewrite combine_constant.
    rewrite <- (map_map (fun _ => zeroTranslate) setTransform).
    rewrite updateMany_transforms; try assumption.
    - now rewrite map_map.
    - now rewrite length_map. }
  clearbody sp.
  destruct (isActive (self (setSpans sp w))); repeat split; exact Htr.
Qed.

(** X8: a pointer leave that reaches the instance cancels the pending
    frame callback and puts every word back at the zero displacement; the
    next frame boundary then changes nothing. *)
Theorem pointer_leave_resets (sel : string) (opts : OptionsArg) (e : Env)
    (c : option Container) (evs : list Event) :
  let w := run evs (fst (construct sel opts e c)) in
  let w' := step MouseLeave w in
  onMouseLeave w = true ->
  wordTransforms w' = map (fun _ => Some zeroTranslate) (words (self w)) /\
  words (self w') = words (self w) /\
  rafId (self w') = None /\ frames w' = [] /\
  step Frame w' = w'.
Proof.
  intros w w' Hon.
  set (t := getTextContent (page e c (newInstance sel opts))).
  assert (H : Inv t w) by apply reachable_Inv_any.
  assert (Hw' : w' = handleMouseLeave w) by (subst w'; simpl; now rewrite Hon).
  clearbody w'. subst w'. unfold handleMouseLeave.
  pose proof (cancel_Inv t w H) as H1.
  set (w1 := match rafId (self w) with
             | Some h => onSelf (setRafId None) (cancelAnimationFrame h w)
             | None => w
             end) in *.
  assert (Hc : words (self w1) = words (self w) /\ rafId (self w1) = None)
    by (subst w1; destruct (rafId (self w)) eqn:E; auto).
  destruct Hc as (Hc1 & Hc2).
  assert (Hf : frames w1 = []).
  { pose proof (Inv_pendingFrame t w1 H1) as Hpf.
    unfold pendingFrame in Hpf. now rewrite Hc2 in Hpf. }
  clearbody w1.
  destruct (reset_transforms t w1 H1) as (R1 & R2 & R3).
  rewrite R2, R3, Hc1 in *.
  repeat split; try assumption.
  unfold step, runFrames. rewrite R3, Hf. simpl.
  rewrite <- Hf at 1. rewrite <- R3. now destruct (reset w1).
Qed.

Lemma pointer_leave_resets_witness :
  let w := run [MouseMove 5 5] helloPage in
  onMouseLeave w = true /\
  wordTransforms (step MouseLeave w)
    = [Some zeroTranslate; Some zeroTranslate; Some zeroTranslate].
Proof.
  intros w.
  assert (H : onMouseLeave w = true) by (subst w; lazy; reflexivity).
  split; [exact H |].
  exact (proj1 (pointer_leave_resets ".hero-title" noOptions desktop
                  (Some (heroTitle "Hello World Foo")) [MouseMove 5 5] H)).
Defined.

(** ** The settled resize *)

Lemma handleResize_eq (w : World) :
  timers (handleResize w)
  = match resizeTimeout (self w) with
    | Some h => removeHandle h (timers w)
    | None => timers w
    end ++ [(nextTimer w, (150, ResizeSettled))] /\
  words (self (handleResize w)) = words (self w) /\
  env (handleResize w) = env w.
Proof.
  unfold handleResize, clearTimeout, setTimeout.
  destruct (resizeTimeout (self w)); repeat split.
Qed.

Lemma findHandle_fresh {A : Type} (h : positive) (l : list (positive * A))
    (a : A) :
  ~ In h (map fst l) -> findHandle h (l ++ [(h, a)]) = Some a.
Proof.
  unfold findHandle. induction l as [| e rest IH]; simpl; intros Hnot.
  - now rewrite Pos.eqb_refl.
  - destruct (Pos.eqb_spec (fst e) h) as [Heq | Hne]; [tauto |].
    apply IH. tauto.
Qed.

Lemma handleResize_find (w : World) :
  TimerInv w ->
  findHandle (nextTimer w) (timers (handleResize w)) = Some (150, ResizeSettled).
Proof.
  intros (T1 & _). destruct (handleResize_eq w) as (-> & _).
  apply findHandle_fresh. intros Hin.
  apply in_map_iff in Hin. destruct Hin as [e [He Hin]].
  assert (Hin' : In e (timers w)).
  { destruct (resizeTimeout (self w));
      [now apply removeHandle_In in Hin | assumption]. }
  rewrite Forall_forall in T1. specialize (T1 e Hin'). lia.
Qed.

(** X9: when the settle timer of a resize elapses, the gate is evaluated
    again on the resized window.  If it passes, [wordRects] is rebuilt
    for the same words from the new layout and the current scroll
    offsets; if it fails, the instance is torn down: the words are
    dropped, the original text is back in the container, and the resize
    listener is gone. *)
Theorem resize_settles (sel : string) (opts : OptionsArg) (e : Env)
    (c : Container) (evs : list Event) (nw : Z) (nl : nat -> DOMRect) :
  let t := getTextContent (page e (Some c) (newInstance sel opts)) in
  let w := run evs (fst (construct sel opts e (Some c))) in
  let w1 := step (Resize nw nl) w in
  let w2 := step (TimerFire (nextTimer w)) w1 in
  onResize w = true -> words (self w) <> [] ->
  env w1 = resizeEnv nw nl (env w) /\
  (shouldInitialize (env w1) = true ->
   words (self w2) = words (self w) /\
   wordRects (self w2) = map (documentRect (env w1)) (words (self w))) /\
  (shouldInitialize (env w1) = false ->
   words (self w2) = [] /\ wordRects (self w2) = [] /\
   getTextContent w2 = t /\ onResize w2 = false).
Proof.
  intros t w w1 w2 Hon Hheld.
  assert (H : Inv t w) by apply reachable_Inv.
  pose proof (reachable_TimerInv sel opts e (Some c) evs) as T. fold w in T.
  set (w0 := setEnv (resizeEnv nw nl (env w)) w).
  assert (Hw1 : w1 = handleResize w0) by (subst w1 w0; simpl; now rewrite Hon).
  assert (T0 : TimerInv w0) by now apply (TimerInv_same w).
  assert (H1 : Inv t w1) by now apply step_Inv.
  destruct (handleResize_eq w0) as (_ & Hwords & Henv).
  pose proof (handleResize_find w0 T0) as Hfind.
  change (nextTimer w0) with (nextTimer w) in Hfind.
  rewrite <- Hw1 in Hwords, Henv, Hfind.
  change (words (self w0)) with (words (self w)) in Hwords.
  change (env w0) with (resizeEnv nw nl (env w)) in Henv.
  clearbody w1.
  set (W := setTimers (removeHandle (nextTimer w) (timers w1)) (nextTimer w1) w1).
  assert (Hw2 : w2 = runTimerCallback ResizeSettled W)
    by (subst w2 W; simpl; now rewrite Hfind).
  assert (HW : Inv t W) by now apply setTimers_Inv.
  split; [assumption |]. split.
  - intros Hgate. rewrite Hw2. unfold runTimerCallback.
    change (env W) with (env w1). rewrite Hgate. cbn [negb].
    change (words (self (cacheBoundingRects W))) with (words (self w1)).
    rewrite Hwords. split; [reflexivity |].
    unfold cacheBoundingRects. simpl.
    change (words (self W)) with (words (self w1)). now rewrite Hwords.
  - intros Hgate. rewrite Hw2. unfold runTimerCallback.
    change (env W) with (env w1). rewrite Hgate. cbn [negb].
    split; [apply destroy_words |]. split; [apply destroy_wordRects |].
    destruct HW as (_ & _ & _ & _ & Htext).
    change (words (self W)) with (words (self w1)) in Htext.
    rewrite Hwords in Htext. destruct (Htext Hheld) as (He & Hc & Hsplit).
    destruct (container W) as [c' |] eqn:Ec; [| contradiction].
    split.
    + rewrite (destroy_text W ContainerRef c' He Ec).
      change (words (self W)) with (words (self w1)).
      rewrite Hwords, Hsplit. apply join_split.
    + apply (destroy_facts W).
Qed.

Lemma resize_settles_witness :
  let w2 := run [Resize 800 (layout desktop); TimerFire 1] helloPage in
  onResize helloPage = true /\ words (self helloPage) <> [] /\
  words (self w2) = [] /\
  getTextContent w2 = "Hello World Foo"%string.
Proof.
  assert (H1 : onResize helloPage = true) by (lazy; reflexivity).
  assert (H2 : words (self helloPage) <> []) by (lazy; discriminate).
  pose proof (resize_settles ".hero-title" noOptions desktop
                (heroTitle "Hello World Foo") [] 800 (layout desktop) H1 H2)
    as (_ & _ & Hfail).
  specialize (Hfail eq_refl).
  split; [exact H1 |]. split; [exact H2 |].
  split; [exact (proj1 Hfail) | exact (proj1 (proj2 (proj2 Hfail)))].
Defined.

(** ** The segmenter and the text of the container *)

Lemma append_empty_r (s : string) : (s ++ EmptyString)%string = s.
Proof. induction s as [| c s IH]; simpl; [reflexivity | now rewrite IH]. Qed.

Lemma append_associative (a b c : string) :
  ((a ++ b) ++ c)%string = (a ++ (b ++ c))%string.
Proof. induction a as [| x a IH]; simpl; [reflexivity | now rewrite IH]. Qed.

Lemma concat_cons (x : string) (xs : list string) :
  String.concat EmptyString (x :: xs)
  = (x ++ String.concat EmptyString xs)%string.
Proof. destruct xs; simpl; [now rewrite append_empty_r | reflexivity]. Qed.

Lemma concat_app (a b : list string) :
  String.concat EmptyString (a ++ b)
  = (String.concat EmptyString a ++ String.concat EmptyString b)%string.
Proof.
  induction a as [| x a IH]; [reflexivity |].
  rewrite <- app_comm_cons, !concat_cons, IH.
  now rewrite append_associative.
Qed.

Lemma getTextContent_contentOf (w : World) :
  getTextContent w = String.concat EmptyString (map (nodeText w) (contentOf w)).
Proof. unfold getTextContent, contentOf. now destruct (container w). Qed.

Lemma getTextContent_sameText (w w' : World) :
  sameText w w' -> getTextContent w' = getTextContent w.
Proof.
  intros (_ & _ & Hc & _ & Ht). unfold getTextContent. rewrite Hc.
  destruct (container w) as [c |]; [| reflexivity].
  f_equal. apply map_ext. intros [s | id]; simpl; auto.
Qed.

(** The loop of the segmenter appends to the text of the container the
    pieces joined by single spaces, as [2n - 1] spans for [n] pieces. *)
Lemma forEachWord_text (ws : list string) :
  forall (index len : nat) (w : World),
  container w <> None ->
  (index + List.length ws = len)%nat ->
  (forall id, In (SpanNode id) (contentOf w) ->
              (id < List.length (spans w))%nat) ->
  let w' := forEachWord ws index len w in
  getTextContent w' = (getTextContent w ++ join ws)%string /\
  List.length (contentOf w')
    = (List.length (contentOf w) + (2 * List.length ws - 1))%nat.
Proof.
  induction ws as [| word rest IH]; intros index len w Hc Hlen Hrange.
  - simpl. rewrite append_empty_r. split; [reflexivity | lia].
  - simpl forEachWord. cbv zeta.
    destruct (container w) as [c |] eqn:Ec; [| contradiction].
    match goal with
    | |- context [forEachWord rest (S index) len ?w4] => set (W := w4)
    end.
    set (wordSpan := {| className := WordMagnetic; textContent := word;
                        hasActive := false; transform := None |}).
    set (spaceSpan := {| className := WordSpace; textContent := " ";
                         hasActive := false; transform := None |}).
    set (sep := if (index <? len - 1)%nat then [spaceSpan] else []).
    assert (HW : spans W = spans w ++ wordSpan :: sep /\
                 contentOf W
                 = contentOf w
                   ++ SpanNode (List.length (spans w))
                      :: map (fun _ => SpanNode (S (List.length (spans w)))) sep
                 /\ container W <> None).
    { subst W sep. unfold contentOf.
      destruct (index <? len - 1)%nat; simpl; rewrite Ec; simpl.
      - rewrite length_app, <- !app_assoc. simpl.
        rewrite Nat.add_1_r. repeat split. discriminate.
      - repeat split. discriminate. }
    destruct HW as (Hsp & Hct & HcW).
    assert (Hsep : sep = match rest with [] => [] | _ :: _ => [spaceSpan] end).
    { subst sep. simpl in Hlen.
      destruct rest; simpl in *.
      - replace (index <? len - 1)%nat with false; [reflexivity |].
        symmetry. apply Nat.ltb_ge. lia.
      - replace (index <? len - 1)%nat with true; [reflexivity |].
        symmetry. apply Nat.ltb_lt. lia. }
    clearbody sep W.
    assert (Hold : map (nodeText W) (contentOf w)
                   = map (nodeText w) (contentOf w)).
    { apply map_ext_in. intros [s | id] Hin; simpl; [reflexivity |].
      apply (spanText_stored w W (wordSpan :: sep)); auto. }
    assert (Hword : spanText W (List.length (spans w)) = word)
      by apply (spanText_created w W wordSpan sep Hsp).
    assert (Htext : getTextContent W
                    = (getTextContent w ++ word
                       ++ match rest with
                          | [] => EmptyString
                          | _ :: _ => " "
                          end)%string).
    { rewrite !getTextContent_contentOf, Hct, map_app, concat_app, Hold.
      f_equal. simpl map. rewrite concat_cons. simpl nodeText. rewrite Hword.
      f_equal. rewrite Hsep. destruct rest; [reflexivity |].
      simpl. unfold spanText. rewrite Hsp.
      rewrite nth_error_app2 by lia.
      replace (S (List.length (spans w)) - List.length (spans w))%nat
        with 1%nat by lia.
      rewrite Hsep. reflexivity. }
    assert (HrangeW : forall id, In (SpanNode id) (contentOf W) ->
                                 (id < List.length (spans W))%nat).
    { intros id Hin. rewrite Hct in Hin. rewrite Hsp, length_app. simpl.
      apply in_app_or in Hin. destruct Hin as [Hin | [Hin | Hin]].
      - specialize (Hrange id Hin). lia.
      - injection Hin as <-. lia.
      - apply in_map_iff in Hin. destruct Hin as [x [Hx Hin]].
        injection Hx as <-. destruct sep; [contradiction | simpl; lia]. }
    destruct (IH (S index) len W HcW) as (I1 & I2);
      [simpl in Hlen; lia | assumption |].
    split.
    + rewrite I1, Htext, !append_associative. f_equal.
      destruct rest; [now rewrite append_empty_r |].
      rewrite (join_cons word) by discriminate. reflexivity.
    + rewrite I2, Hct, length_app. simpl. rewrite length_map, Hsep.
      destruct rest; simpl; lia.
Qed.

Lemma splitTextIntoWords_text (w : World) :
  container w <> None ->
  getTextContent (splitTextIntoWords w) = getTextContent w /\
  List.length (contentOf (splitTextIntoWords w))
    = (2 * List.length (split (getTextContent w)) - 1)%nat.
Proof.
  intros Hc. unfold splitTextIntoWords.
  set (t := getTextContent w).
  set (w2 := setMagneticEnabled true (setTextContent EmptyString w)).
  assert (H2 : container w2 <> None /\ contentOf w2 = [] /\
               getTextContent w2 = EmptyString).
  { subst w2. unfold contentOf, getTextContent. simpl.
    destruct (container w); [| contradiction]. simpl.
    split; [discriminate | split; reflexivity]. }
  destruct H2 as (Hc2 & Hct2 & Ht2).
  destruct (forEachWord_text (split t) 0 (List.length (split t)) w2 Hc2)
    as (I1 & I2); [reflexivity | now rewrite Hct2 |].
  rewrite I1, I2, Ht2, Hct2. simpl. now rewrite join_split.
Qed.

(** X10: the constructor never changes the text that the container
    shows: with or without segmentation, the text content read from the
    document is the original text, and it stays the original text in
    every later state in which the instance still holds its words. *)
Theorem segmentation_keeps_text (sel : string) (opts : OptionsArg) (e : Env)
    (c : Container) (evs : list Event) :
  let t := getTextContent (page e (Some c) (newInstance sel opts)) in
  let w := run evs (fst (construct sel opts e (Some c))) in
  getTextContent (fst (construct sel opts e (Some c))) = t /\
  (words (self w) <> [] -> getTextContent w = t).
Proof.
  intros t w.
  assert (H0 : getTextContent (fst (construct sel opts e (Some c))) = t).
  { unfold construct, init. simpl env.
    destruct (shouldInitialize e); simpl negb; cbv iota; [| reflexivity].
    cbn [container page fst].
    set (w1 := onSelf (setElement (Some ContainerRef))
                      (page e (Some c) (newInstance sel opts))).
    assert (Hs : getTextContent (splitTextIntoWords w1) = getTextContent w1)
      by (apply splitTextIntoWords_text; discriminate).
    change t with (getTextContent w1). rewrite <- Hs.
    set (w2 := splitTextIntoWords w1). clearbody w2.
    unfold setupReducedMotionListener, setupEventListeners.
    destruct (heroSection (cacheBoundingRects w2)); reflexivity. }
  split; [assumption |].
  subst w.
  apply (quiet_invariant t
           (fun w => words (self w) <> [] -> getTextContent w = t)).
  - intros w w' _ HP Hq Hheld.
    destruct Hq as (S & _). rewrite (getTextContent_sameText w w' S).
    apply HP. destruct S as (Hw & _). now rewrite <- Hw.
  - intros w _ _ Hheld. now rewrite destroy_words in Hheld.
  - apply construct_Inv.
  - intros _. exact H0.
Qed.

Lemma segmentation_keeps_text_witness :
  let w := run [MouseMove 5 5; Frame; MouseLeave] helloPage in
  words (self w) <> [] /\ getTextContent w = "Hello World Foo"%string.
Proof.
  intros w.
  assert (H : words (self w) <> []) by (subst w; lazy; discriminate).
  split; [exact H |].
  exact (proj2 (segmentation_keeps_text ".hero-title" noOptions desktop
                  (heroTitle "Hello World Foo")
                  [MouseMove 5 5; Frame; MouseLeave]) H).
Defined.

(** ** The state after a successful [init] *)

Lemma splitTextIntoWords_facts (w : World) (c : Container) :
  container w = Some c -> words (self w) = [] ->
  let w2 := splitTextIntoWords w in
  map (spanText w2) (words (self w2)) = split (getTextContent w) /\
  element (self w2) = element (self w) /\
  rafId (self w2) = rafId (self w) /\ frames w2 = frames w /\
  onMouseMove w2 = onMouseMove w /\ onMouseLeave w2 = onMouseLeave w /\
  onResize w2 = onResize w /\ onMotionChange w2 = onMotionChange w /\
  timers w2 = timers w /\ env w2 = env w /\
  isActive (self w2) = isActive (self w) /\
  option_map inHeroSection (container w2) = Some (inHeroSection c) /\
  option_map magneticEnabled (container w2) = Some true.
Proof.
  intros Hc Hw. unfold splitTextIntoWords. cbv zeta.
  set (ws := split (getTextContent w)).
  set (w1 := setMagneticEnabled true (setTextContent EmptyString w)).
  assert (H1 : words (self w1) = [] /\ container w1 <> None /\
               option_map inHeroSection (container w1)
                 = Some (inHeroSection c) /\
               option_map magneticEnabled (container w1) = Some true).
  { subst w1. simpl. rewrite Hc, Hw. simpl.
    split; [reflexivity |]. split; [discriminate |]. split; reflexivity. }
  destruct H1 as (Hw1 & Hc1 & Hh1 & Hm1).
  destruct (forEachWord_spec ws 0 (List.length ws) w1)
    as (_ & _ & I3 & I4 & _ & _ & I7 & I8);
    [rewrite Hw1; constructor | rewrite Hw1; constructor | assumption |].
  destruct (forEachWord_other ws 0 (List.length ws) w1)
    as (O1 & O2 & O3 & O4 & O5 & _ & O7 & _ & O9 & _ & _ & O12 & O13).
  rewrite Hw1 in I3. simpl in I3.
  rewrite I3, I4, I7, I8, O1, O2, O3, O4, O5, O7, O9, O12, O13, Hh1, Hm1.
  repeat split.
Qed.

(** The state that a successful [init] leaves. *)
Lemma construct_active (sel : string) (opts : OptionsArg) (e : Env)
    (c : Container) :
  shouldInitialize e = true ->
  let t := getTextContent (page e (Some c) (newInstance sel opts)) in
  let w := fst (construct sel opts e (Some c)) in
  snd (construct sel opts e (Some c)) = Normal /\
  element (self w) = Some ContainerRef /\
  map (spanText w) (words (self w)) = split t /\
  List.length (contentOf w) = (2 * List.length (words (self w)) - 1)%nat /\
  option_map magneticEnabled (container w) = Some true /\
  wordRects (self w) = map (documentRect e) (words (self w)) /\
  onResize w = true /\ onMotionChange w = true /\
  onMouseMove w = inHeroSection c /\ onMouseLeave w = inHeroSection c /\
  frames w = [] /\ timers w = [] /\ rafId (self w) = None /\
  isActive (self w) = false.
Proof.
  intros Hgate t w. subst w.
  unfold construct, init. simpl env. rewrite Hgate. simpl negb. cbv iota.
  cbn [container page fst snd].
  set (w1 := onSelf (setElement (Some ContainerRef))
                    (page e (Some c) (newInstance sel opts))).
  destruct (splitTextIntoWords_facts w1 c eq_refl eq_refl)
    as (F1 & F2 & F3 & F4 & F5 & F6 & F7 & F8 & F9 & F10 & F11 & F12 & F13).
  destruct (splitTextIntoWords_text w1) as (_ & Hlen); [discriminate |].
  change (getTextContent w1) with t in F1, Hlen.
  set (w2 := splitTextIntoWords w1) in *.
  assert (Hn : List.length (words (self w2)) = List.length (split t))
    by (rewrite <- F1; now rewrite length_map).
  assert (Hh : heroSection (cacheBoundingRects w2) = inHeroSection c).
  { unfold heroSection. simpl. rewrite F2. simpl.
    destruct (container w2); simpl in F12; [congruence | discriminate]. }
  simpl in F2, F3, F4, F5, F6, F7, F8, F9, F10, F11.
  clearbody w2.
  unfold setupReducedMotionListener, setupEventListeners. rewrite Hh.
  unfold contentOf in *.
  destruct (inHeroSection c); simpl; rewrite ?F10;
    repeat split; try assumption; try congruence;
    rewrite Hlen, Hn; simpl; lia.
Qed.

(** X11: when the gate passes and the selector finds the container,
    [init] returns normally with the instance active: there is one word
    per space-separated piece of the text, with that piece as its text,
    the words are distinct spans of the document, the container holds
    [2n - 1] spans for [n] words and carries the class
    [magnetic-enabled], [wordRects] holds the document rectangle of every
    word, the resize and motion listeners are registered, the pointer
    listeners are registered exactly when the container lies in a hero
    section, and nothing is scheduled. *)
Theorem init_activates (sel : string) (opts : OptionsArg) (e : Env)
    (c : Container) :
  shouldInitialize e = true ->
  let t := getTextContent (page e (Some c) (newInstance sel opts)) in
  let w := fst (construct sel opts e (Some c)) in
  snd (construct sel opts e (Some c)) = Normal /\
  element (self w) = Some ContainerRef /\
  map (spanText w) (words (self w)) = split t /\
  NoDup (words (self w)) /\
  Forall (fun word => (word < List.length (spans w))%nat) (words (self w)) /\
  List.length (contentOf w) = (2 * List.length (words (self w)) - 1)%nat /\
  option_map magneticEnabled (container w) = Some true /\
  wordRects (self w) = map (documentRect e) (words (self w)) /\
  onResize w = true /\ onMotionChange w = true /\
  onMouseMove w = inHeroSection c /\ onMouseLeave w = inHeroSection c /\
  frames w = [] /\ timers w = [] /\ rafId (self w) = None /\
  isActive (self w) = false.
Proof.
  intros Hgate t w.
  destruct (construct_active sel opts e c Hgate)
    as (A1 & A2 & A3 & A4 & A5 & A6 & A7 & A8 & A9 & A10 & A11 & A12 & A13
        & A14).
  destruct (construct_Inv sel opts e c) as (Hnd & Hrange & _).
  fold w in Hnd, Hrange.
  repeat split; assumption.
Qed.

Lemma init_activates_witness :
  shouldInitialize desktop = true /\
  map (spanText helloPage) (words (self helloPage))
    = ["Hello"; "World"; "Foo"]%string.
Proof.
  assert (H : shouldInitialize desktop = true) by (lazy; reflexivity).
  split; [exact H |].
  exact (proj1 (proj2 (proj2 (init_activates ".hero-title" noOptions desktop
                                (heroTitle "Hello World Foo") H)))).
Defined.

(** ** The pieces of the text *)

Lemma split_count (s : string) :
  List.length (split s) = S (countSpaces s) /\
  Forall (fun piece => hasSpace piece = false) (split s).
Proof.
  induction s as [| c rest (IHl & IHf)]; simpl.
  - split; [reflexivity | repeat constructor].
  - destruct (Ascii.eqb c " ") eqn:Ec; simpl.
    + split; [now rewrite IHl | now constructor].
    + pose proof (split_nonempty rest) as Hne.
      destruct (split rest) as [| w ws]; [contradiction |].
      simpl in *. split; [assumption |].
      inversion IHf; subst. constructor; [| assumption].
      simpl. now rewrite Ec.
Qed.

(** X12: after a successful [init] there is one word more than the text
    has spaces, so at least one even for the empty text, and no word
    contains a space; consecutive, leading and trailing spaces give words
    with the empty text. *)
Theorem one_word_per_piece (sel : string) (opts : OptionsArg) (e : Env)
    (c : Container) :
  shouldInitialize e = true ->
  let t := getTextContent (page e (Some c) (newInstance sel opts)) in
  let w := fst (construct sel opts e (Some c)) in
  List.length (words (self w)) = S (countSpaces t) /\
  Forall (fun word => hasSpace (spanText w word) = false) (words (self w)) /\
  List.length (contentOf w) = S (2 * countSpaces t).
Proof.
  intros Hgate t w.
  destruct (construct_active sel opts e c Hgate) as (_ & _ & Ht & Hc & _).
  fold t in Ht. fold w in Ht, Hc.
  destruct (split_count t) as (Hl & Hf).
  assert (Hn : List.length (words (self w)) = S (countSpaces t)).
  { rewrite <- Hl, <- Ht. now rewrite length_map. }
  split; [assumption |]. split.
  - rewrite <- Ht in Hf. now rewrite Forall_map in Hf.
  - rewrite Hc, Hn. lia.
Qed.

Lemma one_word_per_piece_witness :
  shouldInitialize desktop = true /\
  List.length (words (self (fst (construct ".hero-title" noOptions desktop
                                   (Some (heroTitle " a  b")))))) = 4%nat.
Proof.
  assert (H : shouldInitialize desktop = true) by (lazy; reflexivity).
  split; [exact H |].
  exact (proj1 (one_word_per_piece ".hero-title" noOptions desktop
                  (heroTitle " a  b") H)).
Defined.

(** ** The class ['active'] *)

Lemma updateAt_active (n id : nat) (f : Span -> Span) (l : list Span) :
  keepsActive f ->
  option_map hasActive (nth_error (updateAt n f l) id) =
  option_map hasActive (nth_error l id).
Proof.
  intros Hf. destruct (Nat.eq_dec n id) as [-> | Hne].
  - rewrite updateAt_same. destruct (nth_error l id); simpl; [| reflexivity].
    now rewrite Hf.
  - now rewrite updateAt_other.
Qed.

Lemma updateMany_active (ups : list (nat * (Span -> Span))) (sp : list Span)
    (id : nat) :
  Forall (fun p => keepsActive (snd p)) ups ->
  option_map hasActive (nth_error (updateMany ups sp) id) =
  option_map hasActive (nth_error sp id).
Proof.
  revert sp; induction ups as [| p rest IH]; intros sp Hall; [reflexivity |].
  inversion Hall; subst.
  unfold updateMany in *; simpl. rewrite IH by assumption.
  now apply updateAt_active.
Qed.

Lemma updateMany_setActive (b : bool) (ws : list nat) :
  forall (sp : list Span) (word : nat),
  In word ws -> (word < List.length sp)%nat ->
  option_map hasActive
    (nth_error (updateMany (map (fun id => (id, setActiveClass b)) ws) sp) word)
  = Some b.
Proof.
  induction ws as [| a rest IH]; intros sp word Hin Hlt; [contradiction |].
  change (updateMany (map (fun id => (id, setActiveClass b)) (a :: rest)) sp)
    with (updateMany (map (fun id => (id, setActiveClass b)) rest)
                     (updateAt a (setActiveClass b) sp)).
  destruct (in_dec Nat.eq_dec word rest) as [Hr | Hr].
  - apply IH; [assumption | now rewrite updateAt_length].
  - destruct Hin as [-> | Hin]; [| contradiction].
    rewrite updateMany_other.
    + rewrite updateAt_same.
      destruct (nth_error sp word) eqn:E; [reflexivity |].
      apply nth_error_None in E. lia.
    + rewrite map_map. simpl. now rewrite map_id.
Qed.

Lemma ActiveInv_same (w w' : World) :
  words (self w') = words (self w) -> isActive (self w') = isActive (self w) ->
  (forall id, option_map hasActive (nth_error (spans w') id)
              = option_map hasActive (nth_error (spans w) id)) ->
  ActiveInv w -> ActiveInv w'.
Proof.
  unfold ActiveInv. intros -> -> Hs A.
  eapply Forall_impl; [| exact A]. simpl. intros a Ha. now rewrite Hs.
Qed.

Lemma ActiveInv_setAll (b : bool) (w : World) :
  Forall (fun word => (word < List.length (spans w))%nat) (words (self w)) ->
  ActiveInv (forEachSpan (setActiveClass b) (words (self w))
                         (onSelf (setIsActive b) w)).
Proof.
  intros Hrange. rewrite forEachSpan_eq. unfold ActiveInv. simpl.
  rewrite Forall_forall in *. intros word Hin.
  apply updateMany_setActive; auto.
Qed.

Lemma keepsActive_setTransform (t : Translate) : keepsActive (setTransform t).
Proof. intros s; reflexivity. Qed.

Lemma ActiveInv_transforms (ws : list nat) (ts : list Translate) (w : World) :
  ActiveInv w ->
  ActiveInv (setSpans (updateMany (combine ws (map setTransform ts)) (spans w))
                      w).
Proof.
  apply ActiveInv_same; try reflexivity.
  intros id. simpl. apply updateMany_active.
  apply Forall_forall. intros [a f] Hp.
  apply in_combine_r in Hp. apply in_map_iff in Hp.
  destruct Hp as [t [<- _]]. apply keepsActive_setTransform.
Qed.

Lemma ActiveInv_destroy (w : World) : ActiveInv (destroy w).
Proof. unfold ActiveInv. rewrite destroy_words. constructor. Qed.

Lemma handleResize_spans (w : World) :
  spans (handleResize w) = spans w /\
  words (self (handleResize w)) = words (self w) /\
  isActive (self (handleResize w)) = isActive (self w).
Proof.
  unfold handleResize, clearTimeout, setTimeout.
  destruct (resizeTimeout (self w)); repeat split.
Qed.

Lemma step_Resize_eq (nw : Z) (nl : nat -> DOMRect) (w : World) :
  step (Resize nw nl) w =
  if onResize w then handleResize (setEnv (resizeEnv nw nl (env w)) w)
  else setEnv (resizeEnv nw nl (env w)) w.
Proof. reflexivity. Qed.

Lemma step_ActiveInv (t : string) (ev : Event) (w : World) :
  Inv t w -> ActiveInv w -> ActiveInv (step ev w).
Proof.
  intros H A. pose proof H as (_ & Hrange & _).
  destruct ev as [x y | | nw nl | x y | m | | h].
  - simpl. destruct (onMouseMove w); [| assumption].
    destruct (rafId (self w)) as [h |] eqn:E.
    + now rewrite (handleMouseMove_pending x y w h E).
    + rewrite handleMouseMove_idle by assumption. cbv zeta.
      destruct (isActive (self w)) eqn:Ea.
      * revert A. apply ActiveInv_same; reflexivity.
      * match goal with
        | |- ActiveInv (forEachSpan _ _ (onSelf _ ?W)) =>
            apply (ActiveInv_setAll true W)
        end.
        exact Hrange.
  - simpl. destruct (onMouseLeave w); [| assumption].
    unfold handleMouseLeave, reset.
    set (w1 := match rafId (self w) with
               | Some h => onSelf (setRafId None) (cancelAnimationFrame h w)
               | None => w
               end).
    assert (A1 : ActiveInv w1).
    { subst w1. destruct (rafId (self w)); [| assumption].
      revert A. apply ActiveInv_same; reflexivity. }
    clearbody w1. rewrite forEachSpan_eq, combine_constant.
    rewrite <- (map_map (fun _ => {| translateX := 0; translateY := 0 |})
                        setTransform).
    match goal with
    | |- context [setSpans ?sp w1] =>
        pose proof (ActiveInv_transforms (words (self w1))
                      (map (fun _ => {| translateX := 0; translateY := 0 |})
                           (words (self w1))) w1 A1) as A2;
        set (W := setSpans sp w1) in *
    end.
    clearbody W. destruct (isActive (self W)); [| assumption].
    revert A2. apply ActiveInv_same; reflexivity.
  - rewrite step_Resize_eq. destruct (onResize w).
    + destruct (handleResize_spans (setEnv (resizeEnv nw nl (env w)) w))
        as (R1 & R2 & R3).
      revert A. apply ActiveInv_same; try assumption.
      intros id. now rewrite R1.
    + revert A. apply ActiveInv_same; reflexivity.
  - revert A. apply ActiveInv_same; reflexivity.
  - simpl. destruct (onMotionChange w);
      [| revert A; apply ActiveInv_same; reflexivity].
    destruct m; [apply ActiveInv_destroy |].
    revert A. apply ActiveInv_same; reflexivity.
  - pose proof (Inv_pendingFrame t w H) as Hpf. unfold pendingFrame in Hpf.
    destruct (rafId (self w)) as [h |] eqn:E.
    + destruct Hpf as [[x y] Hfr].
      rewrite (frame_pending x y h) by (try apply H; assumption).
      match goal with
      | |- ActiveInv (onSelf _ (setSpans (updateMany (combine ?ws (map _ ?ts)) _) _)) =>
          pose proof (ActiveInv_transforms ws ts w A) as A2
      end.
      revert A2. apply ActiveInv_same; reflexivity.
    + unfold step, runFrames. rewrite Hpf.
      revert A. apply ActiveInv_same; reflexivity.
  - simpl. destruct (findHandle h (timers w)) as [[delay cb] |];
      [| assumption].
    destruct cb; simpl.
    + destruct (shouldInitialize (env w)); simpl;
        [| apply ActiveInv_destroy].
      revert A. apply ActiveInv_same; reflexivity.
    + match goal with
      | |- ActiveInv (onSelf _ (forEachSpan _ _ ?W)) =>
          pose proof (ActiveInv_setAll false W Hrange) as A2
      end.
      rewrite forEachSpan_eq in *.
      revert A2. apply ActiveInv_same; reflexivity.
Qed.

Lemma forEachWord_inactive (ws : list string) :
  forall (index len : nat) (w : World),
  Forall (fun s => hasActive s = false) (spans w) ->
  Forall (fun s => hasActive s = false) (spans (forEachWord ws index len w)).
Proof.
  induction ws as [| word rest IH]; intros index len w Hall; simpl;
    [assumption |].
  apply IH. destruct (index <? len - 1)%nat; simpl;
    repeat (apply Forall_app; split); try assumption; repeat constructor.
Qed.

Lemma construct_ActiveInv (sel : string) (opts : OptionsArg) (e : Env)
    (c : option Container) :
  ActiveInv (fst (construct sel opts e c)).
Proof.
  destruct (shouldInitialize e) eqn:Eg.
  - destruct c as [c |].
    + destruct (construct_active sel opts e c Eg)
        as (_ & _ & _ & _ & _ & _ & _ & _ & _ & _ & _ & _ & _ & Ha).
      destruct (construct_Inv sel opts e c) as (_ & Hrange & _).
      unfold ActiveInv. rewrite Ha.
      assert (Hall : Forall (fun s => hasActive s = false)
                            (spans (fst (construct sel opts e (Some c))))).
      { unfold construct, init. simpl env. rewrite Eg. simpl negb. cbv iota.
        cbn [container page fst].
        unfold setupReducedMotionListener, setupEventListeners.
        set (w3 := cacheBoundingRects _).
        assert (H3 : Forall (fun s => hasActive s = false) (spans w3)).
        { subst w3. unfold splitTextIntoWords. simpl.
          apply forEachWord_inactive. constructor. }
        clearbody w3. destruct (heroSection w3); exact H3. }
      rewrite Forall_forall in *. intros word Hin.
      specialize (Hrange word Hin).
      destruct (nth_error _ word) as [s |] eqn:E.
      * simpl. f_equal. apply Hall. now apply nth_error_In in E.
      * apply nth_error_None in E. lia.
    + destruct (construct_aborted sel opts e None (or_intror eq_refl))
        as ((_ & U2 & _) & _).
      unfold ActiveInv. rewrite U2. constructor.
  - destruct (construct_aborted sel opts e c (or_introl Eg))
      as ((_ & U2 & _) & _).
    unfold ActiveInv. rewrite U2. constructor.
Qed.

(** X13: in every state reached from the constructor, every word carries
    the class ['active'] exactly when [isActive] is set: the first pointer
    move sets both, the timer started by a reset clears both, and no
    displacement update touches the class. *)
Theorem active_class_follows_flag (sel : string) (opts : OptionsArg) (e : Env)
    (c : option Container) (evs : list Event) :
  let w := run evs (fst (construct sel opts e c)) in
  forall word, In word (words (self w)) ->
  exists s, nth_error (spans w) word = Some s /\
            hasActive s = isActive (self w).
Proof.
  intros w word Hin.
  set (t := getTextContent (page e c (newInstance sel opts))).
  assert (H : forall evs w, Inv t w -> ActiveInv w -> ActiveInv (run evs w)).
  { unfold run. clear. intros evs.
    induction evs as [| ev rest IH]; intros w Hi Ha; simpl; [assumption |].
    apply IH; [now apply step_Inv | now apply (step_ActiveInv t)]. }
  pose proof (H evs _ (construct_Inv_any sel opts e c)
                (construct_ActiveInv sel opts e c)) as A.
  fold w in A. unfold ActiveInv in A. rewrite Forall_forall in A.
  specialize (A word Hin).
  destruct (nth_error (spans w) word) as [s |]; [| discriminate].
  exists s. split; [reflexivity |]. simpl in A. congruence.
Qed.

(** ** More on the force law *)








(** X16: the defaults of the constructor apply to absent options only.
    An option that is present is taken as given, even when it is [0] or
    negative, because the spread of [options] comes after the defaulted
    properties; absent options get 200, 25, 150 and 300. *)
Theorem options_present_win (a : OptionsArg) :
  maxDistance (mkOptions a)
    = match arg_maxDistance a with Some v => v | None => 200 end /\
  maxDisplacement (mkOptions a)
    = match arg_maxDisplacement a with Some v => v | None => 25 end /\
  activeDuration (mkOptions a)
    = match arg_activeDuration a with Some v => v | None => 150 end /\
  resetDuration (mkOptions a)
    = match arg_resetDuration a with Some v => v | None => 300 end /\
  (arg_maxDistance a = Some 0 ->
   orDefault (arg_maxDistance a) 200 = 200 /\ maxDistance (mkOptions a) = 0).
Proof.
  destruct a as [d m s ad rd]. simpl.
  split; [now destruct d |]. split; [now destruct m |].
  split; [now destruct ad |]. split; [now destruct rd |].
  intros [= ->]. simpl. split; [| reflexivity].
  destruct (Req_dec_T 0 0); [reflexivity | lra].
Qed.

Lemma options_present_win_witness :
  arg_maxDistance emptyField = Some 0 /\
  maxDistance (mkOptions emptyField) = 0.
Proof.
  split; [reflexivity |].
  exact (proj2 (proj2 (proj2 (proj2 (proj2 (options_present_win emptyField))))
                 eq_refl)).
Defined.

(** ** Sample runs *)

Lemma at_most_one_pending_frame_witness :
  let w := run [MouseMove 5 5] helloPage in
  In (1%positive, UpdateFrame 5 5) (frames w) /\
  rafId (self w) = Some 1%positive.
Proof.
  intros w.
  assert (H : In (1%positive, UpdateFrame 5 5) (frames w))
    by (subst w; lazy; left; reflexivity).
  split; [exact H |].
  exact (proj2 (proj2 (at_most_one_pending_frame ".hero-title" noOptions
                         desktop (Some (heroTitle "Hello World Foo"))
                         [MouseMove 5 5])) _ _ H).
Defined.

Lemma at_most_one_resize_timer_witness :
  let w := run [Resize 1300 (layout desktop)] helloPage in
  In (1%positive, (150, ResizeSettled)) (timers w) /\
  resizeTimeout (self w) = Some 1%positive.
Proof.
  intros w.
  assert (H : In (1%positive, (150, ResizeSettled)) (timers w))
    by (subst w; lazy; left; reflexivity).
  split; [exact H |].
  exact (proj2 (proj2 (at_most_one_resize_timer ".hero-title" noOptions
                         desktop (Some (heroTitle "Hello World Foo"))
                         [Resize 1300 (layout desktop)])) _ _ H).
Defined.

Lemma active_class_follows_flag_witness :
  let w := run [MouseMove 5 5] helloPage in
  In 0%nat (words (self w)) /\
  exists s, nth_error (spans w) 0 = Some s /\ hasActive s = isActive (self w).
Proof.
  intros w.
  assert (H : In 0%nat (words (self w)))
    by (subst w; lazy; left; reflexivity).
  split; [exact H |].
  exact (active_class_follows_flag ".hero-title" noOptions desktop
           (Some (heroTitle "Hello World Foo")) [MouseMove 5 5] 0%nat H).
Defined.

(** * Properties of the widgets of main.js *)

(** ** Patterns: the derivative test decides matching *)

Lemma Matches_seq_inv (r1 r2 : Regex.t) (s : JSString) :
  Regex.Matches (Regex.Seq r1 r2) s ->
  exists s1 s2, s = s1 ++ s2 /\ Regex.Matches r1 s1 /\ Regex.Matches r2 s2.
Proof. intros H. inversion H; subst. eauto. Qed.

Lemma Matches_alt_inv (r1 r2 : Regex.t) (s : JSString) :
  Regex.Matches (Regex.Alt r1 r2) s ->
  Regex.Matches r1 s \/ Regex.Matches r2 s.
Proof. intros H. inversion H; subst; auto. Qed.

Lemma Matches_class_inv (p : N -> bool) (s : JSString) :
  Regex.Matches (Regex.Class p) s -> exists c, s = [c] /\ p c = true.
Proof. intros H. inversion H; subst. eauto. Qed.

Lemma nullable_Matches (r : Regex.t) :
  Regex.nullable r = true <-> Regex.Matches r [].
Proof.
  split.
  - induction r as [| | p | r1 IH1 r2 IH2 | r1 IH1 r2 IH2 | r IH];
      simpl; intros H; try discriminate.
    + constructor.
    + apply andb_true_iff in H. destruct H as [H1 H2].
      change (@nil N) with (@nil N ++ @nil N). constructor; auto.
    + apply orb_true_iff in H. destruct H as [H | H];
        [apply Regex.MAltL | apply Regex.MAltR]; auto.
    + constructor.
  - intros H. remember (@nil N) as s eqn:Es.
    induction H as [| p c Hp | r1 r2 s1 s2 H1 IH1 H2 IH2 | r1 r2 s H IH
                    | r1 r2 s H IH | r | r s1 s2 H1 IH1 H2 IH2];
      simpl; try reflexivity; try discriminate.
    + apply app_eq_nil in Es. destruct Es as [-> ->].
      now rewrite IH1, IH2.
    + now rewrite IH.
    + rewrite IH by assumption. apply orb_true_r.
Qed.

Lemma deriv_sound (c : N) (r : Regex.t) :
  forall s, Regex.Matches (Regex.deriv c r) s -> Regex.Matches r (c :: s).
Proof.
  induction r as [| | p | r1 IH1 r2 IH2 | r1 IH1 r2 IH2 | r IH];
    simpl; intros s H.
  - inversion H.
  - inversion H.
  - destruct (p c) eqn:Ep; inversion H; subst. now constructor.
  - destruct (Regex.nullable r1) eqn:En.
    + apply Matches_alt_inv in H. destruct H as [H | H].
      * apply Matches_seq_inv in H. destruct H as (s1 & s2 & -> & H1 & H2).
        change (c :: s1 ++ s2) with ((c :: s1) ++ s2). constructor; auto.
      * change (c :: s) with ([] ++ c :: s). constructor; auto.
        now apply nullable_Matches.
    + apply Matches_seq_inv in H. destruct H as (s1 & s2 & -> & H1 & H2).
      change (c :: s1 ++ s2) with ((c :: s1) ++ s2). constructor; auto.
  - apply Matches_alt_inv in H. destruct H as [H | H];
      [apply Regex.MAltL | apply Regex.MAltR]; auto.
  - apply Matches_seq_inv in H. destruct H as (s1 & s2 & -> & H1 & H2).
    change (c :: s1 ++ s2) with ((c :: s1) ++ s2). constructor; auto.
Qed.

Lemma deriv_complete (c : N) (r : Regex.t) (s : JSString) :
  Regex.Matches r (c :: s) -> Regex.Matches (Regex.deriv c r) s.
Proof.
  intros H. remember (c :: s) as cs eqn:Ecs. revert s Ecs.
  induction H as [| p c0 Hp | r1 r2 s1 s2 H1 IH1 H2 IH2 | r1 r2 s0 H IH
                  | r1 r2 s0 H IH | r | r s1 s2 H1 IH1 H2 IH2];
    intros s Ecs; simpl.
  - discriminate.
  - injection Ecs as -> <-. rewrite Hp. constructor.
  - destruct s1 as [| c1 s1'].
    + simpl in Ecs. subst s2.
      assert (Hn : Regex.nullable r1 = true) by now apply nullable_Matches.
      rewrite Hn. apply Regex.MAltR. now apply IH2.
    + injection Ecs as -> <-.
      assert (Hs : Regex.Matches (Regex.Seq (Regex.deriv c r1) r2)
                                 (s1' ++ s2))
        by (constructor; auto).
      destruct (Regex.nullable r1); [now apply Regex.MAltL | assumption].
  - apply Regex.MAltL. now apply IH.
  - apply Regex.MAltR. now apply IH.
  - discriminate.
  - destruct s1 as [| c1 s1'].
    + simpl in Ecs. now apply IH2.
    + injection Ecs as -> <-. constructor; auto.
Qed.

(** The test by derivatives accepts exactly the inputs that the pattern
    matches as a whole. *)
Lemma test_Matches (s : JSString) :
  forall r, Regex.test r s = true <-> Regex.Matches r s.
Proof.
  unfold Regex.test. induction s as [| c rest IH]; intros r; simpl.
  - apply nullable_Matches.
  - rewrite IH. split; [apply deriv_sound | apply deriv_complete].
Qed.

Lemma Matches_star_class (p : N -> bool) (s : JSString) :
  Regex.Matches (Regex.Star (Regex.Class p)) s <->
  Forall (fun c => p c = true) s.
Proof.
  split.
  - intros H. remember (Regex.Star (Regex.Class p)) as r eqn:Er.
    induction H as [| | | | | r0 | r0 s1 s2 H1 IH1 H2 IH2];
      try discriminate.
    + constructor.
    + injection Er as ->. apply Matches_class_inv in H1.
      destruct H1 as (c & -> & Hc). simpl. constructor; auto.
  - induction s as [| c rest IH]; intros H.
    + constructor.
    + inversion H; subst.
      change (c :: rest) with ([c] ++ rest).
      constructor; [now constructor | auto].
Qed.

Lemma Matches_plus_class (p : N -> bool) (s : JSString) :
  Regex.Matches (Regex.Plus (Regex.Class p)) s <->
  s <> [] /\ Forall (fun c => p c = true) s.
Proof.
  unfold Regex.Plus. split.
  - intros H. apply Matches_seq_inv in H.
    destruct H as (s1 & s2 & -> & H1 & H2).
    apply Matches_class_inv in H1. destruct H1 as (c & -> & Hc).
    apply Matches_star_class in H2.
    split; [discriminate | constructor; auto].
  - intros [Hne H]. destruct s as [| c rest]; [contradiction |].
    inversion H; subst.
    change (c :: rest) with ([c] ++ rest).
    constructor; [now constructor | now apply Matches_star_class].
Qed.

(** ** The email test *)

Lemma notSpaceAt_spec (c : N) :
  ContactForm.notSpaceAt c = true <-> isSpace c = false /\ c <> 64%N.
Proof.
  unfold ContactForm.notSpaceAt.
  rewrite negb_true_iff, orb_false_iff, N.eqb_neq. tauto.
Qed.

Lemma emailPart_Matches (s : JSString) :
  Regex.Matches (Regex.Plus (Regex.Class ContactForm.notSpaceAt)) s <->
  emailPart s.
Proof.
  rewrite Matches_plus_class. unfold emailPart.
  split; intros [Hne H]; (split; [assumption |]);
    (eapply Forall_impl; [| exact H]); intros c Hc; now apply notSpaceAt_spec.
Qed.

(** The two directions of the characterisation of the email test. *)
Lemma isValidEmail_parts (email : JSString) :
  ContactForm.isValidEmail email = true ->
  exists a b c, email = a ++ [64%N] ++ b ++ [46%N] ++ c /\
                emailPart a /\ emailPart b /\ emailPart c.
Proof.
  unfold ContactForm.isValidEmail, ContactForm.emailPattern.
  rewrite test_Matches. intros H.
  apply Matches_seq_inv in H. destruct H as (a & s1 & -> & Ha & H).
  apply Matches_seq_inv in H. destruct H as (at_ & s2 & -> & Hat & H).
  apply Matches_seq_inv in H. destruct H as (b & s3 & -> & Hb & H).
  apply Matches_seq_inv in H. destruct H as (dot & c & -> & Hdot & Hc).
  apply Matches_class_inv in Hat. destruct Hat as (x & -> & Hx).
  apply Matches_class_inv in Hdot. destruct Hdot as (y & -> & Hy).
  apply N.eqb_eq in Hx, Hy. subst x y.
  exists a, b, c. rewrite <- !emailPart_Matches. auto.
Qed.

(** X17: [isValidEmail] accepts exactly the inputs of the form
    [a@b.c] where each of [a], [b] and [c] is not empty and contains
    neither white space nor [@]. *)
Theorem email_shape (email : JSString) :
  ContactForm.isValidEmail email = true <->
  exists a b c, email = a ++ [64%N] ++ b ++ [46%N] ++ c /\
                emailPart a /\ emailPart b /\ emailPart c.
Proof.
  split; [apply isValidEmail_parts |].
  intros (a & b & c & -> & Ha & Hb & Hc).
  unfold ContactForm.isValidEmail, ContactForm.emailPattern.
  apply test_Matches.
  rewrite <- emailPart_Matches in Ha, Hb, Hc.
  repeat (constructor; try assumption); reflexivity.
Qed.

Lemma emailPart_ofString_a : emailPart (ofString "a").
Proof. split; [discriminate |]. repeat constructor; discriminate. Qed.

Lemma email_shape_witness :
  (exists a b c, ofString "a@a.a" = a ++ [64%N] ++ b ++ [46%N] ++ c /\
                 emailPart a /\ emailPart b /\ emailPart c) /\
  ContactForm.isValidEmail (ofString "a@a.a") = true.
Proof.
  assert (H : exists a b c,
             ofString "a@a.a" = a ++ [64%N] ++ b ++ [46%N] ++ c /\
             emailPart a /\ emailPart b /\ emailPart c).
  { exists (ofString "a"), (ofString "a"), (ofString "a").
    split; [reflexivity |]. repeat split; try apply emailPart_ofString_a. }
  split; [exact H |].
  exact (proj2 (email_shape (ofString "a@a.a")) H).
Defined.

Lemma emailPart_count (s : JSString) :
  emailPart s ->
  count_occ N.eq_dec s 64%N = 0%nat /\ Forall (fun c => isSpace c = false) s /\
  (1 <= List.length s)%nat.
Proof.
  intros [Hne H]. split; [| split].
  - apply count_occ_not_In. intros Hin.
    rewrite Forall_forall in H. now destruct (H _ Hin).
  - eapply Forall_impl; [| exact H]. now intros c [Hc _].
  - destruct s; [contradiction | simpl; lia].
Qed.

(** X18: an input that [isValidEmail] accepts contains exactly one [@],
    no white space at all, at least one dot, and at least five code
    units; it neither starts nor ends with [@]. *)
Theorem valid_email_facts (email : JSString) :
  ContactForm.isValidEmail email = true ->
  count_occ N.eq_dec email 64%N = 1%nat /\
  Forall (fun c => isSpace c = false) email /\
  In 46%N email /\
  (5 <= List.length email)%nat /\
  hd_error email <> Some 64%N /\ hd_error (rev email) <> Some 64%N.
Proof.
  intros H. apply isValidEmail_parts in H.
  destruct H as (a & b & c & -> & Ha & Hb & Hc).
  destruct (emailPart_count a Ha) as (Ca & Fa & La).
  destruct (emailPart_count b Hb) as (Cb & Fb & Lb).
  destruct (emailPart_count c Hc) as (Cc & Fc & Lc).
  split; [| split; [| split; [| split; [| split]]]].
  - rewrite !count_occ_app, Ca, Cb, Cc. reflexivity.
  - repeat (apply Forall_app; split); try assumption;
      repeat constructor.
  - apply in_or_app. right. apply in_or_app. right.
    apply in_or_app. right. apply in_or_app. left. now left.
  - rewrite !length_app. simpl. lia.
  - destruct Ha as [Hne Hall]. destruct a as [| x a']; [contradiction |].
    inversion Hall as [| ? ? [_ Hx] _]; subst. simpl. congruence.
  - rewrite !rev_app_distr. destruct Hc as [Hne Hall].
    destruct (rev c) as [| x c'] eqn:Er.
    + apply (f_equal (@rev N)) in Er. rewrite rev_involutive in Er.
      contradiction.
    + assert (Hin : In x c) by (apply in_rev; rewrite Er; now left).
      rewrite Forall_forall in Hall. destruct (Hall x Hin) as [_ Hx].
      simpl. congruence.
Qed.

Lemma valid_email_facts_witness :
  ContactForm.isValidEmail (ofString "jo@site.org") = true /\
  count_occ N.eq_dec (ofString "jo@site.org") 64%N = 1%nat.
Proof.
  assert (H : ContactForm.isValidEmail (ofString "jo@site.org") = true)
    by (vm_compute; reflexivity).
  split; [exact H |].
  exact (proj1 (valid_email_facts _ H)).
Defined.

(** ** Trimming *)

Lemma trimStart_all_space (s : JSString) :
  trimStart s = [] <-> Forall (fun c => isSpace c = true) s.
Proof.
  induction s as [| c rest IH]; simpl.
  - split; [constructor | reflexivity].
  - destruct (isSpace c) eqn:Ec.
    + rewrite IH. split; intros H; [now constructor | now inversion H].
    + split; [discriminate |]. intros H. inversion H; congruence.
Qed.

Lemma trimStart_split (s : JSString) :
  exists l, s = l ++ trimStart s /\ Forall (fun c => isSpace c = true) l.
Proof.
  induction s as [| c rest (l & Hl & Hall)]; simpl.
  - exists []. split; [reflexivity | constructor].
  - destruct (isSpace c) eqn:Ec.
    + exists (c :: l). split; [simpl; now rewrite <- Hl | now constructor].
    + exists []. split; [reflexivity | constructor].
Qed.

Lemma trimStart_head (s : JSString) (c : N) (rest : JSString) :
  trimStart s = c :: rest -> isSpace c = false.
Proof.
  induction s as [| x s' IH]; simpl; [discriminate |].
  destruct (isSpace x) eqn:Ex; [assumption |].
  intros [= -> _]. assumption.
Qed.

Lemma trimStart_fixed (s : JSString) :
  hd_error s = None \/ (exists c, hd_error s = Some c /\ isSpace c = false) ->
  trimStart s = s.
Proof.
  destruct s as [| x s']; simpl; [reflexivity |].
  intros [H | (c & [= ->] & Hc)]; [discriminate |]. now rewrite Hc.
Qed.

Lemma Forall_rev_iff {A : Type} (P : A -> Prop) (l : list A) :
  Forall P (rev l) <-> Forall P l.
Proof.
  rewrite !Forall_forall. split; intros H x Hx; apply H;
    [now apply -> in_rev | now apply <- in_rev].
Qed.

(** [trim] strips white space only, from both ends, and as much as
    there is. *)
Lemma trim_spec (s : JSString) :
  exists l r, s = l ++ trim s ++ r /\
              Forall (fun c => isSpace c = true) l /\
              Forall (fun c => isSpace c = true) r /\
              (forall c, hd_error (trim s) = Some c -> isSpace c = false) /\
              (forall c, hd_error (rev (trim s)) = Some c -> isSpace c = false).
Proof.
  unfold trim, trimEnd.
  destruct (trimStart_split s) as (l & Hl & Hall).
  destruct (trimStart_split (rev (trimStart s))) as (r' & Hr & Hallr).
  exists l, (rev r'). split; [| split; [assumption | split; [| split]]].
  - rewrite Hl at 1. f_equal.
    rewrite <- rev_app_distr, <- Hr. now rewrite rev_involutive.
  - now apply Forall_rev_iff.
  - intros c Hc.
    destruct (trimStart (rev (trimStart s))) as [| y t] eqn:Et;
      [discriminate |].
    assert (Hts : trimStart s = rev (r' ++ y :: t))
      by (rewrite <- Hr; now rewrite rev_involutive).
    rewrite rev_app_distr in Hts.
    remember (rev (y :: t)) as v eqn:Ez.
    destruct v as [| z u]; [discriminate |].
    injection Hc as <-.
    simpl in Hts. now apply trimStart_head in Hts.
  - intros c Hc. rewrite rev_involutive in Hc.
    destruct (trimStart (rev (trimStart s))) as [| y t] eqn:Et;
      [discriminate |].
    injection Hc as <-. now apply trimStart_head in Et.
Qed.

Lemma trim_empty_iff (s : JSString) :
  trim s = [] <-> Forall (fun c => isSpace c = true) s.
Proof.
  split.
  - intros He. destruct (trim_spec s) as (l & r & Hs & Hl & Hr & _).
    rewrite He in Hs. rewrite Hs. simpl. apply Forall_app. now split.
  - intros H. unfold trim, trimEnd.
    apply trimStart_all_space in H. rewrite H. reflexivity.
Qed.

Lemma trim_idempotent (s : JSString) : trim (trim s) = trim s.
Proof.
  destruct (trim_spec s) as (_ & _ & _ & _ & _ & Hh & Hl).
  set (u := trim s) in *. unfold trim, trimEnd.
  assert (H1 : trimStart u = u).
  { apply trimStart_fixed. destruct (hd_error u) as [c |] eqn:E; eauto. }
  rewrite H1.
  assert (H2 : trimStart (rev u) = rev u).
  { apply trimStart_fixed. destruct (hd_error (rev u)) as [c |] eqn:E; eauto. }
  rewrite H2. apply rev_involutive.
Qed.

(** ** The contact form *)

Lemma forallb_isSpace (s : JSString) :
  forallb isSpace s = true <-> Forall (fun c => isSpace c = true) s.
Proof.
  rewrite forallb_forall, Forall_forall. reflexivity.
Qed.

Lemma forallb_false_exists (s : JSString) :
  forallb isSpace s = false <-> exists c, In c s /\ isSpace c = false.
Proof.
  split.
  - intros Hf. induction s as [| c t IH]; [discriminate |].
    simpl in Hf. apply andb_false_iff in Hf. destruct Hf as [Hf | Hf].
    + exists c. split; [now left | assumption].
    + destruct (IH Hf) as (c' & Hin & Hc'). exists c'. split; auto.
      now right.
  - intros (c & Hin & Hc).
    destruct (forallb isSpace s) eqn:E; [| reflexivity].
    rewrite forallb_forall in E. rewrite (E c Hin) in Hc. discriminate.
Qed.

Lemma trim_nil_forallb (s : JSString) :
  forallb isSpace s = match trim s with [] => true | _ :: _ => false end.
Proof.
  pose proof (trim_empty_iff s) as H. rewrite <- forallb_isSpace in H.
  destruct (trim s) as [| c t].
  - now apply H.
  - destruct (forallb isSpace s); [| reflexivity].
    destruct H as [_ H]. discriminate (H eq_refl).
Qed.

Lemma getElementById_set (id text : string) (es : list (string * string)) :
  ContactForm.getElementById id (ContactForm.setElementText id text es)
  = option_map (fun _ => text) (ContactForm.getElementById id es).
Proof.
  induction es as [| [i old] rest IH]; simpl; [reflexivity |].
  destruct (String.eqb i id) eqn:E; simpl; rewrite E; auto.
Qed.

Lemma mark_page (i : nat) (f : ContactForm.Field) (b : bool) (text : string)
    (p : ContactForm.Page) :
  let p' := match ContactForm.getElementById (ContactForm.errorId f)
                    (ContactForm.elements p) with
            | Some _ =>
                ContactForm.setElements
                  (ContactForm.setElementText (ContactForm.errorId f) text
                     (ContactForm.elements p))
                  (ContactForm.setFields
                     (updateAt i (ContactForm.setHasError b)
                               (ContactForm.fields p)) p)
            | None =>
                ContactForm.setFields
                  (updateAt i (ContactForm.setHasError b)
                            (ContactForm.fields p)) p
            end in
  ContactForm.fields p'
    = updateAt i (ContactForm.setHasError b) (ContactForm.fields p) /\
  ContactForm.getElementById (ContactForm.errorId f) (ContactForm.elements p')
    = option_map (fun _ => text)
        (ContactForm.getElementById (ContactForm.errorId f)
           (ContactForm.elements p)) /\
  ContactForm.submitBtn p' = ContactForm.submitBtn p /\
  ContactForm.formStatus p' = ContactForm.formStatus p /\
  ContactForm.requests p' = ContactForm.requests p.
Proof.
  cbv zeta.
  destruct (ContactForm.getElementById (ContactForm.errorId f)
              (ContactForm.elements p)) eqn:E; simpl.
  - rewrite getElementById_set, E. repeat split.
  - rewrite E. repeat split.
Qed.

(** What [validateField] returns and what it leaves on the page. *)
Lemma validateField_spec (i : nat) (f : ContactForm.Field)
    (p : ContactForm.Page) :
  let r := ContactForm.validateField i f p in
  fst r = fieldValid f /\
  ContactForm.fields (snd r)
    = updateAt i (ContactForm.setHasError (negb (fst r)))
               (ContactForm.fields p) /\
  ContactForm.getElementById (ContactForm.errorId f)
                             (ContactForm.elements (snd r))
    = option_map
        (fun _ => if fst r then EmptyString
                  else if forallb isSpace (ContactForm.value f)
                       then "This field is required"%string
                       else "Please enter a valid email address"%string)
        (ContactForm.getElementById (ContactForm.errorId f)
                                    (ContactForm.elements p)) /\
  ContactForm.submitBtn (snd r) = ContactForm.submitBtn p /\
  ContactForm.formStatus (snd r) = ContactForm.formStatus p /\
  ContactForm.requests (snd r) = ContactForm.requests p.
Proof.
  unfold ContactForm.validateField, fieldValid. cbv zeta.
  rewrite (trim_nil_forallb (ContactForm.value f)).
  destruct (trim (ContactForm.value f)) as [| c t] eqn:Et; simpl negb.
  - simpl fst. simpl snd.
    destruct (mark_page i f true "This field is required" p)
      as (M1 & M2 & M3 & M4 & M5).
    unfold ContactForm.showError. cbv zeta. simpl ContactForm.elements.
    repeat split; assumption.
  - destruct (ContactForm.fieldType f).
    + destruct (ContactForm.isValidEmail (c :: t)) eqn:Ev; simpl.
      * destruct (mark_page i f false EmptyString p)
          as (M1 & M2 & M3 & M4 & M5).
        unfold ContactForm.clearError. cbv zeta. simpl ContactForm.elements.
        repeat split; assumption.
      * destruct (mark_page i f true "Please enter a valid email address" p)
          as (M1 & M2 & M3 & M4 & M5).
        unfold ContactForm.showError. cbv zeta. simpl ContactForm.elements.
        repeat split; assumption.
    + simpl.
      destruct (mark_page i f false EmptyString p)
        as (M1 & M2 & M3 & M4 & M5).
      unfold ContactForm.clearError. cbv zeta. simpl ContactForm.elements.
      repeat split; assumption.
Qed.

(** X19: [validateField] accepts a control exactly when its value has a
    code unit that is not white space and, for an email control, the
    trimmed value is a valid email; surrounding white space never
    matters.  Afterwards the control carries the class ['error'] exactly
    when it was rejected, no other control is touched, and the error
    element of the control, when there is one, shows the empty text
    after acceptance and the reason after rejection: the required-field
    message for a blank value, whatever the type of the control. *)
Theorem validateField_decides (i : nat) (f : ContactForm.Field)
    (p : ContactForm.Page) :
  let r := ContactForm.validateField i f p in
  (fst r = true <->
   (exists c, In c (ContactForm.value f) /\ isSpace c = false) /\
   (ContactForm.fieldType f = ContactForm.Email ->
    ContactForm.isValidEmail (trim (ContactForm.value f)) = true)) /\
  fst r = fst (ContactForm.validateField i
                 (withValue (trim (ContactForm.value f)) f) p) /\
  (nth_error (ContactForm.fields p) i = Some f ->
   nth_error (ContactForm.fields (snd r)) i
     = Some (ContactForm.setHasError (negb (fst r)) f)) /\
  (forall j, j <> i ->
     nth_error (ContactForm.fields (snd r)) j
       = nth_error (ContactForm.fields p) j) /\
  ContactForm.getElementById (ContactForm.errorId f)
                             (ContactForm.elements (snd r))
    = option_map
        (fun _ => if fst r then EmptyString
                  else if forallb isSpace (ContactForm.value f)
                       then "This field is required"%string
                       else "Please enter a valid email address"%string)
        (ContactForm.getElementById (ContactForm.errorId f)
                                    (ContactForm.elements p)).
Proof.
  intros r.
  destruct (validateField_spec i f p) as (V1 & V2 & V3 & _).
  fold r in V1, V2, V3.
  split; [| split; [| split; [| split]]].
  - rewrite V1. unfold fieldValid.
    rewrite andb_true_iff, negb_true_iff.
    pose proof (forallb_false_exists (ContactForm.value f)) as Hs.
    rewrite Hs. destruct (ContactForm.fieldType f); split;
      intros [H1 H2]; split; auto; try discriminate.
  - destruct (validateField_spec i (withValue (trim (ContactForm.value f)) f) p)
      as (W1 & _).
    rewrite V1, W1. unfold fieldValid. simpl.
    rewrite trim_idempotent.
    rewrite (trim_nil_forallb (trim (ContactForm.value f))), trim_idempotent.
    now rewrite (trim_nil_forallb (ContactForm.value f)).
  - intros Hi. rewrite V2, updateAt_same, Hi. reflexivity.
  - intros j Hj. rewrite V2. apply updateAt_other. congruence.
  - exact V3.
Qed.

Lemma validateField_decides_witness :
  let f := sampleField "email" ContactForm.Email "  jo@site.org " in
  let p := samplePage "Jo" "  jo@site.org " in
  nth_error (ContactForm.fields p) 1 = Some f /\
  nth_error (ContactForm.fields (snd (ContactForm.validateField 1 f p))) 1
    = Some (ContactForm.setHasError
              (negb (fst (ContactForm.validateField 1 f p))) f).
Proof.
  intros f p.
  assert (H : nth_error (ContactForm.fields p) 1 = Some f) by reflexivity.
  split; [exact H |].
  exact (proj1 (proj2 (proj2 (validateField_decides 1 f p))) H).
Defined.

(** ** Submitting the form *)

Lemma updateAt_middle {A : Type} (g : A -> A) (pre : list A) (x : A)
    (rest : list A) :
  updateAt (List.length pre) g (pre ++ x :: rest) = pre ++ g x :: rest.
Proof. induction pre as [| a pre IH]; simpl; [reflexivity | now rewrite IH]. Qed.

Lemma nth_error_middle {A : Type} (pre : list A) (x : A) (rest : list A) :
  nth_error (pre ++ x :: rest) (List.length pre) = Some x.
Proof. induction pre as [| a pre IH]; simpl; auto. Qed.

(** The validation loop marks every required control, accepts when all
    of them pass, and touches neither the button, nor the status, nor the
    requests. *)
Lemma validateFrom_spec (fs : list ContactForm.Field) :
  forall (pre : list ContactForm.Field) (isValid : bool)
         (p : ContactForm.Page),
  ContactForm.fields p = pre ++ fs ->
  let r := ContactForm.validateFrom (List.length pre) fs isValid p in
  fst r = isValid && allRequiredValid fs /\
  ContactForm.fields (snd r) = pre ++ map marked fs /\
  ContactForm.submitBtn (snd r) = ContactForm.submitBtn p /\
  ContactForm.formStatus (snd r) = ContactForm.formStatus p /\
  ContactForm.requests (snd r) = ContactForm.requests p.
Proof.
  induction fs as [| f rest IH]; intros pre isValid p Hp; simpl.
  - rewrite andb_true_r, app_nil_r in *. repeat split; assumption.
  - unfold marked at 1.
    destruct (ContactForm.required f) eqn:Er; simpl implb.
    + rewrite Hp, nth_error_middle.
      destruct (validateField_spec (List.length pre) f p)
        as (V1 & V2 & _ & V4 & V5 & V6).
      destruct (ContactForm.validateField (List.length pre) f p)
        as [ok p1] eqn:Ev.
      simpl in V1, V2, V4, V5, V6.
      rewrite Hp, updateAt_middle in V2.
      assert (Hp1 : ContactForm.fields p1
                    = (pre ++ [ContactForm.setHasError (negb ok) f]) ++ rest)
        by (rewrite V2, <- app_assoc; reflexivity).
      specialize (IH _ (if ok then isValid else false) p1 Hp1).
      rewrite length_app, Nat.add_1_r in IH. cbv zeta in IH.
      destruct IH as (I1 & I2 & I3 & I4 & I5).
      rewrite I1, I2, I3, I4, I5, V4, V5, V6, <- V1, <- app_assoc.
      repeat split. destruct ok, isValid; reflexivity.
    + assert (Hp1 : ContactForm.fields p = (pre ++ [f]) ++ rest)
        by (rewrite Hp, <- app_assoc; reflexivity).
      specialize (IH _ isValid p Hp1).
      rewrite length_app, Nat.add_1_r in IH. cbv zeta in IH.
      destruct IH as (I1 & I2 & I3 & I4 & I5).
      rewrite I1, I2, I3, I4, I5, <- app_assoc. repeat split.
Qed.

Lemma validateAll_spec (p : ContactForm.Page) :
  let r := ContactForm.validateAll p in
  fst r = allRequiredValid (ContactForm.fields p) /\
  ContactForm.fields (snd r) = map marked (ContactForm.fields p) /\
  ContactForm.submitBtn (snd r) = ContactForm.submitBtn p /\
  ContactForm.formStatus (snd r) = ContactForm.formStatus p /\
  ContactForm.requests (snd r) = ContactForm.requests p.
Proof.
  apply (validateFrom_spec (ContactForm.fields p) [] true p eq_refl).
Qed.

Lemma marked_value (fs : list ContactForm.Field) :
  map ContactForm.value (map marked fs) = map ContactForm.value fs.
Proof.
  rewrite map_map. apply map_ext. intros f. unfold marked.
  now destruct (ContactForm.required f).
Qed.

Lemma handleSubmit_spec (p : ContactForm.Page) :
  let r := ContactForm.handleSubmit p in
  ContactForm.fields (fst r) = map marked (ContactForm.fields p) /\
  (allRequiredValid (ContactForm.fields p) = false ->
   ContactForm.requests (fst r) = ContactForm.requests p /\
   ContactForm.submitBtn (fst r) = ContactForm.submitBtn p /\
   snd r <> ContactForm.InFlight /\
   (ContactForm.formStatus p <> None ->
    snd r = ContactForm.Invalid /\
    ContactForm.formStatus (fst r)
      = Some {| ContactForm.statusText := ContactForm.invalidMessage;
                ContactForm.statusClass := "form-status error";
                ContactForm.display := "block" |})) /\
  (allRequiredValid (ContactForm.fields p) = true ->
   ContactForm.formStatus (fst r) = ContactForm.formStatus p /\
   (ContactForm.submitBtn p = None ->
    snd r = ContactForm.Threw /\
    ContactForm.requests (fst r) = ContactForm.requests p) /\
   (ContactForm.submitBtn p <> None ->
    snd r = ContactForm.InFlight /\
    ContactForm.requests (fst r)
      = ContactForm.requests p
        ++ [map ContactForm.value (ContactForm.fields p)] /\
    ContactForm.submitBtn (fst r)
      = Some {| ContactForm.disabled := true;
                ContactForm.label := "Sending..." |})).
Proof.
  unfold ContactForm.handleSubmit.
  destruct (validateAll_spec p) as (A1 & A2 & A3 & A4 & A5).
  destruct (ContactForm.validateAll p) as [isValid p1].
  simpl in A1, A2, A3, A4, A5. subst isValid.
  destruct (allRequiredValid (ContactForm.fields p)); simpl negb; cbv iota.
  - destruct (ContactForm.submitBtn p1) as [b |] eqn:Eb; simpl.
    + split; [assumption |]. split; [discriminate |]. intros _.
      split; [assumption |]. split; [intros Hn; congruence |]. intros _.
      rewrite A2, A5, (marked_value (ContactForm.fields p)). repeat split.
    + split; [assumption |]. split; [discriminate |]. intros _.
      split; [assumption |]. split; [auto |]. intros Hn. congruence.
  - unfold ContactForm.showStatus.
    destruct (ContactForm.formStatus p1) as [s |] eqn:Es; simpl.
    + split; [assumption |]. split; [| discriminate]. intros _.
      repeat split; try assumption; discriminate.
    + split; [assumption |]. split; [| discriminate]. intros _.
      split; [assumption |]. split; [assumption |].
      split; [discriminate |]. intros Hn. congruence.
Qed.

(** X20: [handleSubmit] validates every required control, not only up to
    the first failure, so each one carries the error class exactly when
    it is invalid, and no value is changed.  When some required control
    is invalid no request is sent, the button is left as it is, and the
    status element shows the error message; when all are valid and the
    button exists, one request with the values of the controls is sent
    and the button is disabled with the label [Sending...]. *)
Theorem submit_validates_first (p : ContactForm.Page) :
  let r := ContactForm.handleSubmit p in
  ContactForm.fields (fst r) = map marked (ContactForm.fields p) /\
  map ContactForm.value (ContactForm.fields (fst r))
    = map ContactForm.value (ContactForm.fields p) /\
  (allRequiredValid (ContactForm.fields p) = false ->
   ContactForm.requests (fst r) = ContactForm.requests p /\
   ContactForm.submitBtn (fst r) = ContactForm.submitBtn p /\
   snd r <> ContactForm.InFlight /\
   (ContactForm.formStatus p <> None ->
    snd r = ContactForm.Invalid /\
    ContactForm.formStatus (fst r)
      = Some {| ContactForm.statusText := ContactForm.invalidMessage;
                ContactForm.statusClass := "form-status error";
                ContactForm.display := "block" |})) /\
  (allRequiredValid (ContactForm.fields p) = true ->
   ContactForm.submitBtn p <> None ->
   snd r = ContactForm.InFlight /\
   ContactForm.requests (fst r)
     = ContactForm.requests p
       ++ [map ContactForm.value (ContactForm.fields p)] /\
   ContactForm.submitBtn (fst r)
     = Some {| ContactForm.disabled := true;
               ContactForm.label := "Sending..." |}).
Proof.
  intros r. destruct (handleSubmit_spec p) as (S1 & S2 & S3). fold r in S1, S2, S3.
  split; [assumption |]. split; [rewrite S1; apply marked_value |].
  split; [assumption |].
  intros Hv Hb. now apply S3.
Qed.

Lemma submit_validates_first_witness :
  let p := samplePage " " "jo@site" in
  allRequiredValid (ContactForm.fields p) = false /\
  ContactForm.requests (fst (ContactForm.handleSubmit p)) = [] /\
  map ContactForm.hasError (ContactForm.fields (fst (ContactForm.handleSubmit p)))
    = [true; true].
Proof.
  intros p.
  assert (H : allRequiredValid (ContactForm.fields p) = false)
    by (vm_compute; reflexivity).
  split; [exact H |].
  destruct (submit_validates_first p) as (S1 & _ & S3 & _).
  split; [exact (proj1 (S3 H)) |].
  rewrite S1. vm_compute. reflexivity.
Defined.

Lemma settle_spec (r : ContactForm.Response) (p : ContactForm.Page)
    (b : ContactForm.Button) (s : ContactForm.Status) :
  ContactForm.submitBtn p = Some b -> ContactForm.formStatus p = Some s ->
  let out := ContactForm.settle r p in
  snd out = Normal /\
  ContactForm.submitBtn (fst out)
    = Some {| ContactForm.disabled := false;
              ContactForm.label := "Send Message" |} /\
  ContactForm.requests (fst out) = ContactForm.requests p /\
  ContactForm.formStatus (fst out)
    = Some match r with
           | ContactForm.Ok =>
               {| ContactForm.statusText := ContactForm.successMessage;
                  ContactForm.statusClass := "form-status success";
                  ContactForm.display := "block" |}
           | _ =>
               {| ContactForm.statusText := ContactForm.failureMessage;
                  ContactForm.statusClass := "form-status error";
                  ContactForm.display := "block" |}
           end /\
  ContactForm.fields (fst out)
    = match r with
      | ContactForm.Ok => map ContactForm.resetField (ContactForm.fields p)
      | _ => ContactForm.fields p
      end.
Proof.
  intros Hb Hs. unfold ContactForm.settle, ContactForm.showStatus.
  destruct r; rewrite Hs; simpl; rewrite Hb; simpl; repeat split.
Qed.

(** X21: once the request of a submission settles, whatever the
    response, the button is enabled again with the label
    [Send Message] and no further request has been sent; the status
    shows the success message exactly for a response with [ok], and only
    then are the controls reset to their default values: after a failed
    response or a rejected request the values typed are kept. *)
Theorem submit_always_reenables (p : ContactForm.Page)
    (r : ContactForm.Response) :
  let sent := ContactForm.handleSubmit p in
  let out := ContactForm.settle r (fst sent) in
  snd sent = ContactForm.InFlight -> ContactForm.formStatus p <> None ->
  snd out = Normal /\
  ContactForm.submitBtn (fst out)
    = Some {| ContactForm.disabled := false;
              ContactForm.label := "Send Message" |} /\
  ContactForm.requests (fst out)
    = ContactForm.requests p ++ [map ContactForm.value (ContactForm.fields p)] /\
  (r = ContactForm.Ok ->
   option_map ContactForm.statusClass (ContactForm.formStatus (fst out))
     = Some "form-status success"%string /\
   map ContactForm.value (ContactForm.fields (fst out))
     = map ContactForm.defaultValue (ContactForm.fields p)) /\
  (r <> ContactForm.Ok ->
   option_map ContactForm.statusClass (ContactForm.formStatus (fst out))
     = Some "form-status error"%string /\
   map ContactForm.value (ContactForm.fields (fst out))
     = map ContactForm.value (ContactForm.fields p)).
Proof.
  intros sent out Hflight Hstatus.
  destruct (handleSubmit_spec p) as (S1 & S2 & S3). fold sent in S1, S2, S3.
  destruct (allRequiredValid (ContactForm.fields p)) eqn:Ev.
  - destruct (S3 eq_refl) as (F1 & F2 & F3).
    destruct (ContactForm.submitBtn p) as [b |] eqn:Eb.
    + destruct F3 as (_ & G2 & G3); [discriminate |].
      destruct (ContactForm.formStatus p) as [s |] eqn:Es; [| contradiction].
      destruct (settle_spec r (fst sent) _ s G3 F1) as (T1 & T2 & T3 & T4 & T5).
      fold out in T1, T2, T3, T4, T5.
      split; [assumption |]. split; [assumption |].
      split; [now rewrite T3 |]. split.
      * intros ->. rewrite T4, T5, S1. split; [reflexivity |].
        rewrite !map_map. apply map_ext. intros f. unfold marked.
        now destruct (ContactForm.required f).
      * intros Hr. rewrite T4, T5.
        destruct r; [contradiction | |];
          rewrite S1, (marked_value (ContactForm.fields p));
          split; reflexivity.
    + destruct (F2 eq_refl) as (G1 & _). congruence.
  - destruct (S2 eq_refl) as (_ & _ & G3 & _). contradiction.
Qed.

Lemma submit_always_reenables_witness :
  let p := samplePage "Jo" "jo@site.org" in
  snd (ContactForm.handleSubmit p) = ContactForm.InFlight /\
  ContactForm.formStatus p <> None /\
  ContactForm.submitBtn
    (fst (ContactForm.settle ContactForm.Rejected
            (fst (ContactForm.handleSubmit p))))
    = Some {| ContactForm.disabled := false;
              ContactForm.label := "Send Message" |}.
Proof.
  intros p.
  assert (H1 : snd (ContactForm.handleSubmit p) = ContactForm.InFlight)
    by (vm_compute; reflexivity).
  assert (H2 : ContactForm.formStatus p <> None) by discriminate.
  split; [exact H1 |]. split; [exact H2 |].
  exact (proj1 (proj2 (submit_always_reenables p ContactForm.Rejected H1 H2))).
Defined.

(** ** The cycling label *)

Lemma splitOn_nonempty (sep : N) (s : JSString) : splitOn sep s <> [].
Proof.
  induction s as [| c rest IH]; simpl; [discriminate |].
  destruct (c =? sep)%N; [discriminate |].
  destruct (splitOn sep rest); discriminate.
Qed.

Lemma parse_nonempty (a : JSString) : DisciplineCycle.parse a <> [].
Proof.
  unfold DisciplineCycle.parse. pose proof (splitOn_nonempty 44 a) as H.
  destruct (splitOn 44 a); [contradiction | discriminate].
Qed.

Lemma step_cycling (text : JSString) (ev : DisciplineCycle.Event)
    (c : DisciplineCycle.Cycler) :
  cycling text c ->
  cycling text (DisciplineCycle.step ev c) /\
  DisciplineCycle.disciplines (DisciplineCycle.step ev c)
    = DisciplineCycle.disciplines c.
Proof.
  intros (Hne & (i & Hi & Hlt) & (t & Ht & Hin)).
  destruct ev; simpl.
  - split; [| reflexivity]. repeat split; simpl; eauto.
  - destruct (DisciplineCycle.started c); [| split; [| reflexivity]].
    + split; [| reflexivity]. unfold cycling; simpl.
      split; [assumption |]. split; [| eauto].
      rewrite Hi. simpl.
      destruct (List.length (DisciplineCycle.disciplines c)) as [| n] eqn:En;
        [lia |].
      simpl Nat.eqb. cbv iota. eexists. split; [reflexivity |].
      apply Nat.mod_upper_bound. lia.
    + repeat split; eauto.
  - destruct (DisciplineCycle.pendingSwaps c); [split; [| reflexivity] |].
    + repeat split; eauto.
    + split; [| reflexivity]. unfold cycling; simpl.
      split; [assumption |]. split; [eauto |].
      rewrite Hi. simpl.
      destruct (nth_error (DisciplineCycle.disciplines c) i) as [d |] eqn:Ed.
      * exists d. split; [reflexivity |]. right. now apply nth_error_In in Ed.
      * apply nth_error_None in Ed. lia.
Qed.

Lemma init_cycling (attr : option JSString) (text : JSString)
    (c : DisciplineCycle.Cycler) :
  DisciplineCycle.init attr text = Some c ->
  cycling text c /\ DisciplineCycle.started c = false /\
  DisciplineCycle.currentIndex c = Some 0%nat /\
  exists a, attr = Some a /\ a <> [] /\
            DisciplineCycle.disciplines c = DisciplineCycle.parse a.
Proof.
  unfold DisciplineCycle.init.
  destruct attr as [[| x a] |]; try discriminate.
  intros [= <-]. simpl.
  pose proof (parse_nonempty (x :: a)) as Hne.
  repeat split; simpl; eauto.
  - exists 0%nat. split; [reflexivity |].
    destruct (DisciplineCycle.parse (x :: a)); [contradiction | simpl; lia].
  - exists (x :: a). repeat split. discriminate.
Qed.

(** X22: a label that [init] set up never leaves its list: after any
    sequence of its timers the list is the one parsed from the
    attribute, and it is not empty, so the modulus is never taken by
    zero; [currentIndex] is a position inside the list; and the label
    shows its original text or an entry of the list, never
    [undefined].  A missing or empty attribute sets up nothing. *)
Theorem cycle_stays_in_list (attr : option JSString) (text : JSString)
    (evs : list DisciplineCycle.Event) :
  match DisciplineCycle.init attr text with
  | None => attr = None \/ attr = Some []
  | Some c =>
      let c' := DisciplineCycle.run evs c in
      DisciplineCycle.disciplines c' = DisciplineCycle.disciplines c /\
      DisciplineCycle.disciplines c' <> [] /\
      (exists i, DisciplineCycle.currentIndex c' = Some i /\
                 (i < List.length (DisciplineCycle.disciplines c'))%nat) /\
      (exists t, DisciplineCycle.shown c' = Some t /\
                 (t = text \/ In t (DisciplineCycle.disciplines c')))
  end.
Proof.
  destruct (DisciplineCycle.init attr text) as [c |] eqn:Ei.
  - destruct (init_cycling attr text c Ei) as (Hc & _).
    clear Ei. unfold DisciplineCycle.run. revert c Hc.
    induction evs as [| ev rest IH]; intros c Hc; simpl.
    + destruct Hc as (H1 & H2 & H3). auto.
    + destruct (step_cycling text ev c Hc) as (Hc' & Hd).
      destruct (IH _ Hc') as (I1 & I2 & I3 & I4).
      split; [congruence |]. auto.
  - unfold DisciplineCycle.init in Ei.
    destruct attr as [[| x a] |]; auto. discriminate.
Qed.

Lemma run_index (evs : list DisciplineCycle.Event) :
  forall (c : DisciplineCycle.Cycler) (i : nat),
  DisciplineCycle.currentIndex c = Some i ->
  (i < List.length (DisciplineCycle.disciplines c))%nat ->
  DisciplineCycle.currentIndex (DisciplineCycle.run evs c)
  = Some ((i + ticksFrom (DisciplineCycle.started c) evs)
          mod List.length (DisciplineCycle.disciplines c))%nat.
Proof.
  unfold DisciplineCycle.run.
  induction evs as [| ev rest IH]; intros c i Hi Hlt; simpl.
  - rewrite Nat.add_0_r, Nat.mod_small by assumption. assumption.
  - destruct ev; simpl.
    + rewrite (IH _ i) by (simpl; assumption). reflexivity.
    + destruct (DisciplineCycle.started c) eqn:Es.
      * set (n := List.length (DisciplineCycle.disciplines c)) in *.
        assert (Hn : n <> 0%nat) by lia.
        rewrite (IH _ ((i + 1) mod n)%nat); simpl; fold n.
        -- rewrite Nat.Div0.add_mod_idemp_l. f_equal. f_equal. lia.
        -- rewrite Hi. simpl. destruct n; [lia | reflexivity].
        -- now apply Nat.mod_upper_bound.
      * rewrite (IH _ i) by assumption. now rewrite Es.
    + destruct (DisciplineCycle.pendingSwaps c).
      * now rewrite (IH _ i).
      * rewrite (IH _ i) by (simpl; assumption). reflexivity.
Qed.

(** X23: the index of a label counts the ticks of its interval modulo
    the length of its list: after any sequence of its timers
    [currentIndex] is the number of ticks that came after the start of
    the interval, reduced modulo the number of entries; ticks before the
    start and text swaps do not move it. *)
Theorem cycle_index_counts_ticks (attr : option JSString) (text : JSString)
    (c : DisciplineCycle.Cycler) (evs : list DisciplineCycle.Event) :
  DisciplineCycle.init attr text = Some c ->
  DisciplineCycle.currentIndex (DisciplineCycle.run evs c)
  = Some (ticksFrom false evs
          mod List.length (DisciplineCycle.disciplines c))%nat.
Proof.
  intros Hi.
  destruct (init_cycling attr text c Hi)
    as ((Hne & (i & Hidx & Hlt) & _) & Hs & H0 & _).
  rewrite H0 in Hidx. injection Hidx as <-.
  rewrite (run_index evs c 0%nat H0 Hlt), Hs. reflexivity.
Qed.

Lemma cycle_index_counts_ticks_witness :
  let c := {| DisciplineCycle.disciplines :=
                DisciplineCycle.parse (ofString "Design, Code ,Photo");
              DisciplineCycle.currentIndex := Some 0%nat;
              DisciplineCycle.shown := Some (ofString "Design");
              DisciplineCycle.faded := false;
              DisciplineCycle.started := false;
              DisciplineCycle.pendingSwaps := 0 |} in
  DisciplineCycle.init (Some (ofString "Design, Code ,Photo"))
                       (ofString "Design") = Some c /\
  DisciplineCycle.currentIndex
    (DisciplineCycle.run
       [DisciplineCycle.Tick; DisciplineCycle.Start; DisciplineCycle.Tick;
        DisciplineCycle.Swap; DisciplineCycle.Tick; DisciplineCycle.Tick;
        DisciplineCycle.Tick] c)
  = Some 1%nat.
Proof.
  intros c.
  assert (H : DisciplineCycle.init (Some (ofString "Design, Code ,Photo"))
                                   (ofString "Design") = Some c)
    by reflexivity.
  split; [exact H |].
  exact (cycle_index_counts_ticks _ _ c
           [DisciplineCycle.Tick; DisciplineCycle.Start; DisciplineCycle.Tick;
            DisciplineCycle.Swap; DisciplineCycle.Tick; DisciplineCycle.Tick;
            DisciplineCycle.Tick] H).
Defined.

(** ** Animation on scroll *)

Lemma handleIntersection_spec (entries : list AnimateOnScroll.Entry) :
  forall (elements : list bool),
  List.length (AnimateOnScroll.handleIntersection entries elements)
    = List.length elements /\
  forall i,
    nth_error (AnimateOnScroll.handleIntersection entries elements) i
      = Some true <->
    nth_error elements i = Some true \/
    ((i < List.length elements)%nat /\
     exists e, In e entries /\ AnimateOnScroll.target e = i /\
               AnimateOnScroll.isIntersecting e = true).
Proof.
  unfold AnimateOnScroll.handleIntersection.
  induction entries as [| e rest IH]; intros elements; simpl.
  - split; [reflexivity |]. intros i. split; [auto |].
    intros [H | (_ & e & [] & _)]. assumption.
  - set (els' := if AnimateOnScroll.isIntersecting e
                 then updateAt (AnimateOnScroll.target e) (fun _ => true)
                               elements
                 else elements).
    assert (Hlen : List.length els' = List.length elements).
    { subst els'. destruct (AnimateOnScroll.isIntersecting e);
        [apply updateAt_length | reflexivity]. }
    assert (Hnth : forall i,
               nth_error els' i = Some true <->
               nth_error elements i = Some true \/
               ((i < List.length elements)%nat /\
                AnimateOnScroll.target e = i /\
                AnimateOnScroll.isIntersecting e = true)).
    { intros i. subst els'.
      destruct (AnimateOnScroll.isIntersecting e) eqn:Ei.
      - destruct (Nat.eq_dec (AnimateOnScroll.target e) i) as [<- | Hne].
        + rewrite updateAt_same.
          destruct (nth_error elements (AnimateOnScroll.target e)) eqn:En;
            simpl.
          * split; [| reflexivity]. intros _. right.
            repeat split. apply nth_error_Some. congruence.
          * split; [discriminate |].
            intros [Hd | (Hlt & _)]; [discriminate |].
            apply nth_error_None in En. lia.
        + rewrite updateAt_other by assumption.
          split; [auto |]. intros [H | (_ & Ht & _)]; [assumption |].
          contradiction.
      - split; [auto |]. intros [H | (_ & _ & Hd)]; [assumption |].
        discriminate. }
    clearbody els'.
    destruct (IH els') as (I1 & I2).
    split; [congruence |].
    intros i. rewrite I2, Hnth, Hlen. split.
    + intros [[H | (Hlt & Ht & Hi)] | (Hlt & e' & Hin & Ht & Hi)]; eauto 8.
    + intros [H | (Hlt & e' & [-> | Hin] & Ht & Hi)]; eauto 8.
Qed.

(** X24: the class [aos-animate] is only ever added.  After an observer
    callback an element carries it exactly when it carried it before or
    the callback held an intersecting entry for it, and the number of
    elements is unchanged; once animated, an element stays animated.
    Without [IntersectionObserver], [init] animates every element at
    once. *)
Theorem animation_only_adds (entries : list AnimateOnScroll.Entry)
    (elements : list bool) :
  List.length (AnimateOnScroll.handleIntersection entries elements)
    = List.length elements /\
  (forall i,
     nth_error (AnimateOnScroll.handleIntersection entries elements) i
       = Some true <->
     nth_error elements i = Some true \/
     ((i < List.length elements)%nat /\
      exists e, In e entries /\ AnimateOnScroll.target e = i /\
                AnimateOnScroll.isIntersecting e = true)) /\
  (forall i, nth_error elements i = Some true ->
     nth_error (AnimateOnScroll.handleIntersection entries elements) i
       = Some true) /\
  Forall (fun animated => animated = true)
         (AnimateOnScroll.init false elements) /\
  AnimateOnScroll.init true elements = elements.
Proof.
  destruct (handleIntersection_spec entries elements) as (H1 & H2).
  split; [assumption |]. split; [assumption |]. split.
  - intros i Hi. apply H2. now left.
  - split; [| reflexivity]. unfold AnimateOnScroll.init.
    apply Forall_forall. intros b Hb. apply in_map_iff in Hb.
    now destruct Hb as (_ & <- & _).
Qed.

Lemma animation_only_adds_witness :
  nth_error [true; false; false] 0 = Some true /\
  nth_error (AnimateOnScroll.handleIntersection
               [{| AnimateOnScroll.target := 0%nat;
                   AnimateOnScroll.isIntersecting := false |};
                {| AnimateOnScroll.target := 2%nat;
                   AnimateOnScroll.isIntersecting := true |}]
               [true; false; false]) 0
    = Some true.
Proof.
  split; [reflexivity |].
  exact (proj1 (proj2 (proj2 (animation_only_adds _ [true; false; false])))
           0%nat eq_refl).
Defined.

(** ** Page transitions *)

Lemma prefix_char (a c : ascii) (rest : string) :
  String.prefix (String a EmptyString) (String c rest)
  = if ascii_dec a c then true else false.
Proof. destruct rest; simpl; destruct (ascii_dec a c); reflexivity. Qed.

(** X25: for every link that the selector of [PageTransition] picks, the
    guard for anchor links in its click listener never applies: the
    [href] does not start with [#], so a click always prevents the
    default action, fades the body out and schedules one navigation to
    the [href] after 300 ms.  The [:not([href="#"])] of the selector
    excludes nothing, since an [href] that starts with a dot is not
    [#]. *)
Theorem internal_links_always_fade (href : string) (b : PageTransition.Body) :
  (PageTransition.isInternalLink href = true ->
   String.prefix "#" href = false /\
   PageTransition.onClick href b
     = {| PageTransition.defaultPrevented := true;
          PageTransition.body :=
            {| PageTransition.opacity := "0";
               PageTransition.transition := "opacity 0.3s ease" |};
          PageTransition.navigations := [(300%nat, href)] |}) /\
  (String.prefix "." href = true -> String.eqb href "#" = false).
Proof.
  assert (Hdot : String.prefix "." href = true -> String.eqb href "#" = false).
  { destruct href as [| c rest]; [intros Hx; discriminate Hx |].
    rewrite prefix_char.
    destruct (ascii_dec "." c) as [<- | Hne];
      [reflexivity | intros Hx; discriminate Hx]. }
  split; [| assumption].
  intros H. unfold PageTransition.isInternalLink in H.
  assert (Hp : String.prefix "#" href = false).
  { destruct href as [| c rest]; [reflexivity |].
    rewrite !prefix_char in *.
    destruct (ascii_dec "#" c) as [<- | Hne]; [| reflexivity].
    destruct (ascii_dec "/" "#"); [discriminate |].
    destruct (ascii_dec "." "#"); [discriminate |].
    discriminate H. }
  split; [assumption |].
  unfold PageTransition.onClick. now rewrite Hp.
Qed.

Lemma internal_links_always_fade_witness :
  PageTransition.isInternalLink "/about" = true /\
  PageTransition.navigations
    (PageTransition.onClick "/about"
       {| PageTransition.opacity := "1";
          PageTransition.transition := "opacity 0.5s ease" |})
    = [(300%nat, "/about"%string)].
Proof.
  assert (H : PageTransition.isInternalLink "/about" = true) by reflexivity.
  split; [exact H |].
  exact (f_equal PageTransition.navigations
           (proj2 (proj1 (internal_links_always_fade "/about"
                            {| PageTransition.opacity := "1";
                               PageTransition.transition :=
                                 "opacity 0.5s ease" |}) H))).
Defined.

(** ** The header shadow *)

Lemma header_run_none (offsets : list R) (s : HeaderScroll.State)
    (c : Completion) :
  HeaderScroll.listening s = false ->
  fold_left HeaderScroll.scroll offsets (s, c) = (s, c).
Proof.
  intros Hl. induction offsets as [| y rest IH]; simpl; [reflexivity |].
  unfold HeaderScroll.scroll at 2. simpl. now rewrite Hl.
Qed.

Lemma header_run_last (offsets : list R) :
  forall (shadow : string) (last y : R),
  fold_left HeaderScroll.scroll (offsets ++ [y])
    ({| HeaderScroll.header := Some shadow; HeaderScroll.lastScroll := last;
        HeaderScroll.listening := true |}, Normal)
  = ({| HeaderScroll.header :=
          Some (if Rgt_dec y 10
                then "0 2px 10px rgba(0, 0, 0, 0.05)"%string
                else "none"%string);
        HeaderScroll.lastScroll := y;
        HeaderScroll.listening := true |}, Normal).
Proof.
  induction offsets as [| x rest IH]; intros shadow last y; simpl.
  - reflexivity.
  - unfold HeaderScroll.scroll at 2. simpl.
    unfold HeaderScroll.handleScroll. simpl. apply IH.
Qed.

(** X26: after any train of scroll events the header's shadow and
    [lastScroll] depend on the last event alone: the shadow is on
    exactly when the last offset is above 10, and [lastScroll] is that
    offset; no event ever throws.  When the selector finds no header,
    [init] registers no listener and scroll events change nothing. *)
Theorem header_shadow_follows_last_scroll (shadow : string)
    (offsets : list R) (y : R) :
  HeaderScroll.run (offsets ++ [y]) (HeaderScroll.construct (Some shadow))
  = ({| HeaderScroll.header :=
          Some (if Rgt_dec y 10
                then "0 2px 10px rgba(0, 0, 0, 0.05)"%string
                else "none"%string);
        HeaderScroll.lastScroll := y;
        HeaderScroll.listening := true |}, Normal) /\
  HeaderScroll.run (offsets ++ [y]) (HeaderScroll.construct None)
  = (HeaderScroll.construct None, Normal) /\
  HeaderScroll.listening (HeaderScroll.construct None) = false.
Proof.
  split; [| split].
  - unfold HeaderScroll.run, HeaderScroll.construct, HeaderScroll.init.
    simpl. apply header_run_last.
  - unfold HeaderScroll.run. now apply header_run_none.
  - reflexivity.
Qed.

(** ** Images *)

Lemma load_spec (loads : list nat) :
  forall (images : list LazyImageLoad.Image) (i : nat)
         (img : LazyImageLoad.Image),
  nth_error images i = Some img ->
  LazyImageLoad.loadListeners img <> 0%nat ->
  exists img',
    nth_error (LazyImageLoad.run loads images) i = Some img' /\
    LazyImageLoad.loadListeners img' <> 0%nat /\
    LazyImageLoad.opacity img'
      = if in_dec Nat.eq_dec i loads then "1"%string
        else LazyImageLoad.opacity img.
Proof.
  unfold LazyImageLoad.run.
  induction loads as [| j rest IH]; intros images i img Hi Hl; simpl.
  - eauto.
  - unfold LazyImageLoad.load at 2.
    destruct (Nat.eq_dec j i) as [-> | Hne].
    + destruct (IH (updateAt i LazyImageLoad.onLoad images) i
                   (LazyImageLoad.onLoad img))
        as (img' & H1 & H2 & H3);
        [now rewrite updateAt_same, Hi | assumption |].
      exists img'. split; [assumption |]. split; [assumption |].
      rewrite H3. simpl.
      destruct (LazyImageLoad.loadListeners img); [contradiction |].
      now destruct (in_dec Nat.eq_dec i rest).
    + destruct (IH (updateAt j LazyImageLoad.onLoad images) i img)
        as (img' & H1 & H2 & H3);
        [now rewrite updateAt_other | assumption |].
      exists img'. split; [assumption |]. split; [assumption |].
      rewrite H3. now destruct (in_dec Nat.eq_dec i rest).
Qed.

(** X27: an image that was not complete when [init] ran is hidden until
    its own load event: after any sequence of load events its opacity is
    [1] exactly when one of them was its own, and [0] otherwise, so an
    image whose load never fires stays invisible.  An image that was
    complete is opaque from [init] on and gets no listener. *)
Theorem image_shows_after_its_load (images : list LazyImageLoad.Image)
    (loads : list nat) (i : nat) (img : LazyImageLoad.Image) :
  nth_error images i = Some img ->
  (LazyImageLoad.complete img = false ->
   exists img',
     nth_error (LazyImageLoad.run loads (LazyImageLoad.init images)) i
       = Some img' /\
     LazyImageLoad.opacity img'
       = if in_dec Nat.eq_dec i loads then "1"%string else "0"%string) /\
  (LazyImageLoad.complete img = true ->
   nth_error (LazyImageLoad.init images) i
     = Some {| LazyImageLoad.complete := true; LazyImageLoad.opacity := "1";
               LazyImageLoad.transition := "opacity 0.4s ease";
               LazyImageLoad.loadListeners := LazyImageLoad.loadListeners img |}).
Proof.
  intros Hi.
  assert (Hinit : nth_error (LazyImageLoad.init images) i
                  = Some (LazyImageLoad.initImage img))
    by (unfold LazyImageLoad.init; now rewrite nth_error_map, Hi).
  split.
  - intros Hc.
    destruct (load_spec loads (LazyImageLoad.init images) i
                (LazyImageLoad.initImage img) Hinit)
      as (img' & H1 & _ & H3).
    + unfold LazyImageLoad.initImage. rewrite Hc. simpl. discriminate.
    + exists img'. split; [assumption |]. rewrite H3.
      unfold LazyImageLoad.initImage. now rewrite Hc.
  - intros Hc. rewrite Hinit. unfold LazyImageLoad.initImage. now rewrite Hc.
Qed.

Lemma image_shows_after_its_load_witness :
  let pending := {| LazyImageLoad.complete := false;
                    LazyImageLoad.opacity := EmptyString;
                    LazyImageLoad.transition := EmptyString;
                    LazyImageLoad.loadListeners := 0 |} in
  nth_error [pending; pending] 1 = Some pending /\
  LazyImageLoad.complete pending = false /\
  exists img',
    nth_error (LazyImageLoad.run [0%nat]
                 (LazyImageLoad.init [pending; pending])) 1 = Some img' /\
    LazyImageLoad.opacity img' = "0"%string.
Proof.
  intros pending.
  assert (H1 : nth_error [pending; pending] 1 = Some pending) by reflexivity.
  assert (H2 : LazyImageLoad.complete pending = false) by reflexivity.
  split; [exact H1 |]. split; [exact H2 |].
  exact (proj1 (image_shows_after_its_load [pending; pending] [0%nat] 1
                  pending H1) H2).
Defined.
